(** * The client-side render pipeline of the video editor

    A shallow embedding of [VideoEditor] (the editor component): the
    encoder-format probe, the frame compositor, the trim controls, the
    merge-queue selector, the segment player, the recorder's stop handler
    and the export procedure [processVideo]; then the close button, the
    preview player, the effect that loads the main clip, and
    [handleEditorSave] of the application, which receives the export.

    Conventions.
    - Seconds and canvas lengths are JavaScript numbers; they are modelled
      as rationals [Q].  Comparisons, [Math.max], [Math.min] and [Math.abs]
      are exact on doubles; only [+ 0.1] / [- 0.1] / [* 0.08] round.  The
      theorems C1 to C10 use none of these but [x - x]; the lemmas on the
      trim controls are about exact arithmetic.
    - Browser objects are modelled by what the code observes of them: a
      media element by the observations made at each animation frame, the
      object-URL registry by a finite map, a [Set<number>] by a [gset nat].
    - Everything the browser decides (fetch results, load events, playback)
      is read from an environment record, so each run is a function. *)

From Stdlib Require Import QArith Qminmax Qabs Lqa.
From stdpp Require Import gmap strings list pretty.

Local Open Scope string_scope.
Local Open Scope list_scope.

(** ** types.ts *)

Record GeneratedVideo := {
  id : string;
  url : string;
  prompt : string;
  model : string;
  aspectRatio : string
}.

(** ** Encoder format selection *)

(** The preference list of [getSupportedMimeType]. *)
Definition types : list string :=
  [ "video/webm;codecs=vp9";
    "video/webm;codecs=vp8";
    "video/webm";
    "video/mp4" ].

(** [for (const type of types) if (isTypeSupported(type)) return type;]
    followed by [return ''] *)
Fixpoint firstSupported (isTypeSupported : string → bool) (ts : list string)
  : string :=
  match ts with
  | [] => EmptyString
  | type :: rest =>
      if isTypeSupported type then type
      else firstSupported isTypeSupported rest
  end.

Definition getSupportedMimeType (isTypeSupported : string → bool) : string :=
  firstSupported isTypeSupported types.

(** ** Frame compositor *)

(** What a media element shows: the resource it plays and the position. *)
Record Frame := { frame_src : nat; frame_time : Q }.

Inductive Font :=
| FontDefault
| FontSystemUi (weight : nat) (px : Q).

(** The part of a 2D context the compositor touches.  A paint operation
    is recorded with the values it was painted with. *)
Inductive DrawOp :=
| DrawImage (source : Frame) (dx dy dw dh : Q)
| StrokeText (text : string) (x y : Q) (font : Font) (lineWidth : Q)
    (strokeStyle shadowColor : string) (shadowBlur : Q)
| FillText (text : string) (x y : Q) (font : Font)
    (fillStyle shadowColor : string) (shadowBlur : Q).

Record CanvasRenderingContext2D := {
  ctx_font : Font;
  ctx_textAlign : string;
  ctx_textBaseline : string;
  ctx_lineWidth : Q;
  ctx_strokeStyle : string;
  ctx_lineJoin : string;
  ctx_lineCap : string;
  ctx_shadowColor : string;
  ctx_shadowBlur : Q;
  ctx_shadowOffsetX : Q;
  ctx_shadowOffsetY : Q;
  ctx_fillStyle : string;
  ctx_ops : list DrawOp            (* oldest first *)
}.

Definition paint (op : DrawOp) (c : CanvasRenderingContext2D)
  : CanvasRenderingContext2D :=
  {| ctx_font := ctx_font c; ctx_textAlign := ctx_textAlign c;
     ctx_textBaseline := ctx_textBaseline c; ctx_lineWidth := ctx_lineWidth c;
     ctx_strokeStyle := ctx_strokeStyle c; ctx_lineJoin := ctx_lineJoin c;
     ctx_lineCap := ctx_lineCap c; ctx_shadowColor := ctx_shadowColor c;
     ctx_shadowBlur := ctx_shadowBlur c;
     ctx_shadowOffsetX := ctx_shadowOffsetX c;
     ctx_shadowOffsetY := ctx_shadowOffsetY c;
     ctx_fillStyle := ctx_fillStyle c;
     ctx_ops := ctx_ops c ++ [op] |}.

Definition drawImage (source : Frame) (dx dy dw dh : Q)
    (c : CanvasRenderingContext2D) : CanvasRenderingContext2D :=
  paint (DrawImage source dx dy dw dh) c.

Definition strokeText (text : string) (x y : Q)
    (c : CanvasRenderingContext2D) : CanvasRenderingContext2D :=
  paint (StrokeText text x y (ctx_font c) (ctx_lineWidth c)
           (ctx_strokeStyle c) (ctx_shadowColor c) (ctx_shadowBlur c)) c.

Definition fillText (text : string) (x y : Q)
    (c : CanvasRenderingContext2D) : CanvasRenderingContext2D :=
  paint (FillText text x y (ctx_font c) (ctx_fillStyle c)
           (ctx_shadowColor c) (ctx_shadowBlur c)) c.

(** The assignments of [renderFrame] before [strokeText]. *)
Definition strokeSetup (fontSize : Q) (c : CanvasRenderingContext2D)
  : CanvasRenderingContext2D :=
  {| ctx_font := FontSystemUi 900 fontSize;
     ctx_textAlign := "center";
     ctx_textBaseline := "bottom";
     ctx_lineWidth := (fontSize * (12 # 100))%Q;
     ctx_strokeStyle := "rgba(0, 0, 0, 0.8)";
     ctx_lineJoin := "round";
     ctx_lineCap := "round";
     ctx_shadowColor := "rgba(0,0,0,0.5)";
     ctx_shadowBlur := (fontSize * (2 # 10))%Q;
     ctx_shadowOffsetX := (fontSize * (5 # 100))%Q;
     ctx_shadowOffsetY := (fontSize * (5 # 100))%Q;
     ctx_fillStyle := ctx_fillStyle c;
     ctx_ops := ctx_ops c |}.

(** The assignments between [strokeText] and [fillText]. *)
Definition fillSetup (c : CanvasRenderingContext2D)
  : CanvasRenderingContext2D :=
  {| ctx_font := ctx_font c; ctx_textAlign := ctx_textAlign c;
     ctx_textBaseline := ctx_textBaseline c; ctx_lineWidth := ctx_lineWidth c;
     ctx_strokeStyle := ctx_strokeStyle c; ctx_lineJoin := ctx_lineJoin c;
     ctx_lineCap := ctx_lineCap c;
     ctx_shadowColor := "transparent";
     ctx_shadowBlur := 0%Q;
     ctx_shadowOffsetX := 0%Q;
     ctx_shadowOffsetY := 0%Q;
     ctx_fillStyle := "white";
     ctx_ops := ctx_ops c |}.

(** A JavaScript string is truthy unless it is empty. *)
Definition truthy (s : string) : bool :=
  match s with EmptyString => false | String _ _ => true end.

Definition renderFrame (ctx : CanvasRenderingContext2D) (source : Frame)
    (text : string) (width height : Q) : CanvasRenderingContext2D :=
  (* 1. Draw Video Frame *)
  let ctx := drawImage source 0%Q 0%Q width height ctx in
  (* 2. Draw Text Overlay *)
  if truthy text then
    let fontSize := (height * (8 # 100))%Q in
    let x := (width / 2)%Q in
    let y := (height - height * (1 # 10))%Q in
    let ctx := strokeSetup fontSize ctx in
    let ctx := strokeText text x y ctx in
    let ctx := fillSetup ctx in
    fillText text x y ctx
  else ctx.

Definition isTextOp (op : DrawOp) : bool :=
  match op with
  | DrawImage _ _ _ _ _ => false
  | StrokeText _ _ _ _ _ _ _ _ => true
  | FillText _ _ _ _ _ _ _ => true
  end.

(** ** Editor state: trim controls and merge queue *)

Record Editor := {
  video : GeneratedVideo;               (* prop *)
  allVideos : list GeneratedVideo;      (* prop *)
  localVideoSrc : option nat;           (* object URL of the main clip *)
  duration : Q;
  trimStart : Q;
  trimEnd : Q;
  textOverlay : string;
  mergeQueue : list string
}.

Definition setTrimStart (v : Q) (ed : Editor) : Editor :=
  {| video := video ed; allVideos := allVideos ed;
     localVideoSrc := localVideoSrc ed; duration := duration ed;
     trimStart := v; trimEnd := trimEnd ed;
     textOverlay := textOverlay ed; mergeQueue := mergeQueue ed |}.

Definition setTrimEnd (v : Q) (ed : Editor) : Editor :=
  {| video := video ed; allVideos := allVideos ed;
     localVideoSrc := localVideoSrc ed; duration := duration ed;
     trimStart := trimStart ed; trimEnd := v;
     textOverlay := textOverlay ed; mergeQueue := mergeQueue ed |}.

Definition setMergeQueue (q : list string) (ed : Editor) : Editor :=
  {| video := video ed; allVideos := allVideos ed;
     localVideoSrc := localVideoSrc ed; duration := duration ed;
     trimStart := trimStart ed; trimEnd := trimEnd ed;
     textOverlay := textOverlay ed; mergeQueue := q |}.

(** [handleLoadedMetadata], first load: [setDuration(dur); setTrimEnd(dur)] *)
Definition handleLoadedMetadata (dur : Q) (ed : Editor) : Editor :=
  if Qeq_bool (duration ed) 0 then
    {| video := video ed; allVideos := allVideos ed;
       localVideoSrc := localVideoSrc ed; duration := dur;
       trimStart := trimStart ed; trimEnd := dur;
       textOverlay := textOverlay ed; mergeQueue := mergeQueue ed |}
  else ed.

(** The five trim controls.  [value] is [Number(e.target.value)]. *)
Inductive TrimControl :=
| StartInput (value : Q)       (* number input "start" *)
| EndInput (value : Q)         (* number input "end" *)
| LengthInput (value : Q)      (* number input "length" *)
| StartSlider (value : Q)      (* range slider bound to trimStart *)
| EndSlider (value : Q).       (* range slider bound to trimEnd *)

Definition tenth : Q := 1 # 10.

Definition onChange (c : TrimControl) (ed : Editor) : Editor :=
  match c with
  | StartInput value =>
      let val := Qmin value (trimEnd ed - tenth) in
      setTrimStart (Qmax 0 val) ed
  | EndInput value =>
      let val := Qmax value (trimStart ed + tenth) in
      setTrimEnd (Qmin (duration ed) val) ed
  | LengthInput newDur =>
      let newEnd := (trimStart ed + newDur)%Q in
      if Qle_bool newEnd (duration ed) then setTrimEnd newEnd ed else ed
  | StartSlider val => setTrimStart val ed
  | EndSlider value => setTrimEnd (Qmax value (trimStart ed)) ed
  end.

(** A range input only reports values between its [min] and [max]
    attributes, here [0] and [duration]. *)
Definition sliderValue (ed : Editor) (c : TrimControl) : Prop :=
  match c with
  | StartSlider v | EndSlider v => (0 <= v)%Q ∧ (v <= duration ed)%Q
  | _ => True
  end.

Definition trimInvariant (ed : Editor) : Prop :=
  (0 <= trimStart ed)%Q ∧ (trimStart ed < trimEnd ed)%Q
  ∧ (trimEnd ed <= duration ed)%Q
  ∧ (tenth <= trimEnd ed - trimStart ed)%Q.

Definition trimInvariantb (ed : Editor) : bool :=
  Qle_bool 0 (trimStart ed)
  && negb (Qle_bool (trimEnd ed) (trimStart ed))
  && Qle_bool (trimEnd ed) (duration ed)
  && Qle_bool tenth (trimEnd ed - trimStart ed).

(** [allVideos.filter(v => v.id !== video.id && v.aspectRatio === video.aspectRatio)] *)
Definition compatible (main v : GeneratedVideo) : bool :=
  negb (String.eqb (id v) (id main))
  && String.eqb (aspectRatio v) (aspectRatio main).

Definition compatibleVideos (ed : Editor) : list GeneratedVideo :=
  List.filter (compatible (video ed)) (allVideos ed).

(** The values of the selector's options: the disabled placeholder and one
    option per compatible video, [<option value={v.id}>]. *)
Definition selectorValues (ed : Editor) : list string :=
  EmptyString :: map id (compatibleVideos ed).

(** [handleAddToQueue]: [if (selectedId) setMergeQueue([...mergeQueue, selectedId])] *)
Definition handleAddToQueue (selectedId : string) (ed : Editor) : Editor :=
  if truthy selectedId then setMergeQueue (mergeQueue ed ++ [selectedId]) ed
  else ed.

(** [mergeQueue.filter((_, index) => index !== indexToRemove)] *)
Definition handleRemoveFromQueue (indexToRemove : nat) (ed : Editor) : Editor :=
  setMergeQueue (delete indexToRemove (mergeQueue ed)) ed.

(** [allVideos.find(v => v.id === mergeId)] *)
Definition findVideo (all : list GeneratedVideo) (mergeId : string)
  : option GeneratedVideo :=
  List.find (λ v, String.eqb (id v) mergeId) all.

(** ** The browser as the export procedure sees it *)

Record Blob := { blob_size : N; blob_type : string }.

(** [new Blob(chunks, { type })] *)
Definition newBlob (parts : list Blob) (type : string) : Blob :=
  {| blob_size := foldr N.add 0%N (map blob_size parts); blob_type := type |}.

Inductive Error :=
| InvalidDimensions              (* "Invalid video dimensions. ..." *)
| NoCanvasContext                (* "Could not get canvas context" *)
| FetchFailed (statusText : string)   (* response.ok is false *)
| NetworkError                   (* fetch rejects *)
| LoadFailed (mergeId : string)  (* "Failed to load video ID: ..." *)
| LoadTimeout (mergeId : string) (* "Timeout loading video ID: ..." *)
| PlayRejected                   (* videoEl.play() rejects *)
| NoDataRecorded                 (* "No video data recorded. ..." *)
| OutputTooSmall                 (* "Generated video file is too small/empty." *)
| QueueItemFailed (i : nat)      (* the message naming entry i + 1 *)
| PlatformError.                 (* an exception raised by a browser call *)

Inductive Message :=
| SourceNotReady                 (* shown when localVideoSrc is null *)
| MessageOf (e : Error).         (* e.message || the default text *)

Inductive AudioState := NotCreated | Suspended | Running | Closed.

Inductive Event :=
| EvPause                            (* pause() on the video element *)
| EvAudioResume
| EvDrawInitial (w h : Z)            (* ctx.drawImage(sourceVideo, 0, 0, w, h) *)
| EvCaptureStream (fps : nat)
| EvConnectAudio
| EvAddAudioTrack
| EvRecorderCreate (mimeType : string)
| EvRecorderStart (timeslice : nat)
| EvSeek (t : Q)                     (* videoEl.currentTime = t *)
| EvPlay                             (* videoEl.play() *)
| EvRenderFrame (text : string)      (* renderFrame(ctx, videoEl, text, ..) *)
| EvFetch (url : string)
| EvSetSrc (blobUrl : nat)           (* sourceVideo.src = ..; load() *)
| EvMarkFailed (i : nat)
| EvDelay (ms : nat)
| EvRecorderStop
| EvSave (blobUrl : nat)             (* onSave(url) *)
| EvDisconnect
| EvAudioClose
| EvRevoke (blobUrl : nat)
| EvRestore (blobUrl : nat).         (* sourceVideo.src = localVideoSrc; load() *)

Record World := {
  processing : bool;
  errorMessage : option Message;
  failedQueueIndices : gset nat;
  audio : AudioState;                (* audioCtx.state *)
  connected : bool;                  (* sourceNode is connected to dest *)
  urls : gmap nat Blob;              (* the live object URLs *)
  nextUrl : nat;                     (* the next URL createObjectURL mints *)
  tempMergeBlobs : list nat;
  chunks : list Blob;
  saved : list nat;                  (* the calls of onSave so far *)
  canvas : CanvasRenderingContext2D;
  trace : list Event                 (* oldest first *)
}.

Definition setProcessing (b : bool) (w : World) : World :=
  {| processing := b; errorMessage := errorMessage w;
     failedQueueIndices := failedQueueIndices w; audio := audio w;
     connected := connected w; urls := urls w; nextUrl := nextUrl w;
     tempMergeBlobs := tempMergeBlobs w; chunks := chunks w;
     saved := saved w; canvas := canvas w; trace := trace w |}.

Definition setErrorMessage (m : option Message) (w : World) : World :=
  {| processing := processing w; errorMessage := m;
     failedQueueIndices := failedQueueIndices w; audio := audio w;
     connected := connected w; urls := urls w; nextUrl := nextUrl w;
     tempMergeBlobs := tempMergeBlobs w; chunks := chunks w;
     saved := saved w; canvas := canvas w; trace := trace w |}.

Definition setFailedQueueIndices (f : gset nat → gset nat) (w : World) : World :=
  {| processing := processing w; errorMessage := errorMessage w;
     failedQueueIndices := f (failedQueueIndices w); audio := audio w;
     connected := connected w; urls := urls w; nextUrl := nextUrl w;
     tempMergeBlobs := tempMergeBlobs w; chunks := chunks w;
     saved := saved w; canvas := canvas w; trace := trace w |}.

Definition setAudio (a : AudioState) (w : World) : World :=
  {| processing := processing w; errorMessage := errorMessage w;
     failedQueueIndices := failedQueueIndices w; audio := a;
     connected := connected w; urls := urls w; nextUrl := nextUrl w;
     tempMergeBlobs := tempMergeBlobs w; chunks := chunks w;
     saved := saved w; canvas := canvas w; trace := trace w |}.

Definition setConnected (b : bool) (w : World) : World :=
  {| processing := processing w; errorMessage := errorMessage w;
     failedQueueIndices := failedQueueIndices w; audio := audio w;
     connected := b; urls := urls w; nextUrl := nextUrl w;
     tempMergeBlobs := tempMergeBlobs w; chunks := chunks w;
     saved := saved w; canvas := canvas w; trace := trace w |}.

Definition setUrls (m : gmap nat Blob) (n : nat) (w : World) : World :=
  {| processing := processing w; errorMessage := errorMessage w;
     failedQueueIndices := failedQueueIndices w; audio := audio w;
     connected := connected w; urls := m; nextUrl := n;
     tempMergeBlobs := tempMergeBlobs w; chunks := chunks w;
     saved := saved w; canvas := canvas w; trace := trace w |}.

Definition setTempMergeBlobs (l : list nat) (w : World) : World :=
  {| processing := processing w; errorMessage := errorMessage w;
     failedQueueIndices := failedQueueIndices w; audio := audio w;
     connected := connected w; urls := urls w; nextUrl := nextUrl w;
     tempMergeBlobs := l; chunks := chunks w;
     saved := saved w; canvas := canvas w; trace := trace w |}.

Definition setChunks (l : list Blob) (w : World) : World :=
  {| processing := processing w; errorMessage := errorMessage w;
     failedQueueIndices := failedQueueIndices w; audio := audio w;
     connected := connected w; urls := urls w; nextUrl := nextUrl w;
     tempMergeBlobs := tempMergeBlobs w; chunks := l;
     saved := saved w; canvas := canvas w; trace := trace w |}.

Definition setSaved (l : list nat) (w : World) : World :=
  {| processing := processing w; errorMessage := errorMessage w;
     failedQueueIndices := failedQueueIndices w; audio := audio w;
     connected := connected w; urls := urls w; nextUrl := nextUrl w;
     tempMergeBlobs := tempMergeBlobs w; chunks := chunks w;
     saved := l; canvas := canvas w; trace := trace w |}.

Definition setCanvas (c : CanvasRenderingContext2D) (w : World) : World :=
  {| processing := processing w; errorMessage := errorMessage w;
     failedQueueIndices := failedQueueIndices w; audio := audio w;
     connected := connected w; urls := urls w; nextUrl := nextUrl w;
     tempMergeBlobs := tempMergeBlobs w; chunks := chunks w;
     saved := saved w; canvas := c; trace := trace w |}.

Definition setTrace (t : list Event) (w : World) : World :=
  {| processing := processing w; errorMessage := errorMessage w;
     failedQueueIndices := failedQueueIndices w; audio := audio w;
     connected := connected w; urls := urls w; nextUrl := nextUrl w;
     tempMergeBlobs := tempMergeBlobs w; chunks := chunks w;
     saved := saved w; canvas := canvas w; trace := t |}.

(** ** Asynchronous code as a state-and-exception monad

    An [async] function either returns, throws, or waits on a promise that
    never settles ([Pending]).  [try { } catch] handles a throw and nothing
    else. *)

Inductive Res (A : Type) : Type :=
| Ok (a : A)
| Throw (e : Error)
| Pending.

Arguments Ok {A} a.
Arguments Throw {A} e.
Arguments Pending {A}.

Definition Job (A : Type) : Type := World → World * Res A.

Definition ret {A} (a : A) : Job A := λ w, (w, Ok a).

Definition bind {A B} (m : Job A) (k : A → Job B) : Job B :=
  λ w, match m w with
       | (w', Ok a) => k a w'
       | (w', Throw e) => (w', Throw e)
       | (w', Pending) => (w', Pending)
       end.

Definition throw {A} (e : Error) : Job A := λ w, (w, Throw e).

Definition never {A} : Job A := λ w, (w, Pending).

Definition try_catch {A} (m : Job A) (handler : Error → Job A) : Job A :=
  λ w, match m w with
       | (w', Throw e) => handler e w'
       | r => r
       end.

Definition modify (f : World → World) : Job unit := λ w, (f w, Ok tt).

Definition gets {A} (f : World → A) : Job A := λ w, (w, Ok (f w)).

Declare Scope job_scope.
Delimit Scope job_scope with job.
Bind Scope job_scope with Job.

Notation "'let*' x := m 'in' k" := (bind m (λ x, k))
  (at level 10, x name, m at level 100, k at level 200) : job_scope.
Notation "m >> k" := (bind m (λ _, k))
  (at level 90, right associativity) : job_scope.

Local Open Scope job_scope.

Definition emit (ev : Event) : Job unit :=
  modify (λ w, setTrace (trace w ++ [ev]) w).

Definition when (b : bool) (m : Job unit) : Job unit :=
  if b then m else ret tt.

(** [list.forEach(f)] *)
Fixpoint forEach {A} (f : A → Job unit) (l : list A) : Job unit :=
  match l with
  | [] => ret tt
  | x :: rest => f x >> forEach f rest
  end.

(** [URL.createObjectURL(blob)]: a URL never handed out before. *)
Definition createObjectURL (b : Blob) : Job nat :=
  λ w, let u := nextUrl w in
       (setUrls (<[u := b]> (urls w)) (S u) w, Ok u).

(** [URL.revokeObjectURL(url)] *)
Definition revokeObjectURL (u : nat) : Job unit :=
  modify (λ w, setUrls (delete u (urls w)) (nextUrl w) w) >> emit (EvRevoke u).

(** On the processing canvas: [f] is the drawing, [ev] its trace entry. *)
Definition onCanvas (ev : Event)
    (f : CanvasRenderingContext2D → CanvasRenderingContext2D) : Job unit :=
  modify (λ w, setCanvas (f (canvas w)) w) >> emit ev.

(** ** What the browser decides during one run *)

Inductive FetchOutcome :=
| FetchOk (body : Blob)              (* response.ok, body read *)
| FetchNotOk (statusText : string)   (* response.ok is false *)
| FetchRejected.                     (* network error *)

(** The first of [loadeddata], [error] and the 15 s timer. *)
Inductive LoadOutcome :=
| LoadedData (duration : Q)          (* sourceVideo.duration once loaded *)
| LoadError
| LoadTimedOut.

(** The video element as one [onFrame] call reads it. *)
Record MediaObs := { currentTime : Q; paused : bool; ended : bool }.

Record Playback := {
  pb_seeked : bool;                  (* 'seeked' fires after a seek *)
  pb_play : bool;                    (* videoEl.play() resolves *)
  pb_frames : nat → MediaObs         (* the element at the k-th onFrame call *)
}.

(** One run's answers.  Left out: an error event of the encoder
    ([recorder.onerror]), a fetch that never settles, and an exception
    thrown by [onSave]. *)
Record Env := {
  env_refs : bool;                   (* videoRef.current && canvasRef.current *)
  env_audioSuspended : bool;         (* state of a new AudioContext *)
  env_position : Q;                  (* sourceVideo.currentTime at the start *)
  env_videoWidth : Z;
  env_videoHeight : Z;
  env_context2d : bool;              (* getContext('2d') is not null *)
  env_elementSource : bool;          (* createMediaElementSource succeeds *)
  env_audioTrack : bool;             (* dest.stream has an audio track *)
  env_isTypeSupported : string → bool;
  env_recorder : bool;               (* new MediaRecorder(..) succeeds *)
  env_playback : nat → Playback;     (* segment 0 is the main clip,
                                        segment i + 1 is queue entry i *)
  env_fetch : nat → FetchOutcome;    (* for queue entry i *)
  env_load : nat → LoadOutcome;      (* for queue entry i *)
  env_data : list (option Blob)      (* e.data of the dataavailable events *)
}.

(** ** Source loader *)

Definition fetchVideoAsBlobUrl (outcome : FetchOutcome) (url : string)
  : Job nat :=
  emit (EvFetch url) >>
  match outcome with
  | FetchRejected => throw NetworkError
  | FetchNotOk statusText => throw (FetchFailed statusText)
  | FetchOk blob => createObjectURL blob
  end.

(** The promise around [sourceVideo.src = mergeBlobUrl; sourceVideo.load()];
    it yields [sourceVideo.duration]. *)
Definition loadMergeVideo (outcome : LoadOutcome) (mergeId : string)
    (mergeBlobUrl : nat) : Job Q :=
  emit (EvSetSrc mergeBlobUrl) >>
  match outcome with
  | LoadedData d => ret d
  | LoadError => throw (LoadFailed mergeId)
  | LoadTimedOut => throw (LoadTimeout mergeId)
  end.

(** ** Segment player *)

(** [onFrame], re-armed through [requestAnimationFrame]; [k] counts the
    calls and [fuel] bounds them. *)
Fixpoint onFrame (fuel : nat) (frames : nat → MediaObs) (k : nat)
    (src : nat) (end_ : Q) (text : string) (width height : Z) : Job unit :=
  match fuel with
  | O => never
  | S fuel' =>
      let videoEl := frames k in
      (* Check if we hit the end *)
      if Qle_bool end_ (currentTime videoEl) then
        emit EvPause >> ret tt
      else
        (* Draw current frame *)
        onCanvas (EvRenderFrame text)
          (λ ctx, renderFrame ctx
                    {| frame_src := src; frame_time := currentTime videoEl |}
                    text (inject_Z width) (inject_Z height)) >>
        (* Continue loop if still playing *)
        if negb (paused videoEl) && negb (ended videoEl) then
          onFrame fuel' frames (S k) src end_ text width height
        else
          (* Fallback: paused but not reached end, verify time *)
          if negb (Qle_bool end_ (currentTime videoEl)) then
            onFrame fuel' frames (S k) src end_ text width height
          else ret tt
  end.

Definition startPlayback (fuel : nat) (pb : Playback) (src : nat)
    (start end_ : Q) (text : string) (width height : Z) : Job unit :=
  emit (EvSeek start) >>
  emit EvPlay >>
  if pb_play pb then onFrame fuel (pb_frames pb) 0 src end_ text width height
  else throw PlayRejected.

(** [position] is [videoEl.currentTime] when the call is made. *)
Definition playSegment (fuel : nat) (pb : Playback) (src : nat)
    (position start end_ : Q) (text : string) (width height : Z) : Job unit :=
  (* If we need to seek, wait for 'seeked' *)
  if negb (Qle_bool (Qabs (position - start)) tenth) then
    emit (EvSeek start) >>
    if pb_seeked pb then startPlayback fuel pb src start end_ text width height
    else never
  else startPlayback fuel pb src start end_ text width height.

(** ** Capture/record sink *)

(** [recorder.ondataavailable] *)
Definition ondataavailable (data : option Blob) : Job unit :=
  match data with
  | Some d =>
      if (0 <? blob_size d)%N
      then modify (λ w, setChunks (chunks w ++ [d]) w)
      else ret tt
  | None => ret tt
  end.

(** The container type given to the output blob, [mimeType || 'video/webm']. *)
Definition outputType (mimeType : string) : string :=
  if truthy mimeType then mimeType else "video/webm".

(** [recorder.onstop]; a throw is the rejection of [recordingFinished]. *)
Definition onstop (mimeType : string) : Job unit :=
  let* chunks := gets chunks in
  if (length chunks =? 0)%nat then throw NoDataRecorded
  else
    let blob := newBlob chunks (outputType mimeType) in
    if (blob_size blob <? 1000)%N then throw OutputTooSmall
    else
      let* url := createObjectURL blob in
      modify (λ w, setSaved (saved w ++ [url]) w) >>
      emit (EvSave url).

(** [recorder.stop(); await recordingFinished].  The [dataavailable]
    events of the run are delivered here: the buffer is only read by
    [onstop]. *)
Definition finish (env : Env) (mimeType : string) : Job unit :=
  emit EvRecorderStop >>
  forEach ondataavailable (env_data env) >>
  onstop mimeType.

(** ** Sequence orchestrator: [processVideo] *)

Definition cleanupAudio : Job unit :=
  let* state := gets audio in
  match state with
  | Closed => ret tt
  | _ => modify (setAudio Closed) >> emit EvAudioClose
  end.

(** [tempMergeBlobs.forEach(url => URL.revokeObjectURL(url))] *)
Definition revokeTempMergeBlobs : Job unit :=
  let* temp := gets tempMergeBlobs in
  forEach revokeObjectURL temp.

Definition forceEven (n : Z) : Z :=
  if (Z.rem n 2 =? 0)%Z then n else (n - 1)%Z.

Record Setup := { width : Z; height : Z; mimeType : string }.

(** From the top of the [try] block to the initial draw; yields the
    canvas size. *)
Definition prepareCanvas (env : Env) (src : nat) : Job (Z * Z) :=
  when (env_audioSuspended env)
    (modify (setAudio Running) >> emit EvAudioResume) >>
  (* 1. Setup Canvas & Stream *)
  let width := forceEven (env_videoWidth env) in
  let height := forceEven (env_videoHeight env) in
  if (width <=? 0)%Z || (height <=? 0)%Z then throw InvalidDimensions
  else if negb (env_context2d env) then throw NoCanvasContext
  else
    (* Draw one frame initially to ensure stream has data *)
    onCanvas (EvDrawInitial width height)
      (drawImage {| frame_src := src; frame_time := env_position env |}
         0%Q 0%Q (inject_Z width) (inject_Z height)) >>
    ret (width, height).

(** From [canvas.captureStream(30)] to [recorder.start(100)]. *)
Definition startRecorder (env : Env) (width height : Z) : Job Setup :=
  emit (EvCaptureStream 30) >>
  (* 2. Setup Audio *)
  (if env_elementSource env
   then modify (setConnected true) >> emit EvConnectAudio
   else throw PlatformError) >>
  when (env_audioTrack env) (emit EvAddAudioTrack) >>
  (* 3. Recorder *)
  let mimeType := getSupportedMimeType (env_isTypeSupported env) in
  (if env_recorder env then emit (EvRecorderCreate mimeType)
   else throw PlatformError) >>
  modify (setChunks []) >>
  emit (EvRecorderStart 100) >>
  ret {| width := width; height := height; mimeType := mimeType |}.

(** The body of the inner [try] for queue entry [i].  A resource that has
    just been loaded is at position 0. *)
Definition mergeEntry (fuel : nat) (env : Env) (s : Setup) (i : nat)
    (mergeId : string) (mergeVideoData : GeneratedVideo) : Job unit :=
  let* mergeBlobUrl := fetchVideoAsBlobUrl (env_fetch env i) (url mergeVideoData) in
  modify (λ w, setTempMergeBlobs (tempMergeBlobs w ++ [mergeBlobUrl]) w) >>
  let* duration := loadMergeVideo (env_load env i) mergeId mergeBlobUrl in
  playSegment fuel (env_playback env (S i)) mergeBlobUrl
    0%Q 0%Q duration EmptyString (width s) (height s).

(** One iteration of [for (let i = 0; i < mergeQueue.length; i++)]. *)
Definition mergeStep (fuel : nat) (env : Env) (all : list GeneratedVideo)
    (s : Setup) (entry : nat * string) : Job unit :=
  let '(i, mergeId) := entry in
  match findVideo all mergeId with
  | Some mergeVideoData =>
      try_catch (mergeEntry fuel env s i mergeId mergeVideoData)
        (λ err,
           (* Mark this index as failed *)
           modify (setFailedQueueIndices (λ prev, prev ∪ {[ i ]})) >>
           emit (EvMarkFailed i) >>
           (* Re-throw to stop processing loop *)
           throw (QueueItemFailed i))
  | None => ret tt
  end.

Fixpoint mergeLoop (fuel : nat) (env : Env) (all : list GeneratedVideo)
    (s : Setup) (entries : list (nat * string)) : Job unit :=
  match entries with
  | [] => ret tt
  | entry :: rest =>
      mergeStep fuel env all s entry >> mergeLoop fuel env all s rest
  end.

(** The queue with its indices, [(0, q[0]); (1, q[1]); ...]. *)
Definition indexed (q : list string) : list (nat * string) :=
  imap (λ i mergeId, (i, mergeId)) q.

(** The [try] block from [canvas.captureStream] on. *)
Definition recordSequence (fuel : nat) (env : Env) (ed : Editor) (src : nat)
    (size : Z * Z) : Job unit :=
  let* s := startRecorder env size.1 size.2 in
  (* Part 1: Main Video (Trimmed) *)
  emit (EvSeek (trimStart ed)) >>
  playSegment fuel (env_playback env 0) src
    (trimStart ed) (trimStart ed) (trimEnd ed) (textOverlay ed)
    (width s) (height s) >>
  (* Part 2: Merged Videos Queue *)
  mergeLoop fuel env (allVideos ed) s (indexed (mergeQueue ed)) >>
  (* Wait a moment for the recorder to catch the last frames *)
  emit (EvDelay 500) >>
  (* 6. Finish *)
  finish env (mimeType s) >>
  modify (setProcessing false) >>
  (* Cleanup *)
  modify (setConnected false) >> emit EvDisconnect >>
  cleanupAudio >>
  (* Clean up temporary merge blobs *)
  revokeTempMergeBlobs >>
  (* Restore original video src for UI *)
  emit (EvRestore src).

(** The [try] block. *)
Definition tryBlock (fuel : nat) (env : Env) (ed : Editor) (src : nat)
  : Job unit :=
  let* size := prepareCanvas env src in
  recordSequence fuel env ed src size.

(** The [catch] block. *)
Definition catchBlock (src : nat) (e : Error) : Job unit :=
  modify (setProcessing false) >>
  modify (setErrorMessage (Some (MessageOf e))) >>
  cleanupAudio >>
  revokeTempMergeBlobs >>
  (* Restore video on error *)
  emit (EvRestore src).

(** The state updates before the [try]: the flags are reset, the element
    is paused; the audio context and the list of temporary URLs are new,
    and there is no source node yet. *)
Definition started (env : Env) (w : World) : World :=
  setTempMergeBlobs []
    (setConnected false
       (setAudio (if env_audioSuspended env then Suspended else Running)
          (setTrace (trace w ++ [EvPause])
             (setFailedQueueIndices (λ _, ∅)
                (setErrorMessage None (setProcessing true w)))))).

Definition processVideo (fuel : nat) (env : Env) (ed : Editor) : Job unit :=
  match localVideoSrc ed with
  | None => modify (setErrorMessage (Some SourceNotReady))
  | Some src =>
      if negb (env_refs env) then ret tt
      else
        modify (started env) >>
        try_catch (tryBlock fuel env ed src) (catchBlock src)
  end.


(** ** Specification vocabulary *)

(** [steps R m]: whatever [m] does and however it ends, the world it
    leaves is [R]-related to the world it started in. *)
Definition steps (R : relation World) {A} (m : Job A) : Prop :=
  ∀ w, R w (m w).1.

(** The trace grew by events that all satisfy [P]. *)
Definition emitsR (P : Event → Prop) : relation World :=
  λ w w', ∃ evs, trace w' = trace w ++ evs ∧ Forall P evs.

(** What the user sees of a job, and what [onSave] received, is unchanged. *)
Definition sameUi : relation World :=
  λ w w', processing w' = processing w
          ∧ errorMessage w' = errorMessage w
          ∧ failedQueueIndices w' = failedQueueIndices w
          ∧ saved w' = saved w.

(** Every live object URL was live before, or is listed in
    [tempMergeBlobs], or was handed to [onSave]; both lists only grow. *)
Definition urlsTracked : relation World :=
  λ w w', (∀ u, is_Some (urls w' !! u) →
                is_Some (urls w !! u) ∨ u ∈ tempMergeBlobs w' ∨ u ∈ saved w')
          ∧ tempMergeBlobs w ⊆ tempMergeBlobs w'
          ∧ saved w ⊆ saved w'.

(** The events that start the encoding of the canvas. *)
Definition startsEncoding (ev : Event) : bool :=
  match ev with
  | EvCaptureStream _ | EvRecorderStart _ => true
  | _ => false
  end.

Definition quiet (ev : Event) : Prop := startsEncoding ev = false.

(** Whenever encoding starts, the initial frame was drawn before. *)
Definition drawnFirst (evs : list Event) : Prop :=
  ∀ pre ev post,
    evs = pre ++ ev :: post → startsEncoding ev = true →
    ∃ w h, EvDrawInitial w h ∈ pre.

(** The events of the [catch] block and of the cleanup. *)
Definition releases (ev : Event) : Prop :=
  match ev with
  | EvAudioClose | EvRevoke _ | EvRestore _ => True
  | _ => False
  end.

(** The environment lets the canvas, the audio graph and the recorder be
    set up. *)
Definition setupOk (env : Env) : bool :=
  negb ((forceEven (env_videoWidth env) <=? 0)%Z
        || (forceEven (env_videoHeight env) <=? 0)%Z)
  && env_context2d env && env_elementSource env && env_recorder env.

(** [play()] resolves and one of the first [fuel] frame callbacks reads a
    position at or after [end_]. *)
Definition segmentResolves (fuel : nat) (pb : Playback) (end_ : Q) : bool :=
  pb_play pb
  && existsb (λ k, Qle_bool end_ (currentTime (pb_frames pb k))) (seq 0 fuel).

(** Queue entry [i] is missing from the history, or it is fetched, loaded
    and played to its end. *)
Definition entryOk (fuel : nat) (env : Env) (all : list GeneratedVideo)
    (entry : nat * string) : bool :=
  match findVideo all entry.2 with
  | None => true
  | Some _ =>
      match env_fetch env entry.1, env_load env entry.1 with
      | FetchOk _, LoadedData d =>
          segmentResolves fuel (env_playback env (S entry.1)) d
      | _, _ => false
      end
  end.

(** The clip of queue entry [i] cannot be loaded: the fetch fails, or the
    element reports an error, or the 15 s timer fires first. *)
Definition loadFails (env : Env) (i : nat) : bool :=
  match env_fetch env i, env_load env i with
  | FetchOk _, LoadedData _ => false
  | _, _ => true
  end.

(** The chunks [ondataavailable] keeps of a run of [dataavailable] events. *)
Definition accumulated (data : list (option Blob)) : list Blob :=
  omap (λ d, match d with
             | Some b => if (0 <? blob_size b)%N then Some b else None
             | None => None
             end) data.

(** [m] never waits forever: it returns or throws. *)
Definition settles {A} (m : Job A) : Prop := ∀ w, (m w).2 ≠ Pending.

(** A segment that cannot stay pending within [fuel] callbacks: [play()]
    rejects, or the position reaches [end_]. *)
Definition playable (fuel : nat) (pb : Playback) (end_ : Q) : Prop :=
  pb_play pb = false ∨ segmentResolves fuel pb end_ = true.

(** Every segment of the run is playable. *)
Definition playbackEnds (fuel : nat) (env : Env) (ed : Editor) : Prop :=
  playable fuel (env_playback env 0) (trimEnd ed)
  ∧ ∀ i d, env_load env i = LoadedData d →
           playable fuel (env_playback env (S i)) d.

(** The entries whose id is in the history. *)
Definition resolvable (all : list GeneratedVideo) (entry : nat * string)
  : bool :=
  match findVideo all entry.2 with Some _ => true | None => false end.

(** ** Sample inputs *)

(** A platform that records WebM without naming a codec, and MP4. *)
Definition webmAndMp4 (type : string) : bool :=
  String.eqb type "video/webm" || String.eqb type "video/mp4".

Definition clip (i a : string) : GeneratedVideo :=
  {| id := i; url := String.append "https://example.test/" i;
     prompt := String.append "clip " i;
     model := "veo"; aspectRatio := a |}.

(** Main clip "1" of 10 s, trimmed to [2, 6), captioned. *)
Definition sampleEditor : Editor :=
  {| video := clip "1" "16:9";
     allVideos := [ clip "1" "16:9"; clip "2" "9:16"; clip "3" "16:9" ];
     localVideoSrc := Some 0%nat;
     duration := 10; trimStart := 2; trimEnd := 6;
     textOverlay := "HELLO"; mergeQueue := [] |}.

(** The editor as mounted, and after the metadata of a 10 s clip arrived. *)
Definition mountedEditor : Editor :=
  {| video := clip "1" "16:9";
     allVideos := [ clip "1" "16:9"; clip "2" "9:16"; clip "3" "16:9" ];
     localVideoSrc := Some 0%nat;
     duration := 0; trimStart := 0; trimEnd := 0;
     textOverlay := EmptyString; mergeQueue := [] |}.

Definition loadedEditor : Editor := handleLoadedMetadata 10 mountedEditor.

Definition blankCanvas : CanvasRenderingContext2D :=
  {| ctx_font := FontDefault; ctx_textAlign := "start";
     ctx_textBaseline := "alphabetic"; ctx_lineWidth := 1;
     ctx_strokeStyle := "#000000"; ctx_lineJoin := "miter";
     ctx_lineCap := "butt"; ctx_shadowColor := "rgba(0, 0, 0, 0)";
     ctx_shadowBlur := 0; ctx_shadowOffsetX := 0; ctx_shadowOffsetY := 0;
     ctx_fillStyle := "#000000"; ctx_ops := [] |}.

(** An editor at rest whose main clip is held by object URL 0. *)
Definition idleWorld : World :=
  {| processing := false; errorMessage := None; failedQueueIndices := ∅;
     audio := NotCreated; connected := false;
     urls := {[ 0%nat := {| blob_size := 500000; blob_type := "video/mp4" |} ]};
     nextUrl := 1; tempMergeBlobs := []; chunks := []; saved := [];
     canvas := blankCanvas; trace := [] |}.

(** A clip that plays one second per observed frame and stops at 3 s:
    from then on the element is paused, and ended if [atEnd]. *)
Definition stopsAtThree (atEnd : bool) : Playback :=
  {| pb_seeked := true; pb_play := true;
     pb_frames := λ k,
       if (k <? 3)%nat
       then {| currentTime := inject_Z (Z.of_nat k);
               paused := false; ended := false |}
       else {| currentTime := 3; paused := true; ended := atEnd |} |}.

(** A clip that plays one second per observed frame, starting at [from]. *)
Definition playsThrough (from : Q) : Playback :=
  {| pb_seeked := true; pb_play := true;
     pb_frames := λ k,
       {| currentTime := from + inject_Z (Z.of_nat k);
          paused := false; ended := false |} |}.

Definition bytes (n : N) : Blob := {| blob_size := n; blob_type := "video/webm" |}.

(** A run in which everything works except the fetch for queue entry 2. *)
Definition sampleEnv : Env :=
  {| env_refs := true;
     env_audioSuspended := true;
     env_position := 0;
     env_videoWidth := 1281;
     env_videoHeight := 720;
     env_context2d := true;
     env_elementSource := true;
     env_audioTrack := true;
     env_isTypeSupported := webmAndMp4;
     env_recorder := true;
     env_playback := λ seg,
       match seg with O => playsThrough 2 | S _ => playsThrough 0 end;
     env_fetch := λ i,
       if (i =? 2)%nat then FetchNotOk "Not Found"
       else FetchOk {| blob_size := 300000; blob_type := "video/mp4" |};
     env_load := λ _, LoadedData 3;
     env_data := [ Some (bytes 600); None; Some (bytes 0); Some (bytes 700) ] |}.

(** The same run with every fetch answered. *)
Definition goodEnv : Env :=
  {| env_refs := true;
     env_audioSuspended := true;
     env_position := 0;
     env_videoWidth := 1281;
     env_videoHeight := 720;
     env_context2d := true;
     env_elementSource := true;
     env_audioTrack := true;
     env_isTypeSupported := webmAndMp4;
     env_recorder := true;
     env_playback := λ seg,
       match seg with O => playsThrough 2 | S _ => playsThrough 0 end;
     env_fetch := λ _,
       FetchOk {| blob_size := 300000; blob_type := "video/mp4" |};
     env_load := λ _, LoadedData 3;
     env_data := [ Some (bytes 600); None; Some (bytes 0); Some (bytes 700) ] |}.

(** The sample editor with a queue: clip "3", an id that is not in the
    history, clip "3" again. *)
Definition queueEditor : Editor :=
  setMergeQueue [ "3"; "9"; "3" ] sampleEditor.

(** The states the trim controls lead to from [ed0]; a slider reports a
    value of its range. *)
Inductive reachable (ed0 : Editor) : Editor → Prop :=
| reach_start : reachable ed0 ed0
| reach_change (ed : Editor) (c : TrimControl) :
    reachable ed0 ed → sliderValue ed c → reachable ed0 (onChange c ed).

(** The selector and the remove buttons of the merge queue. *)
Inductive QueueAction :=
| Select (selectedId : string)
| Remove (index : nat).

Definition queueAction (a : QueueAction) (ed : Editor) : Editor :=
  match a with
  | Select selectedId => handleAddToQueue selectedId ed
  | Remove index => handleRemoveFromQueue index ed
  end.

Definition offered (ed : Editor) (a : QueueAction) : Prop :=
  match a with
  | Select selectedId => selectedId ∈ selectorValues ed
  | Remove _ => True
  end.

(** ** Further handlers of the editor *)

(** [arr.filter((_, index) => keep(index))], counting from [index]. *)
Fixpoint filterIndex {A} (keep : nat → bool) (index : nat) (arr : list A)
  : list A :=
  match arr with
  | [] => []
  | x :: rest =>
      if keep index then x :: filterIndex keep (S index) rest
      else filterIndex keep (S index) rest
  end.

(** The state of a newly mounted editor: the [useState] defaults. *)
Definition mountEditor (v : GeneratedVideo) (all : list GeneratedVideo)
  : Editor :=
  {| video := v; allVideos := all; localVideoSrc := None;
     duration := 0; trimStart := 0; trimEnd := 0;
     textOverlay := EmptyString; mergeQueue := [] |}.

(** What the close button does. *)
Inductive CloseAction :=
| ShowExitConfirmation           (* setShowExitConfirmation(true) *)
| OnClose.                       (* onClose() *)

(** [handleClose]; [trim] is [String.prototype.trim]. *)
Definition handleClose (trim : string → string) (ed : Editor) : CloseAction :=
  (* Check for unsaved changes *)
  let isTrimChanged :=
    negb (Qle_bool (duration ed) 0)
    && (negb (Qle_bool (trimStart ed) tenth)
        || negb (Qle_bool (Qabs (trimEnd ed - duration ed)) tenth)) in
  let isTextChanged := (0 <? String.length (trim (textOverlay ed)))%nat in
  let isMergeChanged := (0 <? length (mergeQueue ed))%nat in
  if isTrimChanged || isTextChanged || isMergeChanged
  then ShowExitConfirmation
  else OnClose.

(** ** Loading the main clip: the mount effect *)

Definition setLocalVideoSrc (u : option nat) (ed : Editor) : Editor :=
  {| video := video ed; allVideos := allVideos ed;
     localVideoSrc := u; duration := duration ed;
     trimStart := trimStart ed; trimEnd := trimEnd ed;
     textOverlay := textOverlay ed; mergeQueue := mergeQueue ed |}.

(** One run of [useEffect(() => { ... }, [video])]: its [mounted]
    variable, and the [localVideoSrc] of the render in which the effect
    ran, which is the value its cleanup function reads. *)
Record SourceEffect := {
  mounted : bool;
  seenLocalVideoSrc : option nat
}.

(** The effect runs after a render with state [ed]. *)
Definition startEffect (ed : Editor) : SourceEffect :=
  {| mounted := true; seenLocalVideoSrc := localVideoSrc ed |}.

(** The [try] block of [loadSource]; [eff] is the effect at the moment
    the fetch settles.  Yields the editor state; the [isLoadingSource]
    flag is left out. *)
Definition loadSourceTry (outcome : FetchOutcome) (eff : SourceEffect)
    (ed : Editor) : Job Editor :=
  (* Fetch as blob to ensure it's treated as same-origin *)
  let* blobUrl := fetchVideoAsBlobUrl outcome (url (video ed)) in
  if mounted eff then ret (setLocalVideoSrc (Some blobUrl) ed)
  else ret ed.

(** The function the effect returns. *)
Definition effectCleanup (eff : SourceEffect) : Job SourceEffect :=
  (* Cleanup blob url when component unmounts or video changes *)
  match seenLocalVideoSrc eff with
  | Some u => revokeObjectURL u
  | None => ret tt
  end >>
  ret {| mounted := false; seenLocalVideoSrc := seenLocalVideoSrc eff |}.

(** ** Preview player *)

(** The hidden video element and the preview canvas, with the component
    state the preview handlers read and write.  Assigning [canvas.width]
    or [canvas.height] clears the canvas and resets its context. *)
Record Preview := {
  isPlaying : bool;
  shownTime : Q;                     (* the currentTime state *)
  el_src : nat;                      (* videoRef.current: its resource, *)
  el_currentTime : Q;                (*   position, *)
  el_paused : bool;                  (*   paused flag *)
  videoWidth : Z;                    (*   and intrinsic size *)
  videoHeight : Z;
  canvasWidth : Z;                   (* previewCanvasRef.current *)
  canvasHeight : Z;
  previewCtx : CanvasRenderingContext2D
}.

Definition setIsPlaying (b : bool) (p : Preview) : Preview :=
  {| isPlaying := b; shownTime := shownTime p; el_src := el_src p;
     el_currentTime := el_currentTime p; el_paused := el_paused p;
     videoWidth := videoWidth p; videoHeight := videoHeight p;
     canvasWidth := canvasWidth p; canvasHeight := canvasHeight p;
     previewCtx := previewCtx p |}.

Definition setCurrentTime (t : Q) (p : Preview) : Preview :=
  {| isPlaying := isPlaying p; shownTime := t; el_src := el_src p;
     el_currentTime := el_currentTime p; el_paused := el_paused p;
     videoWidth := videoWidth p; videoHeight := videoHeight p;
     canvasWidth := canvasWidth p; canvasHeight := canvasHeight p;
     previewCtx := previewCtx p |}.

(** [videoRef.current.currentTime = t] *)
Definition seekTo (t : Q) (p : Preview) : Preview :=
  {| isPlaying := isPlaying p; shownTime := shownTime p; el_src := el_src p;
     el_currentTime := t; el_paused := el_paused p;
     videoWidth := videoWidth p; videoHeight := videoHeight p;
     canvasWidth := canvasWidth p; canvasHeight := canvasHeight p;
     previewCtx := previewCtx p |}.

(** [videoRef.current.pause()] and [videoRef.current.play()] *)
Definition setPaused (b : bool) (p : Preview) : Preview :=
  {| isPlaying := isPlaying p; shownTime := shownTime p; el_src := el_src p;
     el_currentTime := el_currentTime p; el_paused := b;
     videoWidth := videoWidth p; videoHeight := videoHeight p;
     canvasWidth := canvasWidth p; canvasHeight := canvasHeight p;
     previewCtx := previewCtx p |}.

(** [canvas.width = w; canvas.height = h] *)
Definition setCanvasSize (w h : Z) (p : Preview) : Preview :=
  {| isPlaying := isPlaying p; shownTime := shownTime p; el_src := el_src p;
     el_currentTime := el_currentTime p; el_paused := el_paused p;
     videoWidth := videoWidth p; videoHeight := videoHeight p;
     canvasWidth := w; canvasHeight := h;
     previewCtx := blankCanvas |}.

Definition setPreviewCtx (c : CanvasRenderingContext2D) (p : Preview)
  : Preview :=
  {| isPlaying := isPlaying p; shownTime := shownTime p; el_src := el_src p;
     el_currentTime := el_currentTime p; el_paused := el_paused p;
     videoWidth := videoWidth p; videoHeight := videoHeight p;
     canvasWidth := canvasWidth p; canvasHeight := canvasHeight p;
     previewCtx := c |}.

(** [drawPreview], with both refs and the 2D context present. *)
Definition drawPreview (ed : Editor) (p : Preview) : Preview :=
  (* Match canvas size to video resolution for accurate preview *)
  let p :=
    if negb (canvasWidth p =? videoWidth p)%Z
       || negb (canvasHeight p =? videoHeight p)%Z
    then
      if (0 <? videoWidth p)%Z && (0 <? videoHeight p)%Z
      then setCanvasSize (videoWidth p) (videoHeight p) p
      else p
    else p in
  if (canvasWidth p =? 0)%Z || (canvasHeight p =? 0)%Z then p
  else
    setPreviewCtx
      (renderFrame (previewCtx p)
         {| frame_src := el_src p; frame_time := el_currentTime p |}
         (textOverlay ed)
         (inject_Z (canvasWidth p)) (inject_Z (canvasHeight p))) p.

Definition togglePlay (ed : Editor) (p : Preview) : Preview :=
  let p' :=
    if isPlaying p then setPaused true p
    else
      (* If at the end of trim, restart from trim start *)
      let p := if Qle_bool (trimEnd ed) (el_currentTime p)
               then seekTo (trimStart ed) p else p in
      setPaused false p in
  setIsPlaying (negb (isPlaying p)) p'.

Definition handleTimeUpdate (ed : Editor) (p : Preview) : Preview :=
  let p' := drawPreview ed (setCurrentTime (el_currentTime p) p) in
  (* Auto pause at trim end if playing *)
  if isPlaying p && Qle_bool (trimEnd ed) (el_currentTime p)
  then seekTo (trimStart ed) (setIsPlaying false (setPaused true p'))
  else p'.

(** ** The application around the editor *)

Inductive Tab := TabCreate | TabBulk | TabExtend | TabEditor.

Record App := {
  videos : list GeneratedVideo;                (* newest first *)
  activeTab : Tab;
  selectedVideoToEdit : option GeneratedVideo;
  outputDirHandle : bool                       (* a folder was chosen *)
}.

(** [n.toString()] of a non-negative integer. *)
Definition toString (n : N) : string :=
  pretty n.

Definition onEditRequest (v : GeneratedVideo) (app : App) : App :=
  {| videos := videos app; activeTab := TabEditor;
     selectedVideoToEdit := Some v;
     outputDirHandle := outputDirHandle app |}.

(** [handleEditorSave(url)] with [timestamp = Date.now()]; the second
    component is the file name handed to [saveToDisk], if any.  The
    [createdAt] date of the new video is not part of [GeneratedVideo]
    here. *)
Definition handleEditorSave (url : string) (timestamp : N) (app : App)
  : App * option string :=
  let newVideo :=
    {| id := toString timestamp;
       url := url;
       prompt :=
         String.append "Edited: "
           match selectedVideoToEdit app with
           | Some v => prompt v
           | None => "undefined"
           end;
       model := "Edited Video";
       aspectRatio :=
         match selectedVideoToEdit app with
         | Some v => if truthy (aspectRatio v) then aspectRatio v else "16:9"
         | None => "16:9"
         end |} in
  ({| videos := newVideo :: videos app; activeTab := TabCreate;
      selectedVideoToEdit := None;
      outputDirHandle := outputDirHandle app |},
   if outputDirHandle app
   then Some (String.append "veo-edited-"
                (String.append (toString timestamp) ".webm"))
   else None).

(** ** More vocabulary for runs *)

(** The events of one played segment with caption [text]. *)
Definition segmentEvent (text : string) (ev : Event) : Prop :=
  match ev with
  | EvSeek _ | EvPlay | EvPause => True
  | EvRenderFrame t => t = text
  | _ => False
  end.

(** The events of the loop over the merge queue. *)
Definition queueEvent (ev : Event) : Prop :=
  match ev with
  | EvFetch _ | EvSetSrc _ | EvMarkFailed _ => True
  | _ => segmentEvent EmptyString ev
  end.

(** The URLs fetched, in order. *)
Definition fetched (evs : list Event) : list string :=
  omap (λ ev, match ev with EvFetch u => Some u | _ => None end) evs.

(** The canvas gained paint operations only: each draw scales a frame of
    resource [src], at a position before [end_], to the whole canvas, and
    each text operation writes the non-empty caption [text]. *)
Definition segmentOp (src : nat) (end_ : Q) (text : string) (wd ht : Z)
    (op : DrawOp) : Prop :=
  match op with
  | DrawImage f dx dy dw dh =>
      frame_src f = src ∧ (frame_time f < end_)%Q
      ∧ dx = 0%Q ∧ dy = 0%Q ∧ dw = inject_Z wd ∧ dh = inject_Z ht
  | StrokeText t _ _ _ _ _ _ _ | FillText t _ _ _ _ _ _ =>
      t = text ∧ truthy text = true
  end.

Definition paintsSegment (src : nat) (end_ : Q) (text : string) (wd ht : Z)
  : relation World :=
  λ w w', ∃ ops, ctx_ops (canvas w') = ctx_ops (canvas w) ++ ops
                 ∧ Forall (segmentOp src end_ text wd ht) ops.

(** The operations one call of [renderFrame] adds. *)
Definition painted (source : Frame) (text : string) (w h : Q) : list DrawOp :=
  ctx_ops (renderFrame blankCanvas source text w h).

(** Events that come before the recorder is stopped and the result
    handed over. *)
Definition beforeStop (ev : Event) : Prop :=
  match ev with
  | EvRecorderStop | EvDisconnect | EvSave _ => False
  | _ => True
  end.

(** Nothing the user sees changed and the recorder was not stopped. *)
Definition early : relation World :=
  λ w w', sameUi w w' ∧ emitsR beforeStop w w'.

(** How the [try] block of an export over the queue [q] can end. *)
Definition tryOutcome (all : list GeneratedVideo) (q : list string)
    (w wt : World) (rt : Res unit) : Prop :=
  errorMessage wt = errorMessage w
  ∧ match rt with
    | Ok _ =>
        processing wt = false
        ∧ failedQueueIndices wt = failedQueueIndices w
        ∧ ∃ u, saved wt = saved w ++ [u]
    | Throw e =>
        processing wt = processing w
        ∧ saved wt = saved w
        ∧ (failedQueueIndices wt = failedQueueIndices w
           ∨ ∃ i mergeId v,
               q !! i = Some mergeId ∧ findVideo all mergeId = Some v
               ∧ e = QueueItemFailed i
               ∧ failedQueueIndices wt = failedQueueIndices w ∪ {[ i ]})
        ∧ (e = NoDataRecorded ∨ e = OutputTooSmall
           ∨ emitsR beforeStop w wt)
    | Pending =>
        processing wt = processing w
        ∧ saved wt = saved w
        ∧ failedQueueIndices wt = failedQueueIndices w
        ∧ emitsR beforeStop w wt
    end.

(** Every object URL the job holds was minted at [n] or later. *)
Definition mintedFrom (n : nat) (w : World) : Prop :=
  (n ≤ nextUrl w)%nat ∧ Forall (λ u, (n ≤ u)%nat) (tempMergeBlobs w).

(** The object URLs minted before [n] are what they were. *)
Definition keepsOld (n : nat) : relation World :=
  λ w w', mintedFrom n w →
          mintedFrom n w' ∧ ∀ u, (u < n)%nat → urls w' !! u = urls w !! u.

(** The bytes the [dataavailable] events of a run carried. *)
Definition delivered (data : list (option Blob)) : N :=
  foldr N.add 0%N
    (map (λ d, match d with Some b => blob_size b | None => 0%N end) data).

(** The trim bounds that every control respects. *)
Definition trimBounds (ed : Editor) : Prop :=
  (0 <= trimStart ed)%Q ∧ (trimStart ed <= duration ed)%Q
  ∧ (trimEnd ed <= duration ed)%Q.

(** A preview on which nothing was drawn yet, showing resource [src] of
    size [w] x [h] at position [t]. *)
Definition samplePreview (src : nat) (t : Q) (w h : Z) : Preview :=
  {| isPlaying := false; shownTime := 0; el_src := src;
     el_currentTime := t; el_paused := true;
     videoWidth := w; videoHeight := h;
     canvasWidth := 300; canvasHeight := 150;
     previewCtx := blankCanvas |}.

(** A clip whose [play()] is rejected. *)
Definition refusesToPlay : Playback :=
  {| pb_seeked := true; pb_play := false;
     pb_frames := λ _, {| currentTime := 0; paused := true; ended := false |} |}.

(** The run of [goodEnv], except that the main clip cannot be played. *)
Definition rejectingEnv : Env :=
  {| env_refs := true;
     env_audioSuspended := true;
     env_position := 0;
     env_videoWidth := 1281;
     env_videoHeight := 720;
     env_context2d := true;
     env_elementSource := true;
     env_audioTrack := true;
     env_isTypeSupported := webmAndMp4;
     env_recorder := true;
     env_playback := λ seg,
       match seg with O => refusesToPlay | S _ => playsThrough 0 end;
     env_fetch := λ _,
       FetchOk {| blob_size := 300000; blob_type := "video/mp4" |};
     env_load := λ _, LoadedData 3;
     env_data := [ Some (bytes 600); None; Some (bytes 0); Some (bytes 700) ] |}.

Definition sampleApp : App :=
  {| videos := [ clip "1" "16:9"; clip "2" "9:16"; clip "3" "16:9" ];
     activeTab := TabCreate;
     selectedVideoToEdit := None;
     outputDirHandle := false |}.

(** * Properties *)

(** ** Encoder format selection *)

Section MimeType.
Variable isTypeSupported : string → bool.

Lemma firstSupported_none (ts : list string) :
  (∀ t, t ∈ ts → isTypeSupported t = false) →
  firstSupported isTypeSupported ts = EmptyString.
Proof.
  induction ts as [|t ts IH]; intros Hall; simpl; [done|].
  rewrite Hall; [|by left]. apply IH. intros u Hu. apply Hall. by right.
Qed.

Lemma firstSupported_first (pre : list string) (type : string)
    (post : list string) :
  (∀ t, t ∈ pre → isTypeSupported t = false) →
  isTypeSupported type = true →
  firstSupported isTypeSupported (pre ++ type :: post) = type.
Proof.
  induction pre as [|t pre IH]; intros Hpre Hty; simpl.
  - by rewrite Hty.
  - rewrite Hpre; [|by left]. apply IH; [|done].
    intros u Hu. apply Hpre. by right.
Qed.

Lemma firstSupported_ext (other : string → bool) (ts : list string) :
  (∀ t, t ∈ ts → other t = isTypeSupported t) →
  firstSupported other ts = firstSupported isTypeSupported ts.
Proof.
  induction ts as [|t ts IH]; intros Hagree; simpl; [done|].
  rewrite Hagree; [|by left].
  destruct (isTypeSupported t); [done|].
  apply IH. intros u Hu. apply Hagree. by right.
Qed.

(** The result is always an entry of the list or the empty string. *)
Lemma firstSupported_range (ts : list string) :
  firstSupported isTypeSupported ts = EmptyString
  ∨ (firstSupported isTypeSupported ts ∈ ts
     ∧ isTypeSupported (firstSupported isTypeSupported ts) = true).
Proof.
  induction ts as [|t ts IH]; simpl; [by left|].
  destruct (isTypeSupported t) eqn:Ht.
  - right. split; [by left|done].
  - destruct IH as [IH|[IH1 IH2]]; [by left|right]. split; [by right|done].
Qed.
End MimeType.

(** C8. [getSupportedMimeType] depends on the platform only through the
    capability predicate: it returns the first entry of the preference
    list vp9, vp8, webm, mp4 that the platform supports, the empty string
    when it supports none, and two capability predicates that agree on the
    list give the same type. *)
Theorem getSupportedMimeType_deterministic_first (isTypeSupported : string → bool) :
  types = [ "video/webm;codecs=vp9"; "video/webm;codecs=vp8";
            "video/webm"; "video/mp4" ]
  ∧ (∀ pre type post,
       types = pre ++ type :: post →
       (∀ t, t ∈ pre → isTypeSupported t = false) →
       isTypeSupported type = true →
       getSupportedMimeType isTypeSupported = type)
  ∧ ((∀ t, t ∈ types → isTypeSupported t = false) →
     getSupportedMimeType isTypeSupported = EmptyString)
  ∧ (∀ other : string → bool,
       (∀ t, t ∈ types → other t = isTypeSupported t) →
       getSupportedMimeType other = getSupportedMimeType isTypeSupported).
Proof.
  split; [reflexivity|]. split; [|split].
  - intros pre type post Heq Hpre Hty. unfold getSupportedMimeType.
    rewrite Heq. by apply firstSupported_first.
  - apply firstSupported_none.
  - intros other. apply firstSupported_ext.
Qed.

Lemma getSupportedMimeType_deterministic_first_witness :
  getSupportedMimeType webmAndMp4 = "video/webm".
Proof.
  apply (proj1 (proj2 (getSupportedMimeType_deterministic_first webmAndMp4))
           [ "video/webm;codecs=vp9"; "video/webm;codecs=vp8" ]
           "video/webm" [ "video/mp4" ]).
  - reflexivity.
  - intros t Ht. apply list_elem_of_In in Ht. simpl in Ht.
    destruct Ht as [<-|[<-|[]]]; reflexivity.
  - reflexivity.
Defined.

(** ** Frame compositor *)

Lemma renderFrame_ops ctx source text w h :
  ctx_ops (renderFrame ctx source text w h) =
  ctx_ops ctx ++ DrawImage source 0 0 w h ::
    (if truthy text then
       [ StrokeText text (w / 2) (h - h * (1 # 10))
           (FontSystemUi 900 (h * (8 # 100))) (h * (8 # 100) * (12 # 100))
           "rgba(0, 0, 0, 0.8)" "rgba(0,0,0,0.5)" (h * (8 # 100) * (2 # 10));
         FillText text (w / 2) (h - h * (1 # 10))
           (FontSystemUi 900 (h * (8 # 100))) "white" "transparent" 0 ]
     else [])%Q.
Proof.
  unfold renderFrame. destruct (truthy text); simpl.
  - by rewrite <- !app_assoc.
  - done.
Qed.

(** C9. Compositing with the empty overlay text is exactly the scaled draw
    of the source frame: the context after [renderFrame] is the context
    after [drawImage] alone, so the only paint operation added is that
    draw, no stroke or fill of text is issued, and no style is touched. *)
Theorem renderFrame_empty_text_is_drawImage
    (ctx : CanvasRenderingContext2D) (source : Frame) (width height : Q) :
  renderFrame ctx source EmptyString width height
    = drawImage source 0 0 width height ctx
  ∧ ctx_ops (renderFrame ctx source EmptyString width height)
    = ctx_ops ctx ++ [DrawImage source 0 0 width height]
  ∧ List.filter isTextOp (ctx_ops (renderFrame ctx source EmptyString width height))
    = List.filter isTextOp (ctx_ops ctx)
  ∧ ctx_shadowColor (renderFrame ctx source EmptyString width height)
    = ctx_shadowColor ctx
  ∧ ctx_fillStyle (renderFrame ctx source EmptyString width height)
    = ctx_fillStyle ctx
  ∧ ctx_strokeStyle (renderFrame ctx source EmptyString width height)
    = ctx_strokeStyle ctx
  ∧ ctx_font (renderFrame ctx source EmptyString width height)
    = ctx_font ctx.
Proof.
  repeat split; try reflexivity.
  rewrite renderFrame_ops. simpl.
  rewrite List.filter_app. simpl. by rewrite app_nil_r.
Qed.

(** A caption does add text operations. *)
Lemma renderFrame_caption_ops ctx source text w h :
  truthy text = true →
  List.filter isTextOp (ctx_ops (renderFrame ctx source text w h)) ≠
  List.filter isTextOp (ctx_ops ctx).
Proof.
  intros Ht. rewrite renderFrame_ops, Ht, List.filter_app. simpl.
  intros Heq. apply (f_equal length) in Heq.
  rewrite length_app in Heq. simpl in Heq. lia.
Qed.

(** ** Merge-queue selector *)

Lemma compatible_spec (main v : GeneratedVideo) :
  compatible main v = true
  ↔ id v ≠ id main ∧ aspectRatio v = aspectRatio main.
Proof.
  unfold compatible. rewrite andb_true_iff, negb_true_iff.
  by rewrite String.eqb_neq, String.eqb_eq.
Qed.

Lemma compatibleVideos_elem (ed : Editor) (v : GeneratedVideo) :
  v ∈ compatibleVideos ed
  ↔ v ∈ allVideos ed ∧ id v ≠ id (video ed)
    ∧ aspectRatio v = aspectRatio (video ed).
Proof.
  unfold compatibleVideos.
  rewrite !list_elem_of_In, List.filter_In, compatible_spec. tauto.
Qed.

(** C10. The candidates offered for merging are exactly the history
    videos with another id than the main video and the same aspect ratio;
    hence an id that [handleAddToQueue] appends after a choice in the
    selector is the id of such a video, and is not the main video's id. *)
Theorem compatibleVideos_exactly_other_id_same_ratio (ed : Editor) :
  (∀ v, v ∈ compatibleVideos ed
        ↔ v ∈ allVideos ed ∧ id v ≠ id (video ed)
          ∧ aspectRatio v = aspectRatio (video ed))
  ∧ (∀ selectedId mergeId,
       selectedId ∈ selectorValues ed →
       mergeId ∈ mergeQueue (handleAddToQueue selectedId ed) →
       mergeId ∈ mergeQueue ed
       ∨ (mergeId = selectedId
          ∧ mergeId ≠ id (video ed)
          ∧ ∃ v, v ∈ allVideos ed ∧ id v = mergeId
                 ∧ aspectRatio v = aspectRatio (video ed))).
Proof.
  split; [apply compatibleVideos_elem|].
  intros selectedId mergeId Hsel Hin. unfold handleAddToQueue in Hin.
  destruct (truthy selectedId) eqn:Htruthy; [|by left].
  simpl in Hin. apply elem_of_app in Hin as [Hold|Hnew]; [by left|right].
  apply list_elem_of_singleton in Hnew as ->.
  unfold selectorValues in Hsel. apply elem_of_cons in Hsel as [->|Hsel].
  { discriminate Htruthy. }
  apply list_elem_of_fmap in Hsel as (v & -> & Hv).
  apply compatibleVideos_elem in Hv as (Hall & Hid & Hratio).
  split; [done|]. split; [done|]. by exists v.
Qed.

Lemma compatibleVideos_exactly_other_id_same_ratio_witness :
  "3" ∈ mergeQueue sampleEditor
  ∨ ("3" = "3" ∧ "3" ≠ id (video sampleEditor)
     ∧ ∃ v, v ∈ allVideos sampleEditor ∧ id v = "3"
            ∧ aspectRatio v = aspectRatio (video sampleEditor)).
Proof.
  apply (proj2 (compatibleVideos_exactly_other_id_same_ratio sampleEditor)
           "3" "3").
  - vm_compute. right. left.
  - vm_compute. left.
Defined.

(** The selector never offers the main clip or a clip of another ratio. *)
Example sampleEditor_candidates :
  map id (compatibleVideos sampleEditor) = [ "3" ].
Proof. reflexivity. Qed.

Lemma queueAction_props (a : QueueAction) (ed : Editor) :
  video (queueAction a ed) = video ed
  ∧ allVideos (queueAction a ed) = allVideos ed.
Proof.
  destruct a as [s|i]; simpl; [|done].
  unfold handleAddToQueue. by destruct (truthy s).
Qed.

Lemma selectorValues_queueAction (a : QueueAction) (ed : Editor) :
  selectorValues (queueAction a ed) = selectorValues ed.
Proof.
  unfold selectorValues, compatibleVideos.
  destruct (queueAction_props a ed) as [-> ->]. done.
Qed.

(** Every queue built with the selector and the remove buttons holds ids of
    compatible videos only. *)
Lemma queue_stays_compatible (actions : list QueueAction) (ed : Editor) :
  Forall (offered ed) actions →
  (∀ mergeId, mergeId ∈ mergeQueue ed →
              mergeId ∈ map id (compatibleVideos ed)) →
  ∀ mergeId, mergeId ∈ mergeQueue (foldl (flip queueAction) ed actions) →
             mergeId ∈ map id (compatibleVideos ed).
Proof.
  revert ed. induction actions as [|a actions IH]; intros ed Hoff Hq; [done|].
  simpl. intros mergeId Hin.
  apply Forall_cons in Hoff as [Ha Hoff].
  assert (Hsame : map id (compatibleVideos (queueAction a ed))
                  = map id (compatibleVideos ed)).
  { pose proof (selectorValues_queueAction a ed) as Hs.
    unfold selectorValues in Hs. congruence. }
  rewrite <- Hsame. apply IH; [| |done].
  - eapply Forall_impl; [exact Hoff|]. intros [s|i] Hs; [|done].
    simpl in *. by rewrite selectorValues_queueAction.
  - rewrite Hsame. intros m Hm. destruct a as [s|i]; simpl in Hm.
    + unfold handleAddToQueue in Hm.
      destruct (truthy s) eqn:Hts; [|by apply Hq].
      simpl in Hm. apply elem_of_app in Hm as [Hm|Hm]; [by apply Hq|].
      apply list_elem_of_singleton in Hm as ->.
      simpl in Ha. unfold selectorValues in Ha.
      apply elem_of_cons in Ha as [->|Ha]; [discriminate Hts|done].
    + apply Hq. by eapply list_elem_of_delete_inv.
Qed.




(** ** Trim controls *)

Lemma trimInvariantb_true (ed : Editor) :
  trimInvariantb ed = true ↔ trimInvariant ed.
Proof.
  unfold trimInvariantb, trimInvariant.
  rewrite !andb_true_iff, negb_true_iff, !Qle_bool_iff.
  rewrite <- not_true_iff_false, Qle_bool_iff.
  split; intros H; repeat split; try tauto.
  - apply Qnot_le_lt. tauto.
  - apply Qlt_not_le. tauto.
Qed.


(** C5, on the code.  The editor right after the metadata of a 10 s clip
    arrived satisfies the trim invariant.  Dragging the end slider to 0
    sets [trimEnd = Math.max(0, trimStart) = trimStart], a segment of
    length zero; dragging the start slider to 10 sets [trimStart = 10 =
    trimEnd].  Both values lie in the sliders' range [0, duration], and
    both states are reachable through the controls. *)
Theorem trim_sliders_break_invariant :
  trimInvariant loadedEditor
  ∧ reachable loadedEditor (onChange (EndSlider 0) loadedEditor)
  ∧ (trimEnd (onChange (EndSlider 0) loadedEditor)
     == trimStart (onChange (EndSlider 0) loadedEditor))%Q
  ∧ ¬ trimInvariant (onChange (EndSlider 0) loadedEditor)
  ∧ reachable loadedEditor (onChange (StartSlider 10) loadedEditor)
  ∧ (trimStart (onChange (StartSlider 10) loadedEditor)
     == trimEnd (onChange (StartSlider 10) loadedEditor))%Q
  ∧ ¬ trimInvariant (onChange (StartSlider 10) loadedEditor).
Proof.
  split; [by apply trimInvariantb_true|].
  split; [apply reach_change; [constructor|by vm_compute]|].
  split; [reflexivity|]. split.
  { rewrite <- trimInvariantb_true. by vm_compute. }
  split; [apply reach_change; [constructor|by vm_compute]|].
  split; [reflexivity|].
  rewrite <- trimInvariantb_true. by vm_compute.
Qed.

(** The length input has a [min] attribute of 0.1 but its handler only
    checks the upper bound: typing 0 gives a segment of length zero. *)
Lemma length_input_breaks_invariant :
  (trimEnd (onChange (LengthInput 0) loadedEditor)
   == trimStart (onChange (LengthInput 0) loadedEditor))%Q
  ∧ ¬ trimInvariant (onChange (LengthInput 0) loadedEditor).
Proof.
  split; [reflexivity|]. rewrite <- trimInvariantb_true. by vm_compute.
Qed.

(** ** The monad *)

Lemma bind_Ok {A B} (m : Job A) (k : A → Job B) w w' a :
  m w = (w', Ok a) → bind m k w = k a w'.
Proof. unfold bind. by intros ->. Qed.

Lemma bind_Throw {A B} (m : Job A) (k : A → Job B) w w' e :
  m w = (w', Throw e) → bind m k w = (w', Throw e).
Proof. unfold bind. by intros ->. Qed.

Lemma bind_Pending {A B} (m : Job A) (k : A → Job B) w w' :
  m w = (w', Pending) → bind m k w = (w', Pending).
Proof. unfold bind. by intros ->. Qed.

Lemma bind_ext {A B} (m : Job A) (k1 k2 : A → Job B) w :
  (∀ a w', k1 a w' = k2 a w') → bind m k1 w = bind m k2 w.
Proof. intros Hk. unfold bind. destruct (m w) as [w' [a|e|]]; auto. Qed.

Lemma bind_assoc {A B C} (m : Job A) (k : A → Job B) (h : B → Job C) w :
  bind (bind m k) h w = bind m (λ a, bind (k a) h) w.
Proof. unfold bind. by destruct (m w) as [w' [a|e|]]. Qed.

(** ** Capture/record sink *)

Lemma setChunks_id (w : World) : setChunks (chunks w) w = w.
Proof. by destruct w. Qed.

Lemma forEach_ondataavailable (data : list (option Blob)) (w : World) :
  forEach ondataavailable data w
  = (setChunks (chunks w ++ accumulated data) w, Ok tt).
Proof.
  revert w. induction data as [|d data IH]; intros w; simpl.
  - unfold ret. by rewrite app_nil_r, setChunks_id.
  - destruct d as [b|]; simpl.
    + destruct (0 <? blob_size b)%N; simpl.
      * unfold bind, modify. rewrite IH. simpl. by rewrite <- app_assoc.
      * unfold bind, ret. apply IH.
    + unfold bind, ret. apply IH.
Qed.

(** Every chunk kept carries at least one byte. *)
Lemma accumulated_positive (data : list (option Blob)) :
  Forall (λ b, (0 < blob_size b)%N) (accumulated data).
Proof.
  induction data as [|[b|] data IH]; simpl; [done| |done].
  destruct (0 <? blob_size b)%N eqn:Hb; simpl; [|done].
  constructor; [by apply N.ltb_lt|done].
Qed.

Lemma finish_unfold (env : Env) (mimeType : string) (w : World) :
  finish env mimeType w
  = onstop mimeType
      (setChunks (chunks w ++ accumulated (env_data env))
         (setTrace (trace w ++ [EvRecorderStop]) w)).
Proof.
  unfold finish, bind, emit, modify. by rewrite forEach_ondataavailable.
Qed.

Lemma onstop_cases (mimeType : string) (w : World) :
  onstop mimeType w =
  match chunks w with
  | [] => (w, Throw NoDataRecorded)
  | _ :: _ =>
      let blob := newBlob (chunks w) (outputType mimeType) in
      if (blob_size blob <? 1000)%N then (w, Throw OutputTooSmall)
      else (setTrace (trace w ++ [EvSave (nextUrl w)])
              (setSaved (saved w ++ [nextUrl w])
                 (setUrls (<[nextUrl w := blob]> (urls w)) (S (nextUrl w)) w)),
            Ok tt)
  end.
Proof.
  unfold onstop, bind, gets. destruct (chunks w) as [|c cs] eqn:Hcs; [done|].
  cbv zeta. simpl length. cbv iota beta.
  change (S (length cs) =? 0)%nat with false. cbv iota.
  by destruct (blob_size (newBlob (c :: cs) (outputType mimeType)) <? 1000)%N.
Qed.

Lemma onstop_outcome (mimeType : string) (w : World) :
  let blob := newBlob (chunks w) (outputType mimeType) in
  let w' := (onstop mimeType w).1 in
  let r := (onstop mimeType w).2 in
  (chunks w = [] → r = Throw NoDataRecorded ∧ w' = w)
  ∧ (chunks w ≠ [] → (blob_size blob < 1000)%N →
     r = Throw OutputTooSmall ∧ w' = w)
  ∧ (chunks w ≠ [] → (1000 <= blob_size blob)%N →
     r = Ok tt
     ∧ saved w' = saved w ++ [nextUrl w]
     ∧ urls w' = <[nextUrl w := blob]> (urls w)
     ∧ trace w' = trace w ++ [EvSave (nextUrl w)]).
Proof.
  intros blob w' r. subst w' r. rewrite onstop_cases. fold blob.
  destruct (chunks w) as [|c cs0] eqn:Hcs.
  - split; [done|]. split; intros Hne; by destruct Hne.
  - cbv zeta. destruct (blob_size blob <? 1000)%N eqn:Hsize.
    + apply N.ltb_lt in Hsize. split; [done|]. split; [done|]. lia.
    + apply N.ltb_ge in Hsize. split; [done|]. split; [lia|]. done.
Qed.

(** C2. Finalizing the sink fails exactly when nothing or too little was
    recorded.  With [cs] the chunks accumulated up to the stop event:
    no chunk gives the empty-output error; some chunks but a blob under
    1000 bytes give the too-small error; in both cases [onSave] is not
    called and no URL is created.  Otherwise the chunks are assembled into
    one blob, registered under a new object URL, and that URL is handed to
    [onSave].  The call never stays pending. *)
Theorem finish_fails_exactly_when_empty_or_small
    (env : Env) (mimeType : string) (w : World) :
  let cs := chunks w ++ accumulated (env_data env) in
  let blob := newBlob cs (outputType mimeType) in
  let w' := (finish env mimeType w).1 in
  let r := (finish env mimeType w).2 in
  (cs = [] →
     r = Throw NoDataRecorded ∧ saved w' = saved w ∧ urls w' = urls w)
  ∧ (cs ≠ [] → (blob_size blob < 1000)%N →
     r = Throw OutputTooSmall ∧ saved w' = saved w ∧ urls w' = urls w)
  ∧ (cs ≠ [] → (1000 <= blob_size blob)%N →
     r = Ok tt
     ∧ saved w' = saved w ++ [nextUrl w]
     ∧ urls w' = <[nextUrl w := blob]> (urls w)
     ∧ trace w' = trace w ++ [EvRecorderStop; EvSave (nextUrl w)])
  ∧ ((∃ e, r = Throw e) ↔ cs = [] ∨ (blob_size blob < 1000)%N)
  ∧ r ≠ Pending.
Proof.
  intros cs blob w' r. subst w' r. rewrite finish_unfold. fold cs.
  set (w1 := setChunks cs (setTrace (trace w ++ [EvRecorderStop]) w)).
  assert (Hcs1 : chunks w1 = cs) by reflexivity.
  assert (Hsaved : saved w1 = saved w) by reflexivity.
  assert (Hurls : urls w1 = urls w) by reflexivity.
  assert (Hnext : nextUrl w1 = nextUrl w) by reflexivity.
  assert (Htrace : trace w1 = trace w ++ [EvRecorderStop]) by reflexivity.
  destruct (onstop_outcome mimeType w1) as (Hempty & Hsmall & Hgood).
  rewrite Hcs1 in Hempty, Hsmall, Hgood. fold blob in Hsmall, Hgood.
  clearbody w1.
  split; [|split; [|split; [|split]]].
  - intros Hcs. destruct (Hempty Hcs) as [Hr Hw]. by rewrite Hr, Hw.
  - intros Hcs Hlt. destruct (Hsmall Hcs Hlt) as [Hr Hw]. by rewrite Hr, Hw.
  - intros Hcs Hge. destruct (Hgood Hcs Hge) as (Hr & Hs & Hu & Ht).
    rewrite Hr, Hs, Hu, Ht, Hsaved, Hurls, Hnext, Htrace.
    by rewrite <- app_assoc.
  - split.
    + intros [e He]. destruct cs as [|c cs0] eqn:Hcs; [by left|right].
      destruct (N.lt_ge_cases (blob_size blob) 1000) as [Hlt|Hge]; [done|].
      destruct (Hgood ltac:(done) Hge) as [Hok _]. congruence.
    + intros [Hcs|Hlt].
      * destruct (Hempty Hcs) as [Hr _]. by eexists.
      * destruct cs as [|c cs0] eqn:Hcs.
        { destruct (Hempty eq_refl) as [Hr _]. by eexists. }
        destruct (Hsmall ltac:(done) Hlt) as [Hr _]. by eexists.
  - destruct cs as [|c cs0] eqn:Hcs.
    { destruct (Hempty eq_refl) as [Hr _]. by rewrite Hr. }
    destruct (N.lt_ge_cases (blob_size blob) 1000) as [Hlt|Hge].
    + destruct (Hsmall ltac:(done) Hlt) as [Hr _]. by rewrite Hr.
    + destruct (Hgood ltac:(done) Hge) as [Hr _]. by rewrite Hr.
Qed.

Lemma finish_fails_exactly_when_empty_or_small_witness :
  (finish sampleEnv "video/webm" idleWorld).2 = Ok tt
  ∧ saved (finish sampleEnv "video/webm" idleWorld).1 = [ 1%nat ]
  ∧ urls (finish sampleEnv "video/webm" idleWorld).1
    = <[1%nat := {| blob_size := 1300; blob_type := "video/webm" |}]>
        (urls idleWorld)
  ∧ trace (finish sampleEnv "video/webm" idleWorld).1
    = [ EvRecorderStop; EvSave 1 ].
Proof.
  apply (proj1 (proj2 (proj2
    (finish_fails_exactly_when_empty_or_small sampleEnv "video/webm" idleWorld)))).
  - discriminate.
  - vm_compute. discriminate.
Defined.

(** ** Segment player *)

Section Player.
Variables (frames : nat → MediaObs) (src : nat) (end_ : Q) (text : string)
          (width height : Z).

Lemma onFrame_at_end (fuel k : nat) (w : World) :
  (end_ <= currentTime (frames k))%Q →
  onFrame (S fuel) frames k src end_ text width height w
  = (setTrace (trace w ++ [EvPause]) w, Ok tt).
Proof.
  intros Hend. apply Qle_bool_iff in Hend. simpl. by rewrite Hend.
Qed.

(** Before the end is reached a call draws and re-arms itself, whatever
    [paused] and [ended] say. *)
Lemma onFrame_before_end (fuel k : nat) (w : World) :
  (currentTime (frames k) < end_)%Q →
  onFrame (S fuel) frames k src end_ text width height w
  = onFrame fuel frames (S k) src end_ text width height
      (setTrace (trace w ++ [EvRenderFrame text])
         (setCanvas
            (renderFrame (canvas w)
               {| frame_src := src; frame_time := currentTime (frames k) |}
               text (inject_Z width) (inject_Z height)) w)).
Proof.
  intros Hlt. apply Qlt_not_le in Hlt.
  assert (Hb : Qle_bool end_ (currentTime (frames k)) = false).
  { apply not_true_iff_false. by rewrite Qle_bool_iff. }
  simpl. rewrite Hb. simpl.
  by destruct (negb (paused (frames k)) && negb (ended (frames k))).
Qed.

Lemma onFrame_pending (fuel k : nat) (w : World) :
  (∀ j, (k ≤ j < k + fuel)%nat → (currentTime (frames j) < end_)%Q) →
  (onFrame fuel frames k src end_ text width height w).2 = Pending.
Proof.
  revert k w. induction fuel as [|fuel IH]; intros k w Hlt; [done|].
  rewrite onFrame_before_end by (apply Hlt; lia).
  apply IH. intros j Hj. apply Hlt. lia.
Qed.

Lemma onFrame_resolves (n : nat) :
  ∀ (k fuel : nat) (w : World),
    (end_ <= currentTime (frames (k + n)))%Q →
    (n < fuel)%nat →
    ∃ w', onFrame fuel frames k src end_ text width height w = (w', Ok tt).
Proof.
  induction n as [|n IH]; intros k fuel w Hend Hfuel;
    (destruct fuel as [|fuel]; [lia|]).
  - rewrite Nat.add_0_r in Hend. rewrite onFrame_at_end by done. eauto.
  - destruct (Qlt_le_dec (currentTime (frames k)) end_) as [Hlt|Hge].
    + rewrite onFrame_before_end by done. apply IH; [|lia].
      by replace (S k + n)%nat with (k + S n)%nat by lia.
    + rewrite onFrame_at_end by done. eauto.
Qed.

(** A call never throws. *)
Lemma onFrame_no_throw (fuel k : nat) (w : World) (e : Error) :
  (onFrame fuel frames k src end_ text width height w).2 ≠ Throw e.
Proof.
  revert k w. induction fuel as [|fuel IH]; intros k w; [done|].
  destruct (Qlt_le_dec (currentTime (frames k)) end_) as [Hlt|Hge].
  - rewrite onFrame_before_end by done. apply IH.
  - by rewrite onFrame_at_end.
Qed.
End Player.

Lemma playSegment_started (fuel : nat) (pb : Playback) (src : nat)
    (position start end_ : Q) (text : string) (width height : Z) (w : World) :
  pb_play pb = true →
  (Qabs (position - start) <= tenth)%Q ∨ pb_seeked pb = true →
  ∃ w1, playSegment fuel pb src position start end_ text width height w
        = onFrame fuel (pb_frames pb) 0 src end_ text width height w1.
Proof.
  intros Hplay Hseek. unfold playSegment, startPlayback.
  destruct (Qle_bool (Qabs (position - start)) tenth) eqn:Hnear; simpl.
  - unfold bind, emit, modify. rewrite Hplay. eauto.
  - destruct Hseek as [Hseek|Hseek].
    { apply Qle_bool_iff in Hseek. congruence. }
    unfold bind, emit, modify. rewrite Hseek, Hplay. eauto.
Qed.

(** C4, as the code has it.  Once [play()] has resolved (and the seek, when
    one is needed, has completed), the call resolves normally as soon as a
    frame callback reads [currentTime >= rangeEnd].  A pause before
    [rangeEnd] does not complete the call: as long as every callback reads
    [currentTime < rangeEnd] on an element that has not ended, the call
    stays pending, paused or not. *)
Theorem playSegment_resolves_when_time_reaches_end
    (pb : Playback) (src : nat) (position start end_ : Q) (text : string)
    (width height : Z) :
  pb_play pb = true →
  (Qabs (position - start) <= tenth)%Q ∨ pb_seeked pb = true →
  ((∃ k, (end_ <= currentTime (pb_frames pb k))%Q) →
   ∃ n, ∀ fuel w, (n ≤ fuel)%nat →
     ∃ w', playSegment fuel pb src position start end_ text width height w
           = (w', Ok tt))
  ∧ ((∀ k, (currentTime (pb_frames pb k) < end_)%Q
           ∧ ended (pb_frames pb k) = false) →
     ∀ fuel w,
       (playSegment fuel pb src position start end_ text width height w).2
       = Pending).
Proof.
  intros Hplay Hseek. split.
  - intros [k Hk]. exists (S k). intros fuel w Hfuel.
    destruct (playSegment_started fuel pb src position start end_ text
                width height w Hplay Hseek) as [w1 ->].
    apply (onFrame_resolves _ _ _ _ _ _ k); [done|lia].
  - intros Hlt fuel w.
    destruct (playSegment_started fuel pb src position start end_ text
                width height w Hplay Hseek) as [w1 ->].
    apply onFrame_pending. intros j _. apply Hlt.
Qed.

Lemma playSegment_resolves_when_time_reaches_end_witness :
  ∃ n, ∀ fuel w, (n ≤ fuel)%nat →
    ∃ w', playSegment fuel (playsThrough 2) 0 2 2 6 "HELLO" 1280 720 w
          = (w', Ok tt).
Proof.
  apply (proj1 (playSegment_resolves_when_time_reaches_end
                  (playsThrough 2) 0 2 2 6 "HELLO" 1280 720
                  eq_refl (or_intror eq_refl))).
  exists 4%nat. vm_compute. discriminate.
Defined.

Lemma stopsAtThree_pending (atEnd : bool) (fuel : nat) :
  (playSegment fuel (stopsAtThree atEnd) 0 0 0 5 EmptyString 640 360
     idleWorld).2
  = Pending.
Proof.
  destruct (playSegment_started fuel (stopsAtThree atEnd) 0 0 0 5 EmptyString
              640 360 idleWorld eq_refl (or_intror eq_refl)) as [w1 ->].
  apply onFrame_pending. intros k _. simpl.
  destruct (k <? 3)%nat eqn:Hk; simpl; [|done].
  apply Nat.ltb_lt in Hk. unfold Qlt. simpl. lia.
Qed.

(** C4, as stated, fails: the clip stops at 3 s, before [rangeEnd = 5].
    At the fourth callback the element is paused at 3 s, in the first run
    without having ended, in the second run ended; in both runs the call
    is still pending after any number of callbacks. *)
Lemma playSegment_stopped_early_stays_pending :
  (pb_frames (stopsAtThree false) 3
   = {| currentTime := 3; paused := true; ended := false |}
   ∧ ∀ fuel,
       (playSegment fuel (stopsAtThree false) 0 0 0 5 EmptyString 640 360
          idleWorld).2
       = Pending)
  ∧ (pb_frames (stopsAtThree true) 3
     = {| currentTime := 3; paused := true; ended := true |}
     ∧ ∀ fuel,
         (playSegment fuel (stopsAtThree true) 0 0 0 5 EmptyString 640 360
            idleWorld).2
         = Pending).
Proof.
  split; (split; [reflexivity|apply stopsAtThree_pending]).
Qed.

(** ** Relating the world before and after a job

    [steps R m]: whatever [m] does and however it ends, the world it
    leaves is [R]-related to the world it started in. *)

Section Steps.
Variable R : relation World.
Context `{!PreOrder R}.

Lemma steps_ret {A} (a : A) : steps R (ret a).
Proof. intros w. simpl. reflexivity. Qed.

Lemma steps_throw {A} (e : Error) : steps R (@throw A e).
Proof. intros w. simpl. reflexivity. Qed.

Lemma steps_never {A} : steps R (@never A).
Proof. intros w. simpl. reflexivity. Qed.

Lemma steps_gets {A} (f : World → A) : steps R (gets f).
Proof. intros w. simpl. reflexivity. Qed.

Lemma steps_modify (f : World → World) :
  (∀ w, R w (f w)) → steps R (modify f).
Proof. intros Hf w. apply Hf. Qed.

Lemma steps_bind {A B} (m : Job A) (k : A → Job B) :
  steps R m → (∀ a, steps R (k a)) → steps R (bind m k).
Proof.
  intros Hm Hk w. unfold bind. specialize (Hm w).
  destruct (m w) as [w1 [a| |]]; simpl in *; [|done|done].
  etrans; [exact Hm|apply Hk].
Qed.

Lemma steps_try_catch {A} (m : Job A) (h : Error → Job A) :
  steps R m → (∀ e, steps R (h e)) → steps R (try_catch m h).
Proof.
  intros Hm Hh w. unfold try_catch. specialize (Hm w).
  destruct (m w) as [w1 [a|e|]]; simpl in *; [done| |done].
  etrans; [exact Hm|apply Hh].
Qed.

Lemma steps_when (b : bool) (m : Job unit) : steps R m → steps R (when b m).
Proof. intros Hm. destruct b; [done|apply steps_ret]. Qed.

Lemma steps_forEach {A} (f : A → Job unit) (l : list A) :
  (∀ x, steps R (f x)) → steps R (forEach f l).
Proof.
  intros Hf. induction l as [|x l IH]; simpl; [apply steps_ret|].
  apply steps_bind; [apply Hf|by intros _].
Qed.
End Steps.

Create HintDb steps discriminated.

(** Splits a job into its primitive effects; [prim] proves that a world
    update respects the relation. *)
Ltac steps_auto prim :=
  repeat first
    [ solve [auto 1 with steps nocore]
    | apply steps_ret; apply _
    | apply steps_throw; apply _
    | apply steps_never; apply _
    | apply steps_gets; apply _
    | apply steps_bind; [apply _| |intros ?]
    | apply steps_try_catch; [apply _| |intros ?]
    | apply steps_when; [apply _|]
    | apply steps_forEach; [apply _|intros ?]
    | apply steps_modify; intros ?; prim
    | match goal with
      | |- steps _ (if ?b then _ else _) => destruct b
      | |- steps _ (match ?x with _ => _ end) => destruct x
      end ].

(** Reading a job that ended from the way it is composed. *)

Lemma bind_inv {A B} (m : Job A) (k : A → Job B) w w' r :
  bind m k w = (w', r) →
  (∃ w1 a, m w = (w1, Ok a) ∧ k a w1 = (w', r))
  ∨ (∃ e, m w = (w', Throw e) ∧ r = Throw e)
  ∨ (m w = (w', Pending) ∧ r = Pending).
Proof.
  unfold bind. destruct (m w) as [w1 [a|e|]]; intros Heq.
  - left. eauto.
  - right. left. inversion Heq; subst. eauto.
  - right. right. by inversion Heq; subst.
Qed.

Lemma try_catch_inv {A} (m : Job A) (h : Error → Job A) w w' r :
  try_catch m h w = (w', r) →
  (∃ e w1, m w = (w1, Throw e) ∧ h e w1 = (w', r))
  ∨ (m w = (w', r) ∧ ∀ e, r ≠ Throw e).
Proof.
  unfold try_catch. destruct (m w) as [w1 [a|e|]]; intros Heq.
  - right. by inversion Heq; subst.
  - left. eauto.
  - right. by inversion Heq; subst.
Qed.

Lemma steps_and (R1 R2 : relation World) {A} (m : Job A) :
  steps R1 m → steps R2 m → steps (λ w w', R1 w w' ∧ R2 w w') m.
Proof. intros H1 H2 w. split; [apply H1|apply H2]. Qed.

#[global] Instance emitsR_preorder (P : Event → Prop) : PreOrder (emitsR P).
Proof.
  split.
  - intros w. exists []. by rewrite app_nil_r.
  - intros w1 w2 w3 (e1 & H1 & F1) (e2 & H2 & F2). exists (e1 ++ e2).
    split; [by rewrite H2, H1, app_assoc|by apply Forall_app].
Qed.

#[global] Instance sameUi_preorder : PreOrder sameUi.
Proof.
  split.
  - by intros w.
  - intros w1 w2 w3 (?&?&?&?) (?&?&?&?). unfold sameUi.
    repeat split; congruence.
Qed.

#[global] Instance urlsTracked_preorder : PreOrder urlsTracked.
Proof.
  split.
  - intros w. split; [by left|done].
  - intros w1 w2 w3 (U1 & T1 & S1) (U2 & T2 & S2).
    split; [|split; set_solver].
    intros u Hu. destruct (U2 u Hu) as [H2|[H2|H2]]; [|by right; left|by right; right].
    destruct (U1 u H2) as [H1|[H1|H1]]; [by left|right; left|right; right];
      set_solver.
Qed.

(** *** Trace growth *)

Lemma emitsR_emit (P : Event → Prop) (ev : Event) :
  P ev → steps (emitsR P) (emit ev).
Proof.
  intros Hev w. exists [ev]. split; [done|]. by constructor.
Qed.

Ltac same_trace := exists []; split; [by rewrite app_nil_r|constructor].

Ltac emits_auto :=
  unfold onCanvas, revokeObjectURL, cleanupAudio, revokeTempMergeBlobs;
  steps_auto ltac:(same_trace);
  try (apply emitsR_emit; done).


Lemma emitsR_createObjectURL P b : steps (emitsR P) (createObjectURL b).
Proof. intros w. simpl. same_trace. Qed.
#[global] Hint Resolve emitsR_createObjectURL : steps.

Lemma emits_onFrame fuel frames k src end_ text width height :
  steps (emitsR (λ _, True))
    (onFrame fuel frames k src end_ text width height).
Proof.
  revert k. induction fuel as [|fuel IH]; intros k; simpl.
  - emits_auto.
  - emits_auto; apply IH.
Qed.
#[global] Hint Resolve emits_onFrame : steps.

Lemma emits_playSegment fuel pb src position start end_ text width height :
  steps (emitsR (λ _, True))
    (playSegment fuel pb src position start end_ text width height).
Proof. unfold playSegment, startPlayback. emits_auto. Qed.
#[global] Hint Resolve emits_playSegment : steps.

Lemma emits_finish env mimeType :
  steps (emitsR (λ _, True)) (finish env mimeType).
Proof. unfold finish, onstop, ondataavailable. emits_auto. Qed.
#[global] Hint Resolve emits_finish : steps.

Lemma emits_mergeEntry fuel env s i mergeId v :
  steps (emitsR (λ _, True)) (mergeEntry fuel env s i mergeId v).
Proof. unfold mergeEntry, fetchVideoAsBlobUrl, loadMergeVideo. emits_auto. Qed.
#[global] Hint Resolve emits_mergeEntry : steps.

Lemma emits_mergeLoop fuel env all s entries :
  steps (emitsR (λ _, True)) (mergeLoop fuel env all s entries).
Proof.
  induction entries as [|entry entries IH]; simpl.
  - emits_auto.
  - apply steps_bind; [apply _| |by intros _].
    unfold mergeStep. emits_auto.
Qed.
#[global] Hint Resolve emits_mergeLoop : steps.

Lemma emits_startRecorder env width height :
  steps (emitsR (λ _, True)) (startRecorder env width height).
Proof. unfold startRecorder. emits_auto. Qed.
#[global] Hint Resolve emits_startRecorder : steps.

(** The [catch] block and the cleanup only release. *)
Lemma emits_cleanup src :
  steps (emitsR releases)
    (cleanupAudio >> revokeTempMergeBlobs >> emit (EvRestore src)).
Proof. emits_auto. Qed.

Lemma emits_catchBlock src e : steps (emitsR releases) (catchBlock src e).
Proof. unfold catchBlock. emits_auto. Qed.

Lemma emitsR_weaken (P Q : Event → Prop) w w' :
  (∀ ev, P ev → Q ev) → emitsR P w w' → emitsR Q w w'.
Proof.
  intros HPQ (evs & Ht & Hf). exists evs. split; [done|].
  eapply Forall_impl; [exact Hf|done].
Qed.

(** ** The export procedure *)

Lemma processVideo_started fuel env ed src w :
  localVideoSrc ed = Some src → env_refs env = true →
  processVideo fuel env ed w
  = try_catch (tryBlock fuel env ed src) (catchBlock src) (started env w).
Proof. intros Hsrc Hrefs. unfold processVideo. by rewrite Hsrc, Hrefs. Qed.

Lemma processVideo_not_ready fuel env ed w :
  localVideoSrc ed = None →
  processVideo fuel env ed w = (setErrorMessage (Some SourceNotReady) w, Ok tt).
Proof. intros Hsrc. unfold processVideo. by rewrite Hsrc. Qed.

Lemma processVideo_no_refs fuel env ed src w :
  localVideoSrc ed = Some src → env_refs env = false →
  processVideo fuel env ed w = (w, Ok tt).
Proof. intros Hsrc Hrefs. unfold processVideo. by rewrite Hsrc, Hrefs. Qed.

Arguments started : simpl never.

Lemma emits_recordSequence fuel env ed src size :
  steps (emitsR (λ _, True)) (recordSequence fuel env ed src size).
Proof. unfold recordSequence. emits_auto. Qed.

(** *** The first frame *)

Lemma drawnFirst_quiet (evs : list Event) : Forall quiet evs → drawnFirst evs.
Proof.
  intros Hq pre ev post -> Hev.
  apply Forall_app in Hq as [_ Hq]. apply Forall_cons in Hq as [Hq _].
  unfold quiet in Hq. congruence.
Qed.

Lemma drawnFirst_after (q : list Event) (w h : Z) (rest : list Event) :
  Forall quiet q → drawnFirst (q ++ EvDrawInitial w h :: rest).
Proof.
  induction q as [|x q IH]; intros Hq pre ev post Heq Hev.
  - destruct pre as [|p pre]; simpl in Heq.
    + inversion Heq; subst. discriminate Hev.
    + inversion Heq; subst. exists w, h. by left.
  - apply Forall_cons in Hq as [Hx Hq].
    destruct pre as [|p pre]; simpl in Heq; inversion Heq; subst.
    + unfold quiet in Hx. congruence.
    + destruct (IH Hq pre ev post) as (w' & h' & Hin); [done|done|].
      exists w', h'. by right.
Qed.

(** Up to the initial draw nothing is captured; a successful
    [prepareCanvas] ends with the draw. *)
Lemma prepareCanvas_trace (env : Env) (src : nat) (w : World) :
  ∃ q, Forall quiet q
       ∧ match (prepareCanvas env src w).2 with
         | Ok size =>
             trace (prepareCanvas env src w).1
             = trace w ++ q ++ [EvDrawInitial size.1 size.2]
         | _ => trace (prepareCanvas env src w).1 = trace w ++ q
         end.
Proof.
  unfold prepareCanvas.
  destruct (env_audioSuspended env);
    destruct ((forceEven (env_videoWidth env) <=? 0)%Z
              || (forceEven (env_videoHeight env) <=? 0)%Z) eqn:Hdim;
    destruct (env_context2d env) eqn:Hctx;
    unfold when, bind, modify, emit, throw, onCanvas, ret; simpl;
    rewrite ?Hdim; simpl; rewrite ?Hctx; simpl;
    first [ exists [EvAudioResume];
            split; [by repeat constructor|by rewrite <- ?app_assoc]
          | exists []; split; [constructor|by rewrite ?app_nil_r] ].
Qed.

Lemma releases_quiet (ev : Event) : releases ev → quiet ev.
Proof. by destruct ev. Qed.

(** C7. In every run of [processVideo], whatever the browser does and
    however the run ends, each [canvas.captureStream] and each
    [recorder.start] is preceded, within the run, by the initial
    [ctx.drawImage] onto the processing canvas. *)
Theorem initial_frame_drawn_before_capture
    (fuel : nat) (env : Env) (ed : Editor) (w : World) :
  ∃ evs, trace (processVideo fuel env ed w).1 = trace w ++ evs
         ∧ drawnFirst evs.
Proof.
  destruct (localVideoSrc ed) as [src|] eqn:Hsrc.
  2: { rewrite processVideo_not_ready by done. exists [].
       split; [by rewrite app_nil_r|by apply drawnFirst_quiet]. }
  destruct (env_refs env) eqn:Hrefs.
  2: { rewrite (processVideo_no_refs _ _ _ src) by done. exists [].
       split; [by rewrite app_nil_r|by apply drawnFirst_quiet]. }
  rewrite (processVideo_started _ _ _ src) by done.
  assert (Hstart : trace (started env w) = trace w ++ [EvPause]) by done.
  unfold try_catch, tryBlock, bind.
  destruct (prepareCanvas_trace env src (started env w)) as (q & Hq & Hprep).
  destruct (prepareCanvas env src (started env w)) as [w2 [size| e |]];
    simpl in Hprep.
  - (* the canvas is ready: the draw is in the trace, then anything *)
    destruct (emits_recordSequence fuel env ed src size w2) as (e2 & He2 & _).
    destruct (recordSequence fuel env ed src size w2) as [w3 [[]|e|]];
      simpl in He2.
    + exists ((EvPause :: q) ++ EvDrawInitial size.1 size.2 :: e2). split.
      * simpl. rewrite He2, Hprep, ?Hstart. by rewrite <- !app_assoc.
      * apply drawnFirst_after. constructor; [done|exact Hq].
    + destruct (emits_catchBlock src e w3) as (e3 & He3 & _).
      exists ((EvPause :: q) ++ EvDrawInitial size.1 size.2 :: e2 ++ e3). split.
      * rewrite He3, He2, Hprep, ?Hstart. by rewrite <- !app_assoc.
      * apply drawnFirst_after. constructor; [done|exact Hq].
    + exists ((EvPause :: q) ++ EvDrawInitial size.1 size.2 :: e2). split.
      * simpl. rewrite He2, Hprep, ?Hstart. by rewrite <- !app_assoc.
      * apply drawnFirst_after. constructor; [done|exact Hq].
  - (* thrown before the draw: only the catch block follows *)
    destruct (emits_catchBlock src e w2) as (e3 & He3 & Hrel).
    exists (EvPause :: q ++ e3). split.
    + rewrite He3, Hprep, ?Hstart. by rewrite <- !app_assoc.
    + apply drawnFirst_quiet. constructor; [done|].
      apply Forall_app. split; [done|].
      eapply Forall_impl; [exact Hrel|apply releases_quiet].
  - exists (EvPause :: q). split.
    + simpl. rewrite Hprep, ?Hstart. by rewrite <- !app_assoc.
    + apply drawnFirst_quiet. by constructor.
Qed.

(** *** Queue entries that are not in the history *)

Lemma mergeStep_missing fuel env all s i mergeId w :
  findVideo all mergeId = None →
  mergeStep fuel env all s (i, mergeId) w = (w, Ok tt).
Proof. intros Hnone. unfold mergeStep. by rewrite Hnone. Qed.

Lemma mergeLoop_filter fuel env all s entries w :
  mergeLoop fuel env all s entries w
  = mergeLoop fuel env all s (List.filter (resolvable all) entries) w.
Proof.
  revert w. induction entries as [|[i mergeId] entries IH]; intros w; [done|].
  cbn [mergeLoop List.filter].
  destruct (findVideo all mergeId) as [v|] eqn:Hfind.
  - assert (Hres : resolvable all (i, mergeId) = true).
    { unfold resolvable. simpl. by rewrite Hfind. }
    rewrite Hres. cbn [mergeLoop]. apply bind_ext. intros _ w1. apply IH.
  - assert (Hres : resolvable all (i, mergeId) = false).
    { unfold resolvable. simpl. by rewrite Hfind. }
    rewrite Hres.
    rewrite (bind_Ok _ _ w w tt) by (by apply mergeStep_missing). apply IH.
Qed.

(** C3. A queue entry whose id is not found in [allVideos] is a no-op of
    the loop: the world is left as it is (nothing is fetched, loaded,
    rendered or marked) and the loop goes on; hence the loop over a queue
    equals the loop over its resolvable entries, each under its own
    index. *)
Theorem missing_queue_entries_are_skipped
    (fuel : nat) (env : Env) (all : list GeneratedVideo) (s : Setup)
    (entries : list (nat * string)) (w : World) :
  (∀ i mergeId rest,
     findVideo all mergeId = None →
     mergeStep fuel env all s (i, mergeId) w = (w, Ok tt)
     ∧ mergeLoop fuel env all s ((i, mergeId) :: rest) w
       = mergeLoop fuel env all s rest w)
  ∧ mergeLoop fuel env all s entries w
    = mergeLoop fuel env all s (List.filter (resolvable all) entries) w.
Proof.
  split; [|apply mergeLoop_filter].
  intros i mergeId rest Hnone. split; [by apply mergeStep_missing|].
  cbn [mergeLoop]. by rewrite (bind_Ok _ _ w w tt) by (by apply mergeStep_missing).
Qed.

Lemma missing_queue_entries_are_skipped_witness :
  let s := {| width := 1280; height := 720; mimeType := "video/webm" |} in
  mergeStep 10 sampleEnv (allVideos queueEditor) s (1%nat, "9") idleWorld
  = (idleWorld, Ok tt)
  ∧ mergeLoop 10 sampleEnv (allVideos queueEditor) s
      [ (1%nat, "9"); (2%nat, "3") ] idleWorld
    = mergeLoop 10 sampleEnv (allVideos queueEditor) s [ (2%nat, "3") ] idleWorld.
Proof.
  intros s.
  apply (proj1 (missing_queue_entries_are_skipped 10 sampleEnv
                  (allVideos queueEditor) s [] idleWorld)).
  reflexivity.
Defined.

(** In [processVideo] the loop runs over the indexed queue. *)
Lemma indexed_lookup (q : list string) (i : nat) (mergeId : string) :
  q !! i = Some mergeId → indexed q !! i = Some (i, mergeId).
Proof. intros Hq. unfold indexed. by rewrite list_lookup_imap, Hq. Qed.

Example indexed_queueEditor :
  List.filter (resolvable (allVideos queueEditor)) (indexed (mergeQueue queueEditor))
  = [ (0%nat, "3"); (2%nat, "3") ].
Proof. reflexivity. Qed.

(** *** What rendering leaves untouched *)

Ltac ui_auto :=
  unfold onCanvas, revokeObjectURL, cleanupAudio, revokeTempMergeBlobs, emit;
  steps_auto ltac:(by repeat split).

Lemma sameUi_createObjectURL b : steps sameUi (createObjectURL b).
Proof. intros w. by repeat split. Qed.
#[global] Hint Resolve sameUi_createObjectURL : steps.

Lemma sameUi_onFrame fuel frames k src end_ text width height :
  steps sameUi (onFrame fuel frames k src end_ text width height).
Proof.
  revert k. induction fuel as [|fuel IH]; intros k; simpl.
  - ui_auto.
  - ui_auto; apply IH.
Qed.
#[global] Hint Resolve sameUi_onFrame : steps.

Lemma sameUi_playSegment fuel pb src position start end_ text width height :
  steps sameUi (playSegment fuel pb src position start end_ text width height).
Proof. unfold playSegment, startPlayback. ui_auto. Qed.
#[global] Hint Resolve sameUi_playSegment : steps.

Lemma sameUi_mergeEntry fuel env s i mergeId v :
  steps sameUi (mergeEntry fuel env s i mergeId v).
Proof. unfold mergeEntry, fetchVideoAsBlobUrl, loadMergeVideo. ui_auto. Qed.

Lemma sameUi_prepareCanvas env src : steps sameUi (prepareCanvas env src).
Proof. unfold prepareCanvas. ui_auto. Qed.

Lemma sameUi_startRecorder env width height :
  steps sameUi (startRecorder env width height).
Proof. unfold startRecorder. ui_auto. Qed.

Lemma sameUi_cleanup src :
  steps sameUi (cleanupAudio >> revokeTempMergeBlobs >> emit (EvRestore src)).
Proof. ui_auto. Qed.

Lemma emits_prepareCanvas env src :
  steps (emitsR (λ _, True)) (prepareCanvas env src).
Proof. unfold prepareCanvas. emits_auto. Qed.

(** *** Runs that go well *)

Lemma forEach_revoke_Ok (l : list nat) (w : World) :
  (forEach revokeObjectURL l w).2 = Ok tt.
Proof.
  revert w. induction l as [|u l IH]; intros w; [done|].
  simpl. unfold bind at 1. unfold revokeObjectURL at 1.
  unfold bind, modify, emit. simpl. apply IH.
Qed.

Lemma cleanup_Ok (src : nat) (w : World) :
  ((cleanupAudio >> revokeTempMergeBlobs >> emit (EvRestore src)) w).2 = Ok tt.
Proof.
  unfold bind at 1.
  assert (Hc : ∃ w1, cleanupAudio w = (w1, Ok tt)).
  { unfold cleanupAudio, bind, gets. destruct (audio w); simpl; eauto. }
  destruct Hc as [w1 ->]. unfold bind at 1. unfold revokeTempMergeBlobs.
  unfold bind at 1, gets.
  pose proof (forEach_revoke_Ok (tempMergeBlobs w1) w1) as Hr.
  destruct (forEach revokeObjectURL (tempMergeBlobs w1) w1) as [w2 r].
  simpl in Hr. by subst r.
Qed.

Lemma Qabs_self_near (x : Q) : (Qabs (x - x) <= tenth)%Q.
Proof.
  assert (H0 : (x - x == 0)%Q) by ring. rewrite H0. by vm_compute.
Qed.

Lemma segmentResolves_spec fuel pb end_ :
  segmentResolves fuel pb end_ = true →
  pb_play pb = true
  ∧ ∃ k, (k < fuel)%nat ∧ (end_ <= currentTime (pb_frames pb k))%Q.
Proof.
  unfold segmentResolves. rewrite andb_true_iff, existsb_exists.
  intros [Hplay (k & Hk & Hend)]. split; [done|]. exists k.
  apply in_seq in Hk. split; [lia|]. by apply Qle_bool_iff.
Qed.

Lemma playSegment_Ok fuel pb src position start end_ text width height w :
  segmentResolves fuel pb end_ = true →
  (Qabs (position - start) <= tenth)%Q →
  ∃ w', playSegment fuel pb src position start end_ text width height w
        = (w', Ok tt).
Proof.
  intros Hres Hnear.
  apply segmentResolves_spec in Hres as (Hplay & k & Hk & Hend).
  destruct (playSegment_started fuel pb src position start end_ text
              width height w Hplay (or_introl Hnear)) as [w1 ->].
  by apply (onFrame_resolves _ _ _ _ _ _ k).
Qed.

Arguments playSegment : simpl never.

Lemma prepareCanvas_Ok env src w :
  setupOk env = true →
  ∃ w', prepareCanvas env src w
        = (w', Ok (forceEven (env_videoWidth env),
                   forceEven (env_videoHeight env))).
Proof.
  unfold setupOk. rewrite !andb_true_iff, negb_true_iff.
  intros [[[Hdim Hctx] _] _]. unfold prepareCanvas.
  unfold bind at 1.
  assert (Hw : ∃ w1, when (env_audioSuspended env)
                       (modify (setAudio Running) >> emit EvAudioResume) w
                     = (w1, Ok tt)).
  { destruct (env_audioSuspended env); simpl; eauto. }
  destruct Hw as [w1 ->]. rewrite Hdim, Hctx. simpl. eauto.
Qed.

Lemma startRecorder_Ok env wd ht w :
  setupOk env = true →
  ∃ w' s, startRecorder env wd ht w = (w', Ok s)
          ∧ width s = wd ∧ height s = ht.
Proof.
  unfold setupOk. rewrite !andb_true_iff.
  intros [[_ Hsrc] Hrec]. unfold startRecorder. rewrite Hsrc, Hrec.
  destruct (env_audioTrack env); simpl; eauto.
Qed.

Lemma mergeEntry_Ok fuel env s i mergeId v w body d :
  env_fetch env i = FetchOk body →
  env_load env i = LoadedData d →
  segmentResolves fuel (env_playback env (S i)) d = true →
  ∃ w', mergeEntry fuel env s i mergeId v w = (w', Ok tt).
Proof.
  intros Hfetch Hload Hres.
  unfold mergeEntry, fetchVideoAsBlobUrl, loadMergeVideo.
  rewrite Hfetch, Hload.
  unfold bind, emit, modify, createObjectURL, ret. simpl.
  apply playSegment_Ok; [done|by vm_compute].
Qed.

Lemma mergeStep_Ok fuel env all s entry w :
  entryOk fuel env all entry = true →
  ∃ w', mergeStep fuel env all s entry w = (w', Ok tt)
        ∧ sameUi w w' ∧ emitsR (λ _, True) w w'.
Proof.
  destruct entry as [i mergeId]. unfold entryOk, mergeStep. simpl.
  destruct (findVideo all mergeId) as [v|].
  - destruct (env_fetch env i) as [body|st|] eqn:Hfetch; [|done|done].
    destruct (env_load env i) as [d| |] eqn:Hload; [|done|done].
    intros Hres.
    destruct (mergeEntry_Ok fuel env s i mergeId v w body d Hfetch Hload Hres)
      as [w' Hrun].
    exists w'. unfold try_catch. rewrite Hrun. split; [done|].
    pose proof (sameUi_mergeEntry fuel env s i mergeId v w) as Hui.
    pose proof (emits_mergeEntry fuel env s i mergeId v w) as Hem.
    rewrite Hrun in Hui, Hem. done.
  - intros _. exists w. split; [done|]. split; reflexivity.
Qed.

Lemma mergeLoop_Ok fuel env all s entries w :
  forallb (entryOk fuel env all) entries = true →
  ∃ w', mergeLoop fuel env all s entries w = (w', Ok tt)
        ∧ sameUi w w' ∧ emitsR (λ _, True) w w'.
Proof.
  revert w. induction entries as [|entry entries IH]; intros w Hall.
  - exists w. split; [done|]. split; reflexivity.
  - simpl in Hall. apply andb_true_iff in Hall as [Hentry Hall].
    destruct (mergeStep_Ok fuel env all s entry w Hentry)
      as (w1 & Hstep & Hui1 & Hem1).
    destruct (IH w1 Hall) as (w2 & Hloop & Hui2 & Hem2).
    exists w2. cbn [mergeLoop]. rewrite (bind_Ok _ _ _ _ _ Hstep).
    split; [done|]. split; etrans; done.
Qed.

Lemma mergeLoop_app fuel env all s es1 es2 w :
  mergeLoop fuel env all s (es1 ++ es2) w
  = bind (mergeLoop fuel env all s es1) (λ _, mergeLoop fuel env all s es2) w.
Proof.
  revert w. induction es1 as [|entry es1 IH]; intros w; [done|].
  cbn [app mergeLoop]. rewrite bind_assoc. apply bind_ext. intros _ w1. apply IH.
Qed.

(** *** A clip of the queue that cannot be loaded *)

Lemma mergeEntry_load_fails fuel env s i mergeId v w :
  loadFails env i = true →
  ∃ w' e evs,
    mergeEntry fuel env s i mergeId v w = (w', Throw e)
    ∧ sameUi w w'
    ∧ trace w' = trace w ++ evs
    ∧ Forall (λ ev, ev = EvFetch (url v) ∨ ∃ u, ev = EvSetSrc u) evs.
Proof.
  intros Hfail. unfold loadFails in Hfail. unfold mergeEntry.
  destruct (env_fetch env i) as [body|st|].
  - destruct (env_load env i) as [d| |]; [done| |].
    all: erewrite bind_Ok by reflexivity.
    all: erewrite bind_Ok by reflexivity.
    all: erewrite bind_Throw by reflexivity.
    all: do 3 eexists; (split; [reflexivity|]); (split; [done|]); simpl.
    all: split; [by rewrite <- !app_assoc|].
    all: simpl.
    all: repeat match goal with
           | |- Forall _ [] => constructor
           | |- Forall _ (_ :: _) =>
               constructor; [first [by left|right; by eexists]|]
           end.
  - erewrite bind_Throw by reflexivity.
    do 3 eexists. split; [reflexivity|]. split; [done|]. simpl.
    split; [done|].
    repeat match goal with
           | |- Forall _ [] => constructor
           | |- Forall _ (_ :: _) =>
               constructor; [first [by left|right; by eexists]|]
           end.
  - erewrite bind_Throw by reflexivity.
    do 3 eexists. split; [reflexivity|]. split; [done|]. simpl.
    split; [done|].
    repeat match goal with
           | |- Forall _ [] => constructor
           | |- Forall _ (_ :: _) =>
               constructor; [first [by left|right; by eexists]|]
           end.
Qed.

Lemma mergeStep_load_fails fuel env all s i mergeId v w :
  findVideo all mergeId = Some v →
  loadFails env i = true →
  ∃ w' evs,
    mergeStep fuel env all s (i, mergeId) w = (w', Throw (QueueItemFailed i))
    ∧ failedQueueIndices w' = failedQueueIndices w ∪ {[ i ]}
    ∧ processing w' = processing w
    ∧ errorMessage w' = errorMessage w
    ∧ saved w' = saved w
    ∧ trace w' = trace w ++ evs ++ [EvMarkFailed i]
    ∧ Forall (λ ev, ev = EvFetch (url v) ∨ ∃ u, ev = EvSetSrc u) evs.
Proof.
  intros Hfind Hfail. unfold mergeStep. rewrite Hfind.
  destruct (mergeEntry_load_fails fuel env s i mergeId v w Hfail)
    as (w1 & e & evs & Hrun & (Hp & Hm & Hf & Hs) & Htr & Hevs).
  unfold try_catch. rewrite Hrun.
  unfold bind, modify, emit, throw. simpl.
  do 2 eexists. split; [reflexivity|]. simpl.
  rewrite Hp, Hm, Hf, Hs, Htr. rewrite <- app_assoc. done.
Qed.

Lemma catchBlock_run (src : nat) (e : Error) (w : World) :
  ∃ w', catchBlock src e w = (w', Ok tt)
        ∧ processing w' = false
        ∧ errorMessage w' = Some (MessageOf e)
        ∧ failedQueueIndices w' = failedQueueIndices w
        ∧ saved w' = saved w
        ∧ emitsR releases w w'.
Proof.
  pose proof (emits_catchBlock src e w) as Hem.
  unfold catchBlock in *. unfold bind at 1 in Hem. unfold bind at 1.
  unfold modify at 1 in Hem. unfold modify at 1.
  unfold bind at 1 in Hem. unfold bind at 1.
  unfold modify at 1 in Hem. unfold modify at 1.
  set (w1 := setErrorMessage (Some (MessageOf e)) (setProcessing false w)) in *.
  pose proof (cleanup_Ok src w1) as Hok.
  pose proof (sameUi_cleanup src w1) as (Hp & Hm & Hf & Hs).
  destruct ((cleanupAudio >> revokeTempMergeBlobs >> emit (EvRestore src)) w1)
    as [w' r].
  simpl in *. subst r. exists w'. split; [done|].
  rewrite Hp, Hm, Hf, Hs. done.
Qed.

Lemma started_fields (env : Env) (w : World) :
  processing (started env w) = true
  ∧ failedQueueIndices (started env w) = ∅
  ∧ saved (started env w) = saved w
  ∧ trace (started env w) = trace w ++ [EvPause]
  ∧ tempMergeBlobs (started env w) = []
  ∧ urls (started env w) = urls w.
Proof. done. Qed.

(** C1. Take a run in which the canvas and the recorder are set up, the
    main segment plays to its end, and every queue entry before index [i]
    is either missing or is fetched, loaded and played.  If entry [i] is in
    the history and its clip cannot be loaded (the fetch fails, the element
    reports an error, or the load times out), then [processVideo] returns
    with: [i] the one index in [failedQueueIndices]; [processing] false and
    the error message of entry [i] set; no call of [onSave]; and after the
    mark for [i] the trace holds only the releases of the [catch] block:
    nothing more is fetched, loaded, played or rendered, the recorder is
    not stopped. *)
Theorem load_failure_aborts_export
    (fuel : nat) (env : Env) (ed : Editor) (w : World)
    (src i : nat) (mergeId : string) (v : GeneratedVideo) :
  localVideoSrc ed = Some src →
  env_refs env = true →
  setupOk env = true →
  segmentResolves fuel (env_playback env 0) (trimEnd ed) = true →
  forallb (entryOk fuel env (allVideos ed))
    (take i (indexed (mergeQueue ed))) = true →
  mergeQueue ed !! i = Some mergeId →
  findVideo (allVideos ed) mergeId = Some v →
  loadFails env i = true →
  (processVideo fuel env ed w).2 = Ok tt
  ∧ failedQueueIndices (processVideo fuel env ed w).1 = {[ i ]}
  ∧ processing (processVideo fuel env ed w).1 = false
  ∧ errorMessage (processVideo fuel env ed w).1
    = Some (MessageOf (QueueItemFailed i))
  ∧ saved (processVideo fuel env ed w).1 = saved w
  ∧ ∃ pre attempt post,
      trace (processVideo fuel env ed w).1
      = trace w ++ pre ++ attempt ++ EvMarkFailed i :: post
      ∧ Forall (λ ev, ev = EvFetch (url v) ∨ ∃ u, ev = EvSetSrc u) attempt
      ∧ Forall releases post.
Proof.
  intros Hsrc Hrefs Hsetup Hmain Hprefix Hq Hfind Hfail.
  rewrite (processVideo_started _ _ _ src) by done.
  destruct (started_fields env w) as (_ & Hf1 & Hs1 & Ht1 & _).
  set (w1 := started env w) in *. clearbody w1.
  (* the canvas and the recorder *)
  destruct (prepareCanvas_Ok env src w1 Hsetup) as [w2 Hprep].
  pose proof (sameUi_prepareCanvas env src w1) as Hui2.
  pose proof (emits_prepareCanvas env src w1) as (e2 & He2 & _).
  rewrite Hprep in Hui2, He2. simpl in Hui2, He2.
  destruct (startRecorder_Ok env (forceEven (env_videoWidth env))
              (forceEven (env_videoHeight env)) w2 Hsetup)
    as (w3 & s & Hstart & _).
  pose proof (sameUi_startRecorder env (forceEven (env_videoWidth env))
                (forceEven (env_videoHeight env)) w2) as Hui3.
  pose proof (emits_startRecorder env (forceEven (env_videoWidth env))
                (forceEven (env_videoHeight env)) w2) as (e3 & He3 & _).
  rewrite Hstart in Hui3, He3. simpl in Hui3, He3.
  (* the main segment *)
  set (w4 := setTrace (trace w3 ++ [EvSeek (trimStart ed)]) w3).
  destruct (playSegment_Ok fuel (env_playback env 0) src (trimStart ed)
              (trimStart ed) (trimEnd ed) (textOverlay ed) (width s) (height s)
              w4 Hmain (Qabs_self_near _)) as [w5 Hplay].
  pose proof (sameUi_playSegment fuel (env_playback env 0) src (trimStart ed)
                (trimStart ed) (trimEnd ed) (textOverlay ed) (width s)
                (height s) w4) as Hui5.
  pose proof (emits_playSegment fuel (env_playback env 0) src (trimStart ed)
                (trimStart ed) (trimEnd ed) (textOverlay ed) (width s)
                (height s) w4) as (e5 & He5 & _).
  rewrite Hplay in Hui5, He5. simpl in Hui5, He5.
  (* the queue up to entry i, then entry i *)
  destruct (mergeLoop_Ok fuel env (allVideos ed) s _ w5 Hprefix)
    as (w6 & Hloop6 & Hui6 & (e6 & He6 & _)).
  destruct (mergeStep_load_fails fuel env (allVideos ed) s i mergeId v w6
              Hfind Hfail)
    as (w7 & e7 & Hstep & Hf7 & Hp7 & Hm7 & Hs7 & He7 & Hatt).
  assert (Hloop : mergeLoop fuel env (allVideos ed) s
                    (indexed (mergeQueue ed)) w5
                  = (w7, Throw (QueueItemFailed i))).
  { rewrite <- (take_drop_middle (indexed (mergeQueue ed)) i (i, mergeId))
      by (by apply indexed_lookup).
    rewrite mergeLoop_app, (bind_Ok _ _ _ _ _ Hloop6). cbn [mergeLoop].
    by rewrite (bind_Throw _ _ _ _ _ Hstep). }
  assert (Htry : tryBlock fuel env ed src w1
                 = (w7, Throw (QueueItemFailed i))).
  { unfold tryBlock. rewrite (bind_Ok _ _ _ _ _ Hprep).
    unfold recordSequence. simpl fst. simpl snd.
    rewrite (bind_Ok _ _ _ _ _ Hstart).
    rewrite (bind_Ok (emit (EvSeek (trimStart ed))) _ w3 w4 tt) by reflexivity.
    rewrite (bind_Ok _ _ _ _ _ Hplay).
    by rewrite (bind_Throw _ _ _ _ _ Hloop). }
  (* the catch block *)
  destruct (catchBlock_run src (QueueItemFailed i) w7)
    as (w8 & Hcatch & Hp8 & Hm8 & Hf8 & Hs8 & (e8 & He8 & Hrel)).
  unfold try_catch. rewrite Htry, Hcatch. simpl.
  destruct Hui2 as (_ & _ & Hf2 & Hs2). destruct Hui3 as (_ & _ & Hf3 & Hs3).
  destruct Hui5 as (_ & _ & Hf5 & Hs5). destruct Hui6 as (_ & _ & Hf6 & Hs6).
  simpl in Hf5, Hs5.
  split; [done|]. split.
  { rewrite Hf8, Hf7, Hf6, Hf5, Hf3, Hf2, Hf1. by rewrite (left_id_L ∅ (∪)). }
  split; [done|]. split; [done|]. split.
  { rewrite Hs8, Hs7, Hs6, Hs5, Hs3, Hs2, Hs1. done. }
  exists ([EvPause] ++ e2 ++ e3 ++ [EvSeek (trimStart ed)] ++ e5 ++ e6), e7, e8.
  split; [|done].
  rewrite He8, He7, He6, He5. simpl. rewrite He3, He2, Ht1.
  repeat (rewrite <- app_assoc; simpl). reflexivity.
Qed.

Lemma load_failure_aborts_export_witness :
  (processVideo 10 sampleEnv queueEditor idleWorld).2 = Ok tt
  ∧ failedQueueIndices (processVideo 10 sampleEnv queueEditor idleWorld).1
    = {[ 2%nat ]}
  ∧ processing (processVideo 10 sampleEnv queueEditor idleWorld).1 = false
  ∧ errorMessage (processVideo 10 sampleEnv queueEditor idleWorld).1
    = Some (MessageOf (QueueItemFailed 2))
  ∧ saved (processVideo 10 sampleEnv queueEditor idleWorld).1 = saved idleWorld
  ∧ ∃ pre attempt post,
      trace (processVideo 10 sampleEnv queueEditor idleWorld).1
      = trace idleWorld ++ pre ++ attempt ++ EvMarkFailed 2 :: post
      ∧ Forall (λ ev, ev = EvFetch (url (clip "3" "16:9"))
                      ∨ ∃ u, ev = EvSetSrc u) attempt
      ∧ Forall releases post.
Proof.
  apply (load_failure_aborts_export 10 sampleEnv queueEditor idleWorld
           0 2 "3" (clip "3" "16:9")); reflexivity.
Defined.

(** *** Object URLs and the audio graph *)

Ltac tracked_prim :=
  split;
  [ let u := fresh "u" in
    let Hu := fresh "Hu" in
    intros u Hu; left; simpl in *;
    first [ exact Hu | by apply lookup_delete_is_Some in Hu as [_ ?] ]
  | by split ].

Ltac tracked_auto :=
  unfold onCanvas, revokeObjectURL, cleanupAudio, revokeTempMergeBlobs, emit;
  steps_auto ltac:(tracked_prim).

Lemma tracked_onFrame fuel frames k src end_ text width height :
  steps urlsTracked (onFrame fuel frames k src end_ text width height).
Proof.
  revert k. induction fuel as [|fuel IH]; intros k; simpl.
  - tracked_auto.
  - tracked_auto; apply IH.
Qed.
#[global] Hint Resolve tracked_onFrame : steps.

Lemma tracked_playSegment fuel pb src position start end_ text width height :
  steps urlsTracked
    (playSegment fuel pb src position start end_ text width height).
Proof. unfold playSegment, startPlayback. tracked_auto. Qed.
#[global] Hint Resolve tracked_playSegment : steps.

(** A fetched clip gets its URL and the URL is listed at once. *)
Lemma tracked_mergeEntry fuel env s i mergeId v :
  steps urlsTracked (mergeEntry fuel env s i mergeId v).
Proof.
  intros w. unfold mergeEntry.
  destruct (env_fetch env i) as [body|st|].
  - erewrite bind_Ok by reflexivity. erewrite bind_Ok by reflexivity.
    match goal with |- urlsTracked _ (?m ?w2).1 =>
      assert (Hrest : steps urlsTracked m);
      [|trans w2; [|apply Hrest]]
    end.
    { unfold loadMergeVideo. tracked_auto. }
    simpl. split; [|split; simpl; set_solver].
    intros u Hu. simpl in Hu. apply lookup_insert_is_Some in Hu as [<-|[_ Hu]].
    + right. left. simpl. set_solver.
    + by left.
  - erewrite bind_Throw by reflexivity. tracked_prim.
  - erewrite bind_Throw by reflexivity. tracked_prim.
Qed.
#[global] Hint Resolve tracked_mergeEntry : steps.

Lemma tracked_mergeLoop fuel env all s entries :
  steps urlsTracked (mergeLoop fuel env all s entries).
Proof.
  induction entries as [|entry entries IH]; simpl.
  - tracked_auto.
  - apply steps_bind; [apply _| |by intros _].
    unfold mergeStep. tracked_auto.
Qed.
#[global] Hint Resolve tracked_mergeLoop : steps.

(** The output blob gets its URL and the URL is handed to [onSave]. *)
Lemma tracked_onstop mimeType : steps urlsTracked (onstop mimeType).
Proof.
  intros w. rewrite onstop_cases.
  destruct (chunks w) as [|c cs]; [reflexivity|]. cbv zeta.
  destruct (blob_size _ <? 1000)%N; [reflexivity|]. simpl.
  split; [|split; simpl; set_solver].
  intros u Hu. simpl in Hu. apply lookup_insert_is_Some in Hu as [<-|[_ Hu]].
  - right. right. simpl. set_solver.
  - by left.
Qed.
#[global] Hint Resolve tracked_onstop : steps.

Lemma tracked_finish env mimeType : steps urlsTracked (finish env mimeType).
Proof. unfold finish, ondataavailable. tracked_auto. Qed.
#[global] Hint Resolve tracked_finish : steps.

Lemma tracked_prepareCanvas env src : steps urlsTracked (prepareCanvas env src).
Proof. unfold prepareCanvas. tracked_auto. Qed.
#[global] Hint Resolve tracked_prepareCanvas : steps.

Lemma tracked_startRecorder env wd ht :
  steps urlsTracked (startRecorder env wd ht).
Proof. unfold startRecorder. tracked_auto. Qed.
#[global] Hint Resolve tracked_startRecorder : steps.

Lemma tracked_tryBlock fuel env ed src :
  steps urlsTracked (tryBlock fuel env ed src).
Proof. unfold tryBlock, recordSequence. tracked_auto. Qed.

Lemma revoke_effect (l : list nat) (w : World) :
  audio (forEach revokeObjectURL l w).1 = audio w
  ∧ tempMergeBlobs (forEach revokeObjectURL l w).1 = tempMergeBlobs w
  ∧ saved (forEach revokeObjectURL l w).1 = saved w
  ∧ ∀ u, is_Some (urls (forEach revokeObjectURL l w).1 !! u) →
         is_Some (urls w !! u) ∧ u ∉ l.
Proof.
  revert w. induction l as [|u0 l IH]; intros w.
  - simpl. split; [done|]. split; [done|]. split; [done|].
    intros u Hlive. split; [done|]. apply not_elem_of_nil.
  - cbn [forEach]. erewrite bind_Ok by reflexivity.
    match goal with |- context [forEach revokeObjectURL l ?w1] =>
      destruct (IH w1) as (Ha & Ht & Hs & Hu)
    end.
    rewrite Ha, Ht, Hs.
    split; [done|]. split; [done|]. split; [done|].
    intros u Hlive. apply Hu in Hlive as [Hlive Hl]. simpl in Hlive.
    apply lookup_delete_is_Some in Hlive as [Hne Hlive].
    split; [done|]. apply not_elem_of_cons. split; [congruence|done].
Qed.

Lemma cleanup_effect (src : nat) (w : World) :
  let w' := ((cleanupAudio >> revokeTempMergeBlobs >> emit (EvRestore src)) w).1 in
  audio w' = Closed
  ∧ tempMergeBlobs w' = tempMergeBlobs w
  ∧ saved w' = saved w
  ∧ ∀ u, is_Some (urls w' !! u) →
         is_Some (urls w !! u) ∧ u ∉ tempMergeBlobs w.
Proof.
  assert (Hc : ∃ wc, cleanupAudio w = (wc, Ok tt)
                     ∧ audio wc = Closed
                     ∧ tempMergeBlobs wc = tempMergeBlobs w
                     ∧ saved wc = saved w ∧ urls wc = urls w).
  { unfold cleanupAudio, bind, gets.
    destruct (audio w) eqn:Ha; simpl; eexists; (split; [reflexivity|]); done. }
  destruct Hc as (wc & Hrun & Ha & Ht & Hs & Hu).
  intros w'. subst w'. rewrite (bind_Ok _ _ _ _ _ Hrun).
  pose proof (forEach_revoke_Ok (tempMergeBlobs wc) wc) as Hok.
  destruct (revoke_effect (tempMergeBlobs wc) wc) as (Ha2 & Ht2 & Hs2 & Hu2).
  destruct (forEach revokeObjectURL (tempMergeBlobs wc) wc) as [w2 r] eqn:Hfe.
  simpl in Hok, Ha2, Ht2, Hs2, Hu2. subst r.
  assert (Hrv : (revokeTempMergeBlobs >> emit (EvRestore src)) wc
                = (setTrace (trace w2 ++ [EvRestore src]) w2, Ok tt)).
  { unfold revokeTempMergeBlobs, bind, gets. by rewrite Hfe. }
  rewrite Hrv. simpl.
  rewrite Ha2, Ht2, Hs2, Ha, Ht, Hs.
  split; [done|]. split; [done|]. split; [done|].
  intros u Hlive. apply Hu2 in Hlive as [Hlive Hnot].
  by rewrite <- Hu, <- Ht.
Qed.

Lemma catchBlock_unfold (src : nat) (e : Error) (w : World) :
  catchBlock src e w
  = (cleanupAudio >> revokeTempMergeBlobs >> emit (EvRestore src))
      (setErrorMessage (Some (MessageOf e)) (setProcessing false w)).
Proof. reflexivity. Qed.

Lemma bind_inv_Ok {A B} (m : Job A) (k : A → Job B) w w' (b : B) :
  bind m k w = (w', Ok b) → ∃ w1 a, m w = (w1, Ok a) ∧ k a w1 = (w', Ok b).
Proof.
  intros H. apply bind_inv in H as [H|[(e & _ & H)|[_ H]]]; [done| |];
    discriminate H.
Qed.

(** Peels the first job off a run that returned, and carries the relation
    to the world it left. *)
Ltac peel H Hacc :=
  let w1 := fresh "w" in
  let a := fresh "a" in
  let Hm := fresh "Hm" in
  let Hs := fresh "Hs" in
  apply bind_inv_Ok in H as (w1 & a & Hm & H);
  match type of Hm with
  | ?m ?w0 = _ =>
      assert (Hs : steps urlsTracked m) by tracked_auto;
      specialize (Hs w0); rewrite Hm in Hs; simpl in Hs;
      assert (Hacc' := transitivity Hacc Hs);
      clear Hacc Hs Hm; rename Hacc' into Hacc
  end.

(** A [try] block that returns has ended with the cleanup. *)
Lemma tryBlock_Ok_inv fuel env ed src w w' :
  tryBlock fuel env ed src w = (w', Ok tt) →
  ∃ w0, urlsTracked w w0
        ∧ w' = ((cleanupAudio >> revokeTempMergeBlobs >> emit (EvRestore src))
                  w0).1.
Proof.
  intros H. unfold tryBlock in H.
  assert (Hacc : urlsTracked w w) by reflexivity.
  peel H Hacc. unfold recordSequence in H.
  do 9 peel H Hacc.
  eexists. split; [exact Hacc|]. by rewrite H.
Qed.

Lemma released_after_cleanup (src : nat) (w1 w0 w0' : World) :
  urlsTracked w1 w0 →
  urls w0' = urls w0 → tempMergeBlobs w0' = tempMergeBlobs w0 →
  saved w0' = saved w0 →
  let w' := ((cleanupAudio >> revokeTempMergeBlobs >> emit (EvRestore src))
               w0').1 in
  audio w' = Closed
  ∧ Forall (λ u, urls w' !! u = None) (tempMergeBlobs w')
  ∧ ∀ u, is_Some (urls w' !! u) → is_Some (urls w1 !! u) ∨ u ∈ saved w'.
Proof.
  intros (Hlive & _ & _) Hu Ht Hs w'.
  destruct (cleanup_effect src w0') as (Ha' & Ht' & Hs' & Hu'). fold w' in Ha', Ht', Hs', Hu'.
  split; [done|]. split.
  - apply Forall_forall. intros u Hin. apply eq_None_not_Some. intros Hsome.
    apply Hu' in Hsome as [_ Hnot]. apply Hnot. by rewrite <- Ht'.
  - intros u Hsome. apply Hu' in Hsome as [Hsome Hnot].
    rewrite Hu in Hsome. rewrite Ht in Hnot.
    destruct (Hlive u Hsome) as [Hold|[Htemp|Hsaved]]; [by left|done|].
    right. by rewrite Hs', Hs.
Qed.

(** C6, as the code has it.  Every run of [processVideo] that ends, by
    returning or through the [catch] block, releases what the job made for
    itself.  A run that stops before the [try] (no local source, or no
    video/canvas element) has created nothing.  Any other run ends with
    the audio context closed and with every URL of [tempMergeBlobs], the
    URLs created for the clips of the merge queue, revoked; an object URL
    that is live at the end was live before the run or is the output URL
    the run handed to [onSave]. *)
Theorem export_exit_releases_handles
    (fuel : nat) (env : Env) (ed : Editor) (w : World) :
  (processVideo fuel env ed w).2 ≠ Pending →
  (localVideoSrc ed = None ∨ env_refs env = false →
     urls (processVideo fuel env ed w).1 = urls w
     ∧ audio (processVideo fuel env ed w).1 = audio w
     ∧ trace (processVideo fuel env ed w).1 = trace w)
  ∧ (is_Some (localVideoSrc ed) → env_refs env = true →
     audio (processVideo fuel env ed w).1 = Closed
     ∧ Forall (λ u, urls (processVideo fuel env ed w).1 !! u = None)
         (tempMergeBlobs (processVideo fuel env ed w).1)
     ∧ ∀ u, is_Some (urls (processVideo fuel env ed w).1 !! u) →
            is_Some (urls w !! u)
            ∨ u ∈ saved (processVideo fuel env ed w).1).
Proof.
  intros Hexit. split.
  - intros Hearly. destruct (localVideoSrc ed) as [src|] eqn:Hsrc.
    + destruct Hearly as [?|Hrefs]; [done|].
      by rewrite (processVideo_no_refs _ _ _ src).
    + by rewrite processVideo_not_ready.
  - intros [src Hsrc] Hrefs.
    rewrite (processVideo_started _ _ _ src) in * by done.
    destruct (started_fields env w) as (_ & _ & Hs1 & _ & Ht1 & Hu1).
    set (w1 := started env w) in *. clearbody w1.
    destruct (try_catch (tryBlock fuel env ed src) (catchBlock src) w1)
      as [w' r] eqn:Hrun.
    simpl in *. rewrite <- Hu1.
    apply try_catch_inv in Hrun as [(e & wt & Htry & Hcatch)|[Htry Hnothrow]].
    + (* through the catch block *)
      pose proof (tracked_tryBlock fuel env ed src w1) as Htracked.
      rewrite Htry in Htracked. simpl in Htracked.
      rewrite catchBlock_unfold in Hcatch.
      pose proof (released_after_cleanup src w1 wt
                    (setErrorMessage (Some (MessageOf e))
                       (setProcessing false wt))
                    Htracked eq_refl eq_refl eq_refl) as Hrel.
      rewrite Hcatch in Hrel. exact Hrel.
    + (* the try block returned *)
      destruct r as [[]|e|]; [|by destruct (Hnothrow e)|done].
      apply tryBlock_Ok_inv in Htry as (w0 & Htracked & ->).
      exact (released_after_cleanup src w1 w0 w0 Htracked
               eq_refl eq_refl eq_refl).
Qed.

Lemma export_exit_releases_handles_witness :
  audio (processVideo 10 sampleEnv queueEditor idleWorld).1 = Closed
  ∧ Forall (λ u, urls (processVideo 10 sampleEnv queueEditor idleWorld).1 !! u
                 = None)
      (tempMergeBlobs (processVideo 10 sampleEnv queueEditor idleWorld).1)
  ∧ ∀ u, is_Some (urls (processVideo 10 sampleEnv queueEditor idleWorld).1 !! u) →
         is_Some (urls idleWorld !! u)
         ∨ u ∈ saved (processVideo 10 sampleEnv queueEditor idleWorld).1.
Proof.
  apply (proj2 (export_exit_releases_handles 10 sampleEnv queueEditor idleWorld
                  ltac:(vm_compute; discriminate))).
  - by eexists.
  - reflexivity.
Defined.

(** *** Two complete runs *)

(** Entry 2 cannot be fetched: the run ends in the error state, the URL
    made for entry 0 is revoked, nothing is saved. *)
Example failing_run :
  let w' := (processVideo 10 sampleEnv queueEditor idleWorld).1 in
  trace w'
  = [ EvPause; EvAudioResume; EvDrawInitial 1280 720; EvCaptureStream 30;
      EvConnectAudio; EvAddAudioTrack; EvRecorderCreate "video/webm";
      EvRecorderStart 100;
      EvSeek 2; EvSeek 2; EvPlay; EvRenderFrame "HELLO"; EvRenderFrame "HELLO";
      EvRenderFrame "HELLO"; EvRenderFrame "HELLO"; EvPause;
      EvFetch "https://example.test/3"; EvSetSrc 1; EvSeek 0; EvPlay;
      EvRenderFrame EmptyString; EvRenderFrame EmptyString;
      EvRenderFrame EmptyString; EvPause;
      EvFetch "https://example.test/3"; EvMarkFailed 2;
      EvAudioClose; EvRevoke 1; EvRestore 0 ]
  ∧ saved w' = []
  ∧ tempMergeBlobs w' = [ 1%nat ]
  ∧ map (λ u, blob_size <$> urls w' !! u) [ 0%nat; 1%nat; 2%nat ]
    = [ Some 500000%N; None; None ].
Proof. vm_compute. done. Qed.

(** Every fetch is answered: the missing entry 1 is passed over, entries 0
    and 2 are rendered, the output is saved under URL 3, and URLs 1 and 2
    of the two clips are revoked. *)
Example complete_run :
  let w' := (processVideo 10 goodEnv queueEditor idleWorld).1 in
  (processVideo 10 goodEnv queueEditor idleWorld).2 = Ok tt
  ∧ List.filter (λ ev, match ev with
                       | EvFetch _ | EvSetSrc _ | EvMarkFailed _
                       | EvRecorderStop | EvSave _ | EvRevoke _ => true
                       | _ => false
                       end) (trace w')
    = [ EvFetch "https://example.test/3"; EvSetSrc 1;
        EvFetch "https://example.test/3"; EvSetSrc 2;
        EvRecorderStop; EvSave 3; EvRevoke 1; EvRevoke 2 ]
  ∧ saved w' = [ 3%nat ]
  ∧ failedQueueIndices w' = ∅
  ∧ errorMessage w' = None
  ∧ processing w' = false
  ∧ audio w' = Closed
  ∧ connected w' = false
  ∧ tempMergeBlobs w' = [ 1%nat; 2%nat ]
  ∧ map (λ u, blob_size <$> urls w' !! u) [ 0%nat; 1%nat; 2%nat; 3%nat ]
    = [ Some 500000%N; None; None; Some 1300%N ].
Proof. vm_compute. done. Qed.

(** C6, as stated, fails on a run that succeeds: URL 3 is created during
    the job (it names the output blob; before the run no URL from 1 on
    existed), it is handed to [onSave], and it is still live when
    [processVideo] returns. *)
Lemma output_url_outlives_successful_run :
  (processVideo 10 goodEnv queueEditor idleWorld).2 = Ok tt
  ∧ nextUrl idleWorld = 1%nat
  ∧ urls idleWorld !! 3%nat = None
  ∧ saved (processVideo 10 goodEnv queueEditor idleWorld).1 = [ 3%nat ]
  ∧ blob_size <$> urls (processVideo 10 goodEnv queueEditor idleWorld).1 !! 3%nat
    = Some 1300%N.
Proof. vm_compute. done. Qed.

(** *** The run does start encoding *)

(** The initial draw paints the frame the source element shows. *)
Lemma prepareCanvas_draws (env : Env) (src : nat) (w : World) :
  match (prepareCanvas env src w).2 with
  | Ok size =>
      ctx_ops (canvas (prepareCanvas env src w).1)
      = ctx_ops (canvas w)
        ++ [ DrawImage {| frame_src := src; frame_time := env_position env |}
               0 0 (inject_Z size.1) (inject_Z size.2) ]
  | _ => True
  end.
Proof.
  unfold prepareCanvas.
  destruct (env_audioSuspended env);
    destruct ((forceEven (env_videoWidth env) <=? 0)%Z
              || (forceEven (env_videoHeight env) <=? 0)%Z) eqn:Hdim;
    destruct (env_context2d env) eqn:Hctx;
    unfold when, bind, modify, emit, throw, onCanvas, ret; simpl;
    rewrite ?Hdim; simpl; rewrite ?Hctx; simpl; done.
Qed.

Lemma startRecorder_trace (env : Env) (wd ht : Z) (w : World) :
  setupOk env = true →
  ∃ mid, trace (startRecorder env wd ht w).1
         = trace w ++ EvCaptureStream 30 :: mid ++ [EvRecorderStart 100].
Proof.
  unfold setupOk. rewrite !andb_true_iff.
  intros [[_ Hsrc] Hrec]. unfold startRecorder. rewrite Hsrc, Hrec.
  destruct (env_audioTrack env); simpl.
  - exists [ EvConnectAudio; EvAddAudioTrack;
             EvRecorderCreate (getSupportedMimeType (env_isTypeSupported env)) ].
    repeat (rewrite <- app_assoc; simpl). reflexivity.
  - exists [ EvConnectAudio;
             EvRecorderCreate (getSupportedMimeType (env_isTypeSupported env)) ].
    repeat (rewrite <- app_assoc; simpl). reflexivity.
Qed.

(** When the setup goes through, the stream is captured and the recorder
    started, so the order of the first frame is not a vacuous matter. *)
Lemma encoding_starts fuel env ed src w :
  localVideoSrc ed = Some src → env_refs env = true → setupOk env = true →
  ∃ pre mid post,
    trace (processVideo fuel env ed w).1
    = trace w ++ pre ++ EvCaptureStream 30 :: mid
        ++ EvRecorderStart 100 :: post.
Proof.
  intros Hsrc Hrefs Hsetup.
  rewrite (processVideo_started _ _ _ src) by done.
  destruct (started_fields env w) as (_ & _ & _ & Ht1 & _).
  set (w1 := started env w) in *. clearbody w1.
  destruct (prepareCanvas_Ok env src w1 Hsetup) as [w2 Hprep].
  pose proof (emits_prepareCanvas env src w1) as (e2 & He2 & _).
  rewrite Hprep in He2. simpl in He2.
  destruct (startRecorder_Ok env (forceEven (env_videoWidth env))
              (forceEven (env_videoHeight env)) w2 Hsetup)
    as (w3 & s & Hstart & _).
  destruct (startRecorder_trace env (forceEven (env_videoWidth env))
              (forceEven (env_videoHeight env)) w2 Hsetup) as [mid Hmid].
  rewrite Hstart in Hmid. simpl in Hmid.
  unfold try_catch, tryBlock. rewrite (bind_Ok _ _ _ _ _ Hprep).
  unfold recordSequence. simpl fst. simpl snd.
  rewrite (bind_Ok _ _ _ _ _ Hstart).
  match goal with |- context [bind ?m ?k w3] =>
    assert (HK : steps (emitsR (λ _, True)) (bind m k)) by emits_auto;
    specialize (HK w3); destruct (bind m k w3) as [w4 r]
  end.
  destruct HK as (e4 & He4 & _). simpl in He4.
  assert (Hend : ∃ e5, trace (match r with
                              | Throw e => catchBlock src e w4
                              | _ => (w4, r)
                              end).1 = trace w4 ++ e5).
  { destruct r as [[]|e|]; [exists []; by rewrite app_nil_r| |
                            exists []; by rewrite app_nil_r].
    destruct (emits_catchBlock src e w4) as (e5 & He5 & _). eauto. }
  destruct Hend as [e5 He5].
  exists (EvPause :: e2), mid, (e4 ++ e5).
  destruct r as [[]|e|]; rewrite He5, He4, Hmid, He2, Ht1;
    repeat (rewrite <- app_assoc; simpl); reflexivity.
Qed.

(** *** A queue of missing entries *)

Lemma filter_resolvable_nil (all : list GeneratedVideo)
    (entries : list (nat * string)) :
  Forall (λ entry, findVideo all entry.2 = None) entries →
  List.filter (resolvable all) entries = [].
Proof.
  induction 1 as [|entry entries Hnone _ IH]; [done|].
  simpl. unfold resolvable at 1. by rewrite Hnone.
Qed.

Lemma indexed_Forall (P : string → Prop) (q : list string) :
  Forall P q → Forall (λ entry : nat * string, P entry.2) (indexed q).
Proof.
  intros Hq. apply Forall_forall. intros [i mergeId] Hin.
  apply list_elem_of_lookup in Hin as [j Hj].
  unfold indexed in Hj. rewrite list_lookup_imap in Hj.
  destruct (q !! j) as [x|] eqn:Hx; [|done].
  simpl in Hj. inversion Hj; subst. simpl.
  rewrite Forall_forall in Hq. apply Hq. by eapply list_elem_of_lookup_2.
Qed.

Lemma bind_congr {A B} (m1 m2 : Job A) (k : A → Job B) w :
  m1 w = m2 w → bind m1 k w = bind m2 k w.
Proof. unfold bind. by intros ->. Qed.

(** An export whose queue holds only ids that are not in the history runs
    exactly as the export with an empty queue. *)
Lemma queue_of_missing_like_empty fuel env ed q w :
  Forall (λ mergeId, findVideo (allVideos ed) mergeId = None) q →
  processVideo fuel env (setMergeQueue q ed) w
  = processVideo fuel env (setMergeQueue [] ed) w.
Proof.
  intros Hq. unfold processVideo. simpl.
  destruct (localVideoSrc ed) as [src|]; [|done].
  destruct (negb (env_refs env)); [done|].
  apply bind_ext. intros _ w1. unfold try_catch.
  assert (Htry : tryBlock fuel env (setMergeQueue q ed) src w1
                 = tryBlock fuel env (setMergeQueue [] ed) src w1);
    [|by rewrite Htry].
  unfold tryBlock. apply bind_ext. intros size w2.
  unfold recordSequence. simpl.
  apply bind_ext. intros s w3. apply bind_ext. intros _ w4.
  apply bind_ext. intros _ w5. apply bind_congr.
  rewrite mergeLoop_filter, filter_resolvable_nil; [done|].
  by apply (indexed_Forall (λ mergeId, findVideo (allVideos ed) mergeId = None)).
Qed.

(** *** The run ends *)

Lemma settles_ret {A} (a : A) : settles (ret a).
Proof. by intros w. Qed.

Lemma settles_throw {A} (e : Error) : settles (@throw A e).
Proof. by intros w. Qed.

Lemma settles_gets {A} (f : World → A) : settles (gets f).
Proof. by intros w. Qed.

Lemma settles_modify (f : World → World) : settles (modify f).
Proof. by intros w. Qed.

Lemma settles_createObjectURL (b : Blob) : settles (createObjectURL b).
Proof. by intros w. Qed.

Lemma settles_bind {A B} (m : Job A) (k : A → Job B) :
  settles m → (∀ a, settles (k a)) → settles (bind m k).
Proof.
  intros Hm Hk w. unfold bind. specialize (Hm w).
  destruct (m w) as [w1 [a|e|]]; simpl in *; [apply Hk|done|done].
Qed.

Lemma settles_try_catch {A} (m : Job A) (h : Error → Job A) :
  settles m → (∀ e, settles (h e)) → settles (try_catch m h).
Proof.
  intros Hm Hh w. unfold try_catch. specialize (Hm w).
  destruct (m w) as [w1 [a|e|]]; simpl in *; [done|apply Hh|done].
Qed.

Lemma settles_forEach {A} (f : A → Job unit) (l : list A) :
  (∀ x, settles (f x)) → settles (forEach f l).
Proof.
  intros Hf. induction l as [|x l IH]; simpl; [apply settles_ret|].
  apply settles_bind; [apply Hf|by intros _].
Qed.

Create HintDb settles discriminated.

Ltac settles_auto :=
  unfold onCanvas, revokeObjectURL, cleanupAudio, revokeTempMergeBlobs, emit,
         when;
  repeat first
    [ solve [auto 1 with settles nocore]
    | apply settles_ret | apply settles_throw | apply settles_gets
    | apply settles_modify | apply settles_createObjectURL
    | apply settles_bind; [|intros ?]
    | apply settles_try_catch; [|intros ?]
    | apply settles_forEach; intros ?
    | match goal with
      | |- settles (if ?b then _ else _) => destruct b
      | |- settles (match ?x with _ => _ end) => destruct x
      end ].

Lemma playSegment_settles fuel pb src position start end_ text wd ht :
  playable fuel pb end_ →
  (Qabs (position - start) <= tenth)%Q →
  settles (playSegment fuel pb src position start end_ text wd ht).
Proof.
  intros Hplay Hnear w. destruct (pb_play pb) eqn:Hpb.
  - destruct Hplay as [Hplay|Hres]; [congruence|].
    destruct (playSegment_Ok fuel pb src position start end_ text wd ht w
                Hres Hnear) as [w' ->]. done.
  - unfold playSegment, startPlayback.
    apply Qle_bool_iff in Hnear. rewrite Hnear, Hpb. done.
Qed.

Lemma finish_settles env mimeType : settles (finish env mimeType).
Proof. unfold finish, onstop, ondataavailable. settles_auto. Qed.
#[global] Hint Resolve finish_settles : settles.

Lemma mergeEntry_settles fuel env s i mergeId v :
  (∀ d, env_load env i = LoadedData d →
        playable fuel (env_playback env (S i)) d) →
  settles (mergeEntry fuel env s i mergeId v).
Proof.
  intros Hplay w. unfold mergeEntry.
  destruct (env_fetch env i) as [body|st|].
  - erewrite bind_Ok by reflexivity. erewrite bind_Ok by reflexivity.
    destruct (env_load env i) as [d| |] eqn:Hload.
    + erewrite bind_Ok by reflexivity.
      apply playSegment_settles; [by apply Hplay|by vm_compute].
    + by erewrite bind_Throw by reflexivity.
    + by erewrite bind_Throw by reflexivity.
  - by erewrite bind_Throw by reflexivity.
  - by erewrite bind_Throw by reflexivity.
Qed.

Lemma mergeLoop_settles fuel env all s entries :
  (∀ i d, env_load env i = LoadedData d →
          playable fuel (env_playback env (S i)) d) →
  settles (mergeLoop fuel env all s entries).
Proof.
  intros Hplay. induction entries as [|[i mergeId] entries IH]; simpl.
  - settles_auto.
  - apply settles_bind; [|by intros _].
    unfold mergeStep. destruct (findVideo all mergeId) as [v|]; [|settles_auto].
    apply settles_try_catch; [|intros e; settles_auto].
    apply mergeEntry_settles. intros d. apply Hplay.
Qed.

Lemma tryBlock_settles fuel env ed src :
  playbackEnds fuel env ed → settles (tryBlock fuel env ed src).
Proof.
  intros [Hmain Hqueue]. unfold tryBlock, recordSequence.
  apply settles_bind; [unfold prepareCanvas; settles_auto|intros size].
  apply settles_bind; [unfold startRecorder; settles_auto|intros s].
  apply settles_bind; [settles_auto|intros _].
  apply settles_bind;
    [apply playSegment_settles; [done|apply Qabs_self_near]|intros _].
  apply settles_bind; [by apply mergeLoop_settles|intros _].
  settles_auto.
Qed.

(** [processVideo] never leaks an exception, and when every segment is
    playable within [fuel] callbacks it returns. *)
Lemma processVideo_returns fuel env ed w :
  (∀ e, (processVideo fuel env ed w).2 ≠ Throw e)
  ∧ (playbackEnds fuel env ed → (processVideo fuel env ed w).2 = Ok tt).
Proof.
  destruct (localVideoSrc ed) as [src|] eqn:Hsrc.
  2: { by rewrite processVideo_not_ready. }
  destruct (env_refs env) eqn:Hrefs.
  2: { by rewrite (processVideo_no_refs _ _ _ src). }
  rewrite (processVideo_started _ _ _ src) by done.
  set (w1 := started env w). clearbody w1. unfold try_catch.
  split.
  - intros e. destruct (tryBlock fuel env ed src w1) as [w2 [[]|e2|]]; try done.
    destruct (catchBlock_run src e2 w2) as (w3 & -> & _). done.
  - intros Hends. pose proof (tryBlock_settles fuel env ed src Hends w1) as Hs.
    destruct (tryBlock fuel env ed src w1) as [w2 [[]|e2|]]; try done.
    destruct (catchBlock_run src e2 w2) as (w3 & -> & _). done.
Qed.

(** * Further properties of the editor and of the export *)

(** ** The merge queue as a list *)

Lemma filterIndex_ext {A} (keep1 keep2 : nat → bool) (k : nat) (l : list A) :
  (∀ index, (k ≤ index)%nat → keep1 index = keep2 index) →
  filterIndex keep1 k l = filterIndex keep2 k l.
Proof.
  revert k. induction l as [|x l IH]; intros k Hk; [done|].
  simpl. rewrite (Hk k) by lia.
  rewrite (IH (S k)); [done|]. intros index Hle. apply Hk. lia.
Qed.

Lemma filterIndex_all {A} (keep : nat → bool) (k : nat) (l : list A) :
  (∀ index, (k ≤ index)%nat → keep index = true) →
  filterIndex keep k l = l.
Proof.
  revert k. induction l as [|x l IH]; intros k Hk; [done|].
  simpl. rewrite (Hk k) by lia. f_equal. apply IH.
  intros index Hle. apply Hk. lia.
Qed.

Lemma filterIndex_delete {A} (i k : nat) (l : list A) :
  filterIndex (λ index, negb (index =? k + i)%nat) k l = delete i l.
Proof.
  revert i k. induction l as [|x l IH]; intros i k; [done|].
  simpl. destruct i as [|i].
  - rewrite Nat.add_0_r, Nat.eqb_refl. simpl.
    apply filterIndex_all. intros index Hle.
    apply negb_true_iff, Nat.eqb_neq. lia.
  - assert (Hk : (k =? k + S i)%nat = false) by (apply Nat.eqb_neq; lia).
    rewrite Hk. simpl. f_equal. rewrite <- (IH i (S k)).
    apply filterIndex_ext. intros index _. by rewrite Nat.add_succ_r.
Qed.

(** X1. [handleRemoveFromQueue] is the JavaScript filter by index: it
    drops the entry at [indexToRemove] and keeps the others in order (the
    entries behind it move up by one); an index beyond the queue changes
    nothing; and removing the last entry right after [handleAddToQueue]
    appended an id gives the queue back. *)
Theorem remove_from_queue_drops_one_entry
    (indexToRemove : nat) (selectedId : string) (ed : Editor) :
  mergeQueue (handleRemoveFromQueue indexToRemove ed)
  = filterIndex (λ index, negb (index =? indexToRemove)%nat) 0 (mergeQueue ed)
  ∧ (∀ j, mergeQueue (handleRemoveFromQueue indexToRemove ed) !! j
          = if (j <? indexToRemove)%nat then mergeQueue ed !! j
            else mergeQueue ed !! S j)
  ∧ ((length (mergeQueue ed) ≤ indexToRemove)%nat →
     mergeQueue (handleRemoveFromQueue indexToRemove ed) = mergeQueue ed)
  ∧ (truthy selectedId = true →
     mergeQueue (handleRemoveFromQueue (length (mergeQueue ed))
                   (handleAddToQueue selectedId ed))
     = mergeQueue ed).
Proof.
  split; [|split; [|split]].
  - simpl. symmetry. apply (filterIndex_delete indexToRemove 0).
  - intros j. simpl. destruct (j <? indexToRemove)%nat eqn:Hj.
    + apply Nat.ltb_lt in Hj. by apply list_lookup_delete_lt.
    + apply Nat.ltb_ge in Hj. by apply list_lookup_delete_ge.
  - intros Hlen. simpl. rewrite delete_take_drop.
    rewrite take_ge by done. rewrite drop_ge by lia. apply app_nil_r.
  - intros Hs. unfold handleAddToQueue. rewrite Hs. simpl.
    rewrite delete_middle. apply app_nil_r.
Qed.

(** ** Trim controls, continued *)

Lemma onChange_duration (c : TrimControl) (ed : Editor) :
  duration (onChange c ed) = duration ed.
Proof.
  destruct c as [v|v|v|v|v]; simpl; try done.
  by destruct (Qle_bool (trimStart ed + v) (duration ed)).
Qed.

Lemma reachable_duration (ed0 ed : Editor) :
  reachable ed0 ed → duration ed = duration ed0.
Proof.
  induction 1 as [|ed c _ IH _]; [done|]. by rewrite onChange_duration.
Qed.

Lemma onChange_bounds (c : TrimControl) (ed : Editor) :
  sliderValue ed c → trimBounds ed → trimBounds (onChange c ed).
Proof.
  unfold trimBounds, tenth. intros Hc (H0 & Hs & He).
  destruct c as [v|v|v|v|v]; simpl in *.
  - destruct (Q.min_spec v (trimEnd ed - (1 # 10))) as [[? Hm]|[? Hm]];
      destruct (Q.max_spec 0 (Qmin v (trimEnd ed - (1 # 10))))
        as [[? Hx]|[? Hx]]; rewrite Hx; repeat split; lra.
  - destruct (Q.max_spec v (trimStart ed + (1 # 10))) as [[? Hm]|[? Hm]];
      destruct (Q.min_spec (duration ed) (Qmax v (trimStart ed + (1 # 10))))
        as [[? Hx]|[? Hx]]; rewrite Hx; repeat split; lra.
  - destruct (Qle_bool (trimStart ed + v) (duration ed)) eqn:Hle; simpl.
    + apply Qle_bool_iff in Hle. done.
    + done.
  - destruct Hc as [Hv0 Hvd]. done.
  - destruct Hc as [Hv0 Hvd].
    destruct (Q.max_spec v (trimStart ed)) as [[? Hx]|[? Hx]]; rewrite Hx;
      repeat split; lra.
Qed.

(** X2. Whatever the five trim controls are used for, in any order, the
    trim points stay inside the clip: from a state with
    [0 <= trimStart <= duration] and [trimEnd <= duration], every state
    the controls lead to has the same duration and again
    [0 <= trimStart <= duration] and [trimEnd <= duration]. *)
Theorem trim_controls_stay_inside_clip (ed0 ed : Editor) :
  trimBounds ed0 → reachable ed0 ed →
  trimBounds ed ∧ duration ed = duration ed0.
Proof.
  intros Hb Hreach. split; [|by apply reachable_duration].
  induction Hreach as [|ed c _ IH Hc]; [done|]. by apply onChange_bounds.
Qed.

Lemma trim_controls_stay_inside_clip_witness :
  trimBounds (onChange (EndSlider 0) loadedEditor)
  ∧ duration (onChange (EndSlider 0) loadedEditor) = duration loadedEditor.
Proof.
  apply (trim_controls_stay_inside_clip loadedEditor).
  - vm_compute. repeat split; discriminate.
  - apply reach_change; [constructor|].
    vm_compute. split; discriminate.
Defined.



(** X4. The first [loadedmetadata] event of a clip of at least 0.1 s sets
    [duration] and [trimEnd] to the clip's duration and so establishes the
    trim invariant; once the duration is set, a later [loadedmetadata]
    event (the element also loads the clips of the merge queue during an
    export) changes nothing, whatever the trim controls did in between. *)
Theorem first_metadata_sets_trim_range
    (v : GeneratedVideo) (all : list GeneratedVideo) (dur later : Q)
    (ed : Editor) :
  (tenth <= dur)%Q →
  reachable (handleLoadedMetadata dur (mountEditor v all)) ed →
  trimInvariant (handleLoadedMetadata dur (mountEditor v all))
  ∧ duration (handleLoadedMetadata dur (mountEditor v all)) = dur
  ∧ trimStart (handleLoadedMetadata dur (mountEditor v all)) = 0%Q
  ∧ trimEnd (handleLoadedMetadata dur (mountEditor v all)) = dur
  ∧ handleLoadedMetadata later ed = ed.
Proof.
  unfold tenth. intros Hdur Hreach.
  assert (Hed : handleLoadedMetadata dur (mountEditor v all)
                = {| video := v; allVideos := all; localVideoSrc := None;
                     duration := dur; trimStart := 0; trimEnd := dur;
                     textOverlay := EmptyString; mergeQueue := [] |}) by done.
  rewrite Hed in *. simpl. split; [|split; [done|split; [done|split; [done|]]]].
  - unfold trimInvariant, tenth. simpl. repeat split; lra.
  - apply reachable_duration in Hreach. simpl in Hreach.
    unfold handleLoadedMetadata.
    destruct (Qeq_bool (duration ed) 0) eqn:Hz; [|done].
    apply Qeq_bool_iff in Hz. rewrite Hreach in Hz. lra.
Qed.

Lemma first_metadata_sets_trim_range_witness :
  let ed := handleLoadedMetadata 10 (mountEditor (clip "1" "16:9") []) in
  trimInvariant ed
  ∧ duration ed = 10%Q
  ∧ trimStart ed = 0%Q
  ∧ trimEnd ed = 10%Q
  ∧ handleLoadedMetadata 3 (onChange (StartSlider 4) ed)
    = onChange (StartSlider 4) ed.
Proof.
  apply (first_metadata_sets_trim_range (clip "1" "16:9") [] 10 3).
  - vm_compute. discriminate.
  - apply (reach_change _ _ (StartSlider 4)); [constructor|].
    vm_compute. split; discriminate.
Defined.

(** ** The merge queue and the history *)

(** X5. A queue that starts empty and is only changed through the
    selector (which offers the placeholder and the compatible videos) and
    the remove buttons holds nothing but ids of compatible videos: history
    videos with another id than the main clip and the same aspect
    ratio. *)
Theorem queue_built_in_the_editor_is_compatible
    (actions : list QueueAction) (ed : Editor) (mergeId : string) :
  mergeQueue ed = [] →
  Forall (offered ed) actions →
  mergeId ∈ mergeQueue (foldl (flip queueAction) ed actions) →
  ∃ v, v ∈ allVideos ed ∧ id v = mergeId ∧ id v ≠ id (video ed)
       ∧ aspectRatio v = aspectRatio (video ed).
Proof.
  intros Hempty Hoff Hin.
  assert (Hc : mergeId ∈ map id (compatibleVideos ed)).
  { apply (queue_stays_compatible actions ed Hoff); [|done].
    rewrite Hempty. intros m Hm. by apply elem_of_nil in Hm. }
  apply list_elem_of_fmap in Hc as (v & -> & Hv).
  apply compatibleVideos_elem in Hv as (Hall & Hid & Hratio). by exists v.
Qed.

Lemma queue_built_in_the_editor_is_compatible_witness :
  ∃ v, v ∈ allVideos sampleEditor ∧ id v = "3"
       ∧ id v ≠ id (video sampleEditor)
       ∧ aspectRatio v = aspectRatio (video sampleEditor).
Proof.
  apply (queue_built_in_the_editor_is_compatible
           [ Select "3"; Select EmptyString; Remove 0; Select "3" ]
           sampleEditor "3").
  - reflexivity.
  - vm_compute. repeat constructor.
  - vm_compute. constructor.
Defined.



(** ** Closing the editor *)

(** X7. The close button asks for confirmation whenever the merge queue
    is not empty, in particular right after an id was appended; an editor
    that was only mounted and received its metadata closes at once, given
    that trimming the empty string leaves it empty. *)
Theorem close_asks_only_after_changes
    (trim : string → string) (ed : Editor) (selectedId : string)
    (v : GeneratedVideo) (all : list GeneratedVideo) (dur : Q) :
  trim EmptyString = EmptyString →
  (mergeQueue ed ≠ [] → handleClose trim ed = ShowExitConfirmation)
  ∧ (truthy selectedId = true →
     handleClose trim (handleAddToQueue selectedId ed) = ShowExitConfirmation)
  ∧ handleClose trim (mountEditor v all) = OnClose
  ∧ handleClose trim (handleLoadedMetadata dur (mountEditor v all)) = OnClose.
Proof.
  intros Htrim.
  assert (Hq : ∀ ed', mergeQueue ed' ≠ [] →
                      handleClose trim ed' = ShowExitConfirmation).
  { intros ed' Hne. unfold handleClose.
    destruct (mergeQueue ed') as [|m q]; [done|]. simpl.
    by rewrite !orb_true_r. }
  split; [apply Hq|]. split.
  - intros Hs. apply Hq. unfold handleAddToQueue. rewrite Hs. simpl.
    by destruct (mergeQueue ed).
  - split.
    + unfold handleClose. simpl. by rewrite Htrim.
    + assert (Hed : handleLoadedMetadata dur (mountEditor v all)
                    = {| video := v; allVideos := all; localVideoSrc := None;
                         duration := dur; trimStart := 0; trimEnd := dur;
                         textOverlay := EmptyString; mergeQueue := [] |})
        by done.
      rewrite Hed. unfold handleClose.
      cbn [duration trimStart trimEnd textOverlay mergeQueue].
      assert (Hnear : Qle_bool (Qabs (dur - dur)) tenth = true).
      { apply Qle_bool_iff, Qabs_self_near. }
      rewrite Hnear, Htrim. simpl. by rewrite andb_false_r.
Qed.

Lemma close_asks_only_after_changes_witness :
  (mergeQueue queueEditor ≠ [] →
   handleClose (λ s, s) queueEditor = ShowExitConfirmation)
  ∧ (truthy "3" = true →
     handleClose (λ s, s) (handleAddToQueue "3" queueEditor)
     = ShowExitConfirmation)
  ∧ handleClose (λ s, s) (mountEditor (clip "1" "16:9") []) = OnClose
  ∧ handleClose (λ s, s)
      (handleLoadedMetadata 10 (mountEditor (clip "1" "16:9") [])) = OnClose.
Proof.
  apply (close_asks_only_after_changes (λ s, s) queueEditor "3"
           (clip "1" "16:9") [] 10).
  reflexivity.
Defined.

(** ** Preview player *)

Lemma drawPreview_element (ed : Editor) (p : Preview) :
  isPlaying (drawPreview ed p) = isPlaying p
  ∧ el_currentTime (drawPreview ed p) = el_currentTime p
  ∧ el_paused (drawPreview ed p) = el_paused p
  ∧ el_src (drawPreview ed p) = el_src p.
Proof.
  unfold drawPreview.
  destruct (negb (canvasWidth p =? videoWidth p)%Z
            || negb (canvasHeight p =? videoHeight p)%Z);
    [destruct ((0 <? videoWidth p)%Z && (0 <? videoHeight p)%Z)|];
    match goal with
    | |- context [if ?b then _ else _] => by destruct b
    end.
Qed.

(** X8. The preview never keeps playing past the trim end.  After
    [handleTimeUpdate], a preview that is still playing stands before
    [trimEnd]; one that was playing at or after [trimEnd] has been paused
    and put back to [trimStart].  [togglePlay] on a stopped preview starts
    it, from [trimStart] if the element stood at or after [trimEnd], so
    with [trimStart < trimEnd] it starts before [trimEnd]; on a playing
    preview it pauses the element where it stands. *)
Theorem preview_stops_at_trim_end (ed : Editor) (p : Preview) :
  (isPlaying (handleTimeUpdate ed p) = true →
   isPlaying p = true
   ∧ (el_currentTime (handleTimeUpdate ed p) < trimEnd ed)%Q)
  ∧ (isPlaying p = true → (trimEnd ed <= el_currentTime p)%Q →
     isPlaying (handleTimeUpdate ed p) = false
     ∧ el_paused (handleTimeUpdate ed p) = true
     ∧ el_currentTime (handleTimeUpdate ed p) = trimStart ed)
  ∧ (isPlaying p = false →
     isPlaying (togglePlay ed p) = true
     ∧ el_paused (togglePlay ed p) = false
     ∧ ((trimStart ed < trimEnd ed)%Q →
        (el_currentTime (togglePlay ed p) < trimEnd ed)%Q))
  ∧ (isPlaying p = true →
     isPlaying (togglePlay ed p) = false
     ∧ el_paused (togglePlay ed p) = true
     ∧ el_currentTime (togglePlay ed p) = el_currentTime p).
Proof.
  destruct (drawPreview_element ed (setCurrentTime (el_currentTime p) p))
    as (Hplay & Htime & Hpaused & _).
  simpl in Hplay, Htime, Hpaused.
  split; [|split; [|split]].
  - unfold handleTimeUpdate.
    destruct (isPlaying p) eqn:Hp; simpl.
    + destruct (Qle_bool (trimEnd ed) (el_currentTime p)) eqn:Hend; [done|].
      intros _. split; [done|]. rewrite Htime.
      apply Qnot_le_lt. intros Hle. apply Qle_bool_iff in Hle. congruence.
    + rewrite Hplay. done.
  - intros Hp Hend. apply Qle_bool_iff in Hend.
    unfold handleTimeUpdate. rewrite Hp, Hend. done.
  - intros Hp. unfold togglePlay. rewrite Hp. simpl.
    split; [done|]. split.
    + by destruct (Qle_bool (trimEnd ed) (el_currentTime p)).
    + intros Hlt.
      destruct (Qle_bool (trimEnd ed) (el_currentTime p)) eqn:Hend; [done|].
      simpl. apply Qnot_le_lt. intros Hle.
      apply Qle_bool_iff in Hle. congruence.
  - intros Hp. unfold togglePlay. rewrite Hp. done.
Qed.

(** ** Saving an edit *)

(** X9. Opening a video in the editor and saving the edit:
    [handleEditorSave] puts the new video at the head of the history,
    leaves the older entries as they were and closes the editor.  The new
    video has the decimal timestamp as id and the aspect ratio of the
    edited video, so when the edited video is opened again the new one is
    offered for merging (unless both have the same id), next to everything
    offered before.  Saves at different timestamps get different ids. *)
Theorem saved_edit_joins_history
    (url : string) (timestamp : N) (app : App) (v : GeneratedVideo) :
  truthy (aspectRatio v) = true →
  ∃ newVideo,
    videos (handleEditorSave url timestamp (onEditRequest v app)).1
    = newVideo :: videos app
    ∧ id newVideo = toString timestamp
    ∧ aspectRatio newVideo = aspectRatio v
    ∧ selectedVideoToEdit
        (handleEditorSave url timestamp (onEditRequest v app)).1 = None
    ∧ activeTab (handleEditorSave url timestamp (onEditRequest v app)).1
      = TabCreate
    ∧ (∀ c, c ∈ compatibleVideos (mountEditor v (videos app)) →
            c ∈ compatibleVideos
                  (mountEditor v
                     (videos (handleEditorSave url timestamp
                                (onEditRequest v app)).1)))
    ∧ (toString timestamp ≠ id v →
       newVideo ∈ compatibleVideos
                    (mountEditor v
                       (videos (handleEditorSave url timestamp
                                  (onEditRequest v app)).1)))
    ∧ (∀ other, other ≠ timestamp → toString other ≠ id newVideo).
Proof.
  intros Hratio. unfold handleEditorSave, onEditRequest.
  cbn [selectedVideoToEdit videos outputDirHandle fst]. rewrite Hratio.
  eexists. split; [reflexivity|]. cbn [id aspectRatio].
  split; [done|]. split; [done|]. split; [done|]. split; [done|].
  split; [|split].
  - intros c Hc. apply compatibleVideos_elem in Hc as (Hin & Hid & Hr).
    apply compatibleVideos_elem. simpl in *. split; [by right|done].
  - intros Hne. apply compatibleVideos_elem. simpl. split; [by left|done].
  - intros other Hne Heq. apply Hne. unfold toString in Heq.
    by apply (inj pretty).
Qed.

Lemma saved_edit_joins_history_witness :
  ∃ newVideo,
    videos (handleEditorSave "blob:out" 1730000000000
              (onEditRequest (clip "1" "16:9") sampleApp)).1
    = newVideo :: videos sampleApp
    ∧ id newVideo = toString 1730000000000
    ∧ aspectRatio newVideo = aspectRatio (clip "1" "16:9")
    ∧ selectedVideoToEdit
        (handleEditorSave "blob:out" 1730000000000
           (onEditRequest (clip "1" "16:9") sampleApp)).1 = None
    ∧ activeTab (handleEditorSave "blob:out" 1730000000000
                   (onEditRequest (clip "1" "16:9") sampleApp)).1
      = TabCreate
    ∧ (∀ c, c ∈ compatibleVideos
                  (mountEditor (clip "1" "16:9") (videos sampleApp)) →
            c ∈ compatibleVideos
                  (mountEditor (clip "1" "16:9")
                     (videos (handleEditorSave "blob:out" 1730000000000
                                (onEditRequest (clip "1" "16:9")
                                   sampleApp)).1)))
    ∧ (toString 1730000000000 ≠ id (clip "1" "16:9") →
       newVideo ∈ compatibleVideos
                    (mountEditor (clip "1" "16:9")
                       (videos (handleEditorSave "blob:out" 1730000000000
                                  (onEditRequest (clip "1" "16:9")
                                     sampleApp)).1)))
    ∧ (∀ other, other ≠ 1730000000000%N → toString other ≠ id newVideo).
Proof.
  apply (saved_edit_joins_history "blob:out" 1730000000000 sampleApp
           (clip "1" "16:9")); reflexivity.
Defined.

(** ** The events of a segment and of the queue *)

Lemma emitsP_onFrame (P : Event → Prop) fuel frames k src end_ text wd ht :
  P EvPause → P (EvRenderFrame text) →
  steps (emitsR P) (onFrame fuel frames k src end_ text wd ht).
Proof.
  intros Hp Hr. revert k. induction fuel as [|fuel IH]; intros k; simpl.
  - emits_auto.
  - emits_auto; apply IH.
Qed.

Lemma emitsP_playSegment (P : Event → Prop)
    fuel pb src position start end_ text wd ht :
  (∀ ev, segmentEvent text ev → P ev) →
  steps (emitsR P) (playSegment fuel pb src position start end_ text wd ht).
Proof.
  intros HP. unfold playSegment, startPlayback.
  emits_auto;
    first [ apply emitsR_emit; by apply HP
          | apply emitsP_onFrame; by apply HP ].
Qed.

Lemma queueEvent_segment (ev : Event) :
  segmentEvent EmptyString ev → queueEvent ev.
Proof. by destruct ev. Qed.

Lemma emitsP_mergeEntry (P : Event → Prop) fuel env s i mergeId v :
  (∀ ev, queueEvent ev → P ev) →
  steps (emitsR P) (mergeEntry fuel env s i mergeId v).
Proof.
  intros HP.
  assert (Hplay : ∀ u d,
            steps (emitsR P)
              (playSegment fuel (env_playback env (S i)) u 0 0 d EmptyString
                 (width s) (height s))).
  { intros u d. apply emitsP_playSegment. intros ev Hev.
    by apply HP, queueEvent_segment. }
  unfold mergeEntry, fetchVideoAsBlobUrl, loadMergeVideo.
  repeat first
    [ apply Hplay
    | apply emitsR_emit; by apply HP
    | apply emitsR_createObjectURL
    | apply steps_ret; apply _
    | apply steps_throw; apply _
    | apply steps_bind; [apply _| |intros ?]
    | apply steps_modify; intros ?; same_trace
    | match goal with
      | |- steps _ (match ?x with _ => _ end) => destruct x
      end ].
Qed.

Lemma emitsP_mergeLoop (P : Event → Prop) fuel env all s entries :
  (∀ ev, queueEvent ev → P ev) →
  steps (emitsR P) (mergeLoop fuel env all s entries).
Proof.
  intros HP. induction entries as [|[i mergeId] entries IH]; simpl.
  - apply steps_ret; apply _.
  - apply steps_bind; [apply _| |by intros _].
    destruct (findVideo all mergeId) as [v|]; [|apply steps_ret; apply _].
    apply steps_try_catch; [apply _|by apply emitsP_mergeEntry|intros e].
    apply steps_bind; [apply _| |intros _].
    { apply steps_modify. intros w. same_trace. }
    apply steps_bind; [apply _| |intros _].
    { apply emitsR_emit. by apply HP. }
    apply steps_throw; apply _.
Qed.

(** X10. The clips of the merge queue are rendered without the caption.
    Whatever happens in the loop over the queue, the events it adds are
    fetches, source changes, seeks, [play()], [pause()], failure marks and
    frame renders, and every frame render carries the empty text; so the
    caption of the editor appears on the main segment only. *)
Theorem merged_clips_carry_no_caption
    (fuel : nat) (env : Env) (all : list GeneratedVideo) (s : Setup)
    (entries : list (nat * string)) (w : World) :
  ∃ evs,
    trace (mergeLoop fuel env all s entries w).1 = trace w ++ evs
    ∧ Forall queueEvent evs
    ∧ ∀ text, EvRenderFrame text ∈ evs → text = EmptyString.
Proof.
  destruct (emitsP_mergeLoop queueEvent fuel env all s entries (λ _ H, H) w)
    as (evs & Htrace & Hall).
  exists evs. split; [done|]. split; [done|].
  intros text Hin. rewrite Forall_forall in Hall. by apply Hall in Hin.
Qed.

(** ** What a segment paints *)

#[global] Instance paintsSegment_preorder src end_ text wd ht :
  PreOrder (paintsSegment src end_ text wd ht).
Proof.
  split.
  - intros w. exists []. by rewrite app_nil_r.
  - intros w1 w2 w3 (o1 & H1 & F1) (o2 & H2 & F2). exists (o1 ++ o2).
    split; [by rewrite H2, H1, app_assoc|by apply Forall_app].
Qed.

Ltac same_canvas := exists []; split; [by rewrite app_nil_r|constructor].

Lemma paints_render src end_ text wd ht (t : Q) :
  (t < end_)%Q →
  steps (paintsSegment src end_ text wd ht)
    (onCanvas (EvRenderFrame text)
       (λ ctx, renderFrame ctx {| frame_src := src; frame_time := t |} text
                 (inject_Z wd) (inject_Z ht))).
Proof.
  intros Ht. unfold onCanvas.
  apply steps_bind; [apply _| |intros _].
  - apply steps_modify. intros w.
    pose proof (renderFrame_ops (canvas w)
                  {| frame_src := src; frame_time := t |} text
                  (inject_Z wd) (inject_Z ht)) as Hops.
    eexists. split; [exact Hops|].
    constructor; [done|].
    destruct (truthy text) eqn:Htext; [|constructor].
    constructor; [done|]. constructor; [done|constructor].
  - apply steps_modify. intros w. same_canvas.
Qed.

Lemma paints_onFrame fuel frames k src end_ text wd ht :
  steps (paintsSegment src end_ text wd ht)
    (onFrame fuel frames k src end_ text wd ht).
Proof.
  revert k. induction fuel as [|fuel IH]; intros k; simpl.
  - apply steps_never; apply _.
  - destruct (Qle_bool end_ (currentTime (frames k))) eqn:Hend.
    + apply steps_bind; [apply _| |intros _; apply steps_ret; apply _].
      apply steps_modify. intros w. same_canvas.
    + apply steps_bind; [apply _| |intros _].
      * apply paints_render. apply Qnot_le_lt. intros Hle.
        apply Qle_bool_iff in Hle. congruence.
      * simpl. destruct (negb (paused (frames k)) && negb (ended (frames k)));
          apply IH.
Qed.

Lemma paints_playSegment fuel pb src position start end_ text wd ht :
  steps (paintsSegment src end_ text wd ht)
    (playSegment fuel pb src position start end_ text wd ht).
Proof.
  unfold playSegment, startPlayback.
  repeat first
    [ apply paints_onFrame
    | apply steps_throw; apply _
    | apply steps_never; apply _
    | apply steps_bind; [apply _| |intros ?]
    | apply steps_modify; intros ?; same_canvas
    | match goal with
      | |- steps _ (if ?b then _ else _) => destruct b
      end ].
Qed.

(** X11. A played segment never composites a frame at or past its end.
    Whatever the element does, everything [playSegment] paints on the
    processing canvas is: draws of frames of the given resource at a
    position before [end], scaled to the whole canvas, and strokes and
    fills of the given caption, which occur only when it is not empty. *)
Theorem segment_paints_only_frames_before_its_end
    (fuel : nat) (pb : Playback) (src : nat) (position start end_ : Q)
    (text : string) (wd ht : Z) (w : World) :
  ∃ ops,
    ctx_ops (canvas (playSegment fuel pb src position start end_ text wd ht w).1)
    = ctx_ops (canvas w) ++ ops
    ∧ Forall (segmentOp src end_ text wd ht) ops.
Proof. apply paints_playSegment. Qed.

(** ** Preview and export *)

Lemma renderFrame_painted ctx source text w h :
  ctx_ops (renderFrame ctx source text w h)
  = ctx_ops ctx ++ painted source text w h.
Proof. unfold painted. by rewrite !renderFrame_ops. Qed.

Lemma forceEven_even (n : Z) : Z.even n = true → forceEven n = n.
Proof.
  intros Hn. unfold forceEven. apply Z.even_spec in Hn as [m ->].
  rewrite Z.mul_comm, Z.rem_mul by done. done.
Qed.

Lemma onFrame_paints_first fuel frames k src end_ text wd ht w :
  Qle_bool end_ (currentTime (frames k)) = false →
  ∃ later,
    ctx_ops (canvas (onFrame (S fuel) frames k src end_ text wd ht w).1)
    = ctx_ops (canvas w)
      ++ painted {| frame_src := src; frame_time := currentTime (frames k) |}
           text (inject_Z wd) (inject_Z ht)
      ++ later.
Proof.
  intros Hend. cbn [onFrame]. rewrite Hend.
  erewrite bind_Ok by reflexivity. cbn [negb].
  match goal with
  | |- context [(if ?b then ?m else ?m') ?w1] =>
      assert (Hrest : (if b then m else m') w1 = m w1) by (by destruct b);
      rewrite Hrest;
      destruct (paints_onFrame fuel frames (S k) src end_ text wd ht w1)
        as (later & Hlater & _)
  end.
  exists later. rewrite Hlater. cbn [canvas setCanvas setTrace].
  by rewrite renderFrame_painted, app_assoc.
Qed.

(** X12. What the preview shows is what the export records.  For a video
    whose width and height are positive and even, [drawPreview] sizes the
    preview canvas to the video and its last paint operations are those of
    [renderFrame] for the shown frame and the caption at that size; a
    frame callback of the main segment that reads the same position,
    before [trimEnd], adds exactly the same operations to the processing
    canvas. *)
Theorem preview_paints_what_export_records
    (ed : Editor) (p : Preview) (fuel : nat) (frames : nat → MediaObs)
    (k : nat) (w : World) :
  (0 < videoWidth p)%Z → (0 < videoHeight p)%Z →
  Z.even (videoWidth p) = true → Z.even (videoHeight p) = true →
  el_currentTime p = currentTime (frames k) →
  Qle_bool (trimEnd ed) (currentTime (frames k)) = false →
  canvasWidth (drawPreview ed p) = videoWidth p
  ∧ canvasHeight (drawPreview ed p) = videoHeight p
  ∧ (∃ before,
       ctx_ops (previewCtx (drawPreview ed p))
       = before
         ++ painted {| frame_src := el_src p; frame_time := el_currentTime p |}
              (textOverlay ed)
              (inject_Z (videoWidth p)) (inject_Z (videoHeight p)))
  ∧ ∃ later,
      ctx_ops (canvas (onFrame (S fuel) frames k (el_src p) (trimEnd ed)
                         (textOverlay ed)
                         (forceEven (videoWidth p))
                         (forceEven (videoHeight p)) w).1)
      = ctx_ops (canvas w)
        ++ painted {| frame_src := el_src p; frame_time := el_currentTime p |}
             (textOverlay ed)
             (inject_Z (videoWidth p)) (inject_Z (videoHeight p))
        ++ later.
Proof.
  intros Hw Hh Hwe Hhe Htime Hend.
  rewrite (forceEven_even _ Hwe), (forceEven_even _ Hhe).
  assert (Hdraw : ∃ c,
            drawPreview ed p
            = setPreviewCtx
                (renderFrame c
                   {| frame_src := el_src p; frame_time := el_currentTime p |}
                   (textOverlay ed)
                   (inject_Z (videoWidth p)) (inject_Z (videoHeight p)))
                (setCanvasSize (videoWidth p) (videoHeight p) p)
              ∨ (canvasWidth p = videoWidth p ∧ canvasHeight p = videoHeight p
                 ∧ drawPreview ed p
                   = setPreviewCtx
                       (renderFrame c
                          {| frame_src := el_src p;
                             frame_time := el_currentTime p |}
                          (textOverlay ed)
                          (inject_Z (videoWidth p)) (inject_Z (videoHeight p)))
                       p)).
  { unfold drawPreview.
    assert (H0w : (0 <? videoWidth p)%Z = true) by by apply Z.ltb_lt.
    assert (H0h : (0 <? videoHeight p)%Z = true) by by apply Z.ltb_lt.
    assert (Hzw : (videoWidth p =? 0)%Z = false) by (apply Z.eqb_neq; lia).
    assert (Hzh : (videoHeight p =? 0)%Z = false) by (apply Z.eqb_neq; lia).
    destruct (canvasWidth p =? videoWidth p)%Z eqn:Hcw;
      destruct (canvasHeight p =? videoHeight p)%Z eqn:Hch; simpl;
      rewrite ?H0w, ?H0h; simpl; rewrite ?Hzw, ?Hzh; simpl.
    - apply Z.eqb_eq in Hcw, Hch. rewrite Hcw, Hch, Hzw, Hzh. simpl.
      exists (previewCtx p). right. done.
    - exists blankCanvas. by left.
    - exists blankCanvas. by left.
    - exists blankCanvas. by left. }
  destruct Hdraw as [c [Hd|(Hcw & Hch & Hd)]]; rewrite Hd; simpl;
    (split; [done|]); (split; [done|]);
    (split; [exists (ctx_ops c); apply renderFrame_painted|]).
  all: rewrite Htime; by apply onFrame_paints_first.
Qed.

Lemma preview_paints_what_export_records_witness :
  let p := samplePreview 0 2 1280 720 in
  canvasWidth (drawPreview sampleEditor p) = 1280%Z
  ∧ canvasHeight (drawPreview sampleEditor p) = 720%Z
  ∧ (∃ before,
       ctx_ops (previewCtx (drawPreview sampleEditor p))
       = before
         ++ painted {| frame_src := 0; frame_time := 2 |} "HELLO" 1280 720)
  ∧ ∃ later,
      ctx_ops (canvas (onFrame 3 (pb_frames (playsThrough 2)) 0 0 6 "HELLO"
                         (forceEven 1280) (forceEven 720) idleWorld).1)
      = ctx_ops (canvas idleWorld)
        ++ painted {| frame_src := 0; frame_time := 2 |} "HELLO" 1280 720
        ++ later.
Proof.
  apply (preview_paints_what_export_records sampleEditor
           (samplePreview 0 2 1280 720) 2 (pb_frames (playsThrough 2)) 0
           idleWorld); reflexivity.
Defined.

(** ** The order of the fetches *)

Lemma fetched_app (a b : list Event) : fetched (a ++ b) = fetched a ++ fetched b.
Proof. apply omap_app. Qed.

Lemma fetched_none (evs : list Event) :
  Forall (λ ev, ∀ u, ev ≠ EvFetch u) evs → fetched evs = [].
Proof.
  induction 1 as [|ev evs Hev _ IH]; [done|].
  unfold fetched in *. simpl. destruct ev; try done.
  match goal with H : ∀ u, EvFetch ?x ≠ EvFetch u |- _ => by destruct (H x) end.
Qed.

Lemma segmentEvent_not_fetch (text : string) (ev : Event) :
  segmentEvent text ev → ∀ u, ev ≠ EvFetch u.
Proof. by destruct ev. Qed.

(** A queue entry starts with its fetch and fetches nothing else. *)
Lemma mergeEntry_fetch_first fuel env s i mergeId v w :
  ∃ evs, trace (mergeEntry fuel env s i mergeId v w).1
         = trace w ++ EvFetch (url v) :: evs
         ∧ fetched evs = [].
Proof.
  unfold mergeEntry, fetchVideoAsBlobUrl. rewrite bind_assoc.
  erewrite bind_Ok by reflexivity.
  match goal with
  | |- context [bind ?m ?k ?w1] =>
      assert (Hrest : steps (emitsR (λ ev, ∀ u, ev ≠ EvFetch u)) (bind m k));
      [|destruct (Hrest w1) as (evs & Htrace & Hall)]
  end.
  { unfold loadMergeVideo.
    repeat first
      [ apply emitsP_playSegment; intros ev Hev;
        exact (segmentEvent_not_fetch _ _ Hev)
      | apply emitsR_emit; done
      | apply emitsR_createObjectURL
      | apply steps_ret; apply _
      | apply steps_throw; apply _
      | apply steps_bind; [apply _| |intros ?]
      | apply steps_modify; intros ?; same_trace
      | match goal with
        | |- steps _ (match ?x with _ => _ end) => destruct x
        end ]. }
  exists evs. split; [|by apply fetched_none].
  rewrite Htrace. cbn [trace setTrace]. by rewrite <- app_assoc.
Qed.

(** X13. The clips of the merge queue are fetched in queue order, each
    at most once per run.  The URLs fetched by the loop form a prefix of
    the URLs of the queue's resolvable entries, taken in queue order (the
    loop stops at the first entry that fails or stalls); when the loop
    returns, they are exactly those URLs. *)
Theorem queue_clips_are_fetched_in_order
    (fuel : nat) (env : Env) (all : list GeneratedVideo) (s : Setup)
    (entries : list (nat * string)) (w : World) :
  ∃ evs,
    trace (mergeLoop fuel env all s entries w).1 = trace w ++ evs
    ∧ fetched evs
      `prefix_of` omap (λ entry, url <$> findVideo all entry.2) entries
    ∧ ((mergeLoop fuel env all s entries w).2 = Ok tt →
       fetched evs = omap (λ entry, url <$> findVideo all entry.2) entries).
Proof.
  revert w. induction entries as [|[i mergeId] entries IH]; intros w.
  { exists []. simpl. rewrite app_nil_r. done. }
  cbn [omap list_omap snd].
  destruct (findVideo all mergeId) as [v|] eqn:Hfind; simpl fmap.
  - destruct (mergeEntry_fetch_first fuel env s i mergeId v w)
      as (evs1 & Ht1 & Hf1).
    destruct (mergeEntry fuel env s i mergeId v w) as [w1 r1] eqn:Hrun.
    simpl in Ht1. destruct r1 as [[]|e|].
    + assert (Hstep : mergeStep fuel env all s (i, mergeId) w = (w1, Ok tt)).
      { unfold mergeStep, try_catch. by rewrite Hfind, Hrun. }
      cbn [mergeLoop]. rewrite !(bind_Ok _ _ _ _ _ Hstep).
      destruct (IH w1) as (evs2 & Ht2 & Hpre & Hok).
      exists (EvFetch (url v) :: evs1 ++ evs2).
      split; [rewrite Ht2, Ht1; by rewrite <- app_assoc|].
      change (fetched (EvFetch (url v) :: evs1 ++ evs2))
        with (url v :: fetched (evs1 ++ evs2)).
      rewrite fetched_app, Hf1. simpl.
      split; [by apply prefix_cons|]. intros Hr. by rewrite (Hok Hr).
    + assert (Hstep : mergeStep fuel env all s (i, mergeId) w
                      = (setTrace (trace w1 ++ [EvMarkFailed i])
                           (setFailedQueueIndices (λ prev, prev ∪ {[ i ]}) w1),
                         Throw (QueueItemFailed i))).
      { unfold mergeStep, try_catch. by rewrite Hfind, Hrun. }
      cbn [mergeLoop]. rewrite !(bind_Throw _ _ _ _ _ Hstep).
      exists (EvFetch (url v) :: evs1 ++ [EvMarkFailed i]).
      split; [simpl; rewrite Ht1; by rewrite <- app_assoc|].
      change (fetched (EvFetch (url v) :: evs1 ++ [EvMarkFailed i]))
        with (url v :: fetched (evs1 ++ [EvMarkFailed i])).
      rewrite fetched_app, Hf1. simpl.
      split; [apply prefix_cons, prefix_nil|done].
    + assert (Hstep : mergeStep fuel env all s (i, mergeId) w = (w1, Pending)).
      { unfold mergeStep, try_catch. by rewrite Hfind, Hrun. }
      cbn [mergeLoop]. rewrite !(bind_Pending _ _ _ _ Hstep).
      exists (EvFetch (url v) :: evs1).
      split; [done|].
      change (fetched (EvFetch (url v) :: evs1)) with (url v :: fetched evs1).
      rewrite Hf1. split; [apply prefix_cons, prefix_nil|done].
  - assert (Hstep : mergeStep fuel env all s (i, mergeId) w = (w, Ok tt)).
    { unfold mergeStep. by rewrite Hfind. }
    cbn [mergeLoop]. rewrite !(bind_Ok _ _ _ _ _ Hstep). apply IH.
Qed.

(** ** Object URLs that were there before the export *)

#[global] Instance keepsOld_preorder (n : nat) : PreOrder (keepsOld n).
Proof.
  split.
  - intros w Hm. done.
  - intros w1 w2 w3 H12 H23 Hm.
    destruct (H12 Hm) as [Hm2 Hu2]. destruct (H23 Hm2) as [Hm3 Hu3].
    split; [done|]. intros u Hu. by rewrite Hu3, Hu2.
Qed.

Ltac keeps_prim :=
  let Hm := fresh "Hm" in intros Hm; split; [exact Hm|done].

Lemma revoke_keeps (n : nat) (l : list nat) (w : World) :
  Forall (λ u, (n ≤ u)%nat) l →
  nextUrl (forEach revokeObjectURL l w).1 = nextUrl w
  ∧ tempMergeBlobs (forEach revokeObjectURL l w).1 = tempMergeBlobs w
  ∧ ∀ u, (u < n)%nat → urls (forEach revokeObjectURL l w).1 !! u = urls w !! u.
Proof.
  revert w. induction l as [|u0 l IH]; intros w Hl; [done|].
  apply Forall_cons in Hl as [Hu0 Hl].
  cbn [forEach]. erewrite bind_Ok by reflexivity.
  match goal with |- context [forEach revokeObjectURL l ?w1] =>
    destruct (IH w1 Hl) as (Hn & Ht & Hu)
  end.
  rewrite Hn, Ht. split; [done|]. split; [done|].
  intros u Hlt. rewrite Hu by done. simpl.
  apply lookup_delete_ne. lia.
Qed.

Lemma keeps_revokeTempMergeBlobs (n : nat) :
  steps (keepsOld n) revokeTempMergeBlobs.
Proof.
  intros w [Hn Ht]. unfold revokeTempMergeBlobs, bind, gets.
  destruct (revoke_keeps n (tempMergeBlobs w) w Ht) as (Hn' & Ht' & Hu).
  destruct (forEach revokeObjectURL (tempMergeBlobs w) w) as [w' r].
  simpl in *. split; [|done]. split; [lia|by rewrite Ht'].
Qed.
#[global] Hint Resolve keeps_revokeTempMergeBlobs : steps.

Ltac keeps_auto :=
  unfold onCanvas, cleanupAudio, emit;
  steps_auto ltac:(keeps_prim).

Lemma keeps_onFrame n fuel frames k src end_ text wd ht :
  steps (keepsOld n) (onFrame fuel frames k src end_ text wd ht).
Proof.
  revert k. induction fuel as [|fuel IH]; intros k; simpl.
  - keeps_auto.
  - keeps_auto; apply IH.
Qed.
#[global] Hint Resolve keeps_onFrame : steps.

Lemma keeps_playSegment n fuel pb src position start end_ text wd ht :
  steps (keepsOld n) (playSegment fuel pb src position start end_ text wd ht).
Proof. unfold playSegment, startPlayback. keeps_auto. Qed.
#[global] Hint Resolve keeps_playSegment : steps.

(** The URL made for a fetched clip is new, and it is listed at once. *)
Lemma keeps_mergeEntry n fuel env s i mergeId v :
  steps (keepsOld n) (mergeEntry fuel env s i mergeId v).
Proof.
  intros w. unfold mergeEntry.
  destruct (env_fetch env i) as [body|st|].
  - erewrite bind_Ok by reflexivity. erewrite bind_Ok by reflexivity.
    match goal with |- keepsOld _ _ (?m ?w2).1 =>
      assert (Hrest : steps (keepsOld n) m);
      [|trans w2; [|apply Hrest]]
    end.
    { unfold loadMergeVideo. keeps_auto. }
    intros [Hn Ht]. unfold mintedFrom. simpl. split.
    + split; [lia|]. apply Forall_app. split; [done|]. by constructor.
    + intros u Hu. apply lookup_insert_ne. lia.
  - erewrite bind_Throw by reflexivity. keeps_prim.
  - erewrite bind_Throw by reflexivity. keeps_prim.
Qed.
#[global] Hint Resolve keeps_mergeEntry : steps.

Lemma keeps_mergeLoop n fuel env all s entries :
  steps (keepsOld n) (mergeLoop fuel env all s entries).
Proof.
  induction entries as [|entry entries IH]; simpl.
  - keeps_auto.
  - apply steps_bind; [apply _| |by intros _].
    unfold mergeStep. keeps_auto.
Qed.
#[global] Hint Resolve keeps_mergeLoop : steps.

Lemma keeps_onstop n mimeType : steps (keepsOld n) (onstop mimeType).
Proof.
  intros w. rewrite onstop_cases.
  destruct (chunks w) as [|c cs]; [reflexivity|]. cbv zeta.
  destruct (blob_size _ <? 1000)%N; [reflexivity|]. simpl.
  intros [Hn Ht]. unfold mintedFrom. simpl. split; [split; [lia|done]|].
  intros u Hu. apply lookup_insert_ne. lia.
Qed.
#[global] Hint Resolve keeps_onstop : steps.

Lemma keeps_tryBlock n fuel env ed src :
  steps (keepsOld n) (tryBlock fuel env ed src).
Proof.
  unfold tryBlock, recordSequence, prepareCanvas, startRecorder, finish,
    ondataavailable.
  keeps_auto.
Qed.

Lemma keeps_catchBlock n src e : steps (keepsOld n) (catchBlock src e).
Proof. unfold catchBlock. keeps_auto. Qed.

(** X14. An export touches none of the object URLs that existed when it
    started: every URL minted before the run, among them the URL of the
    main clip and the outputs of earlier exports, maps to the same blob
    afterwards, however the run ends.  The URLs the run revokes are URLs it
    created itself. *)
Theorem export_keeps_earlier_object_urls
    (fuel : nat) (env : Env) (ed : Editor) (w : World) (u : nat) :
  (u < nextUrl w)%nat →
  urls (processVideo fuel env ed w).1 !! u = urls w !! u.
Proof.
  intros Hu. unfold processVideo.
  destruct (localVideoSrc ed) as [src|]; [|done].
  destruct (negb (env_refs env)); [done|].
  erewrite bind_Ok by reflexivity.
  assert (Hrun : steps (keepsOld (nextUrl w))
                   (try_catch (tryBlock fuel env ed src) (catchBlock src))).
  { apply steps_try_catch; [apply _|apply keeps_tryBlock|].
    intros e. apply keeps_catchBlock. }
  destruct (Hrun (started env w)) as [_ Hold]; [by split|].
  by rewrite Hold.
Qed.

Lemma export_keeps_earlier_object_urls_witness :
  urls (processVideo 10 sampleEnv queueEditor idleWorld).1 !! 0%nat
  = urls idleWorld !! 0%nat.
Proof.
  apply (export_keeps_earlier_object_urls 10 sampleEnv queueEditor idleWorld 0).
  simpl. lia.
Defined.

(** ** How an export can end *)

#[global] Instance early_preorder : PreOrder early.
Proof.
  split.
  - intros w. split; reflexivity.
  - intros w1 w2 w3 [U1 E1] [U2 E2]. split; etrans; done.
Qed.

Lemma segmentEvent_beforeStop (text : string) (ev : Event) :
  segmentEvent text ev → beforeStop ev.
Proof. by destruct ev. Qed.

Lemma queueEvent_beforeStop (ev : Event) : queueEvent ev → beforeStop ev.
Proof. by destruct ev. Qed.

Lemma releases_beforeStop (ev : Event) : releases ev → beforeStop ev.
Proof. by destruct ev. Qed.

Lemma early_prepareCanvas env src : steps early (prepareCanvas env src).
Proof.
  apply steps_and; [apply sameUi_prepareCanvas|].
  unfold prepareCanvas. emits_auto.
Qed.

Lemma early_startRecorder env wd ht : steps early (startRecorder env wd ht).
Proof.
  apply steps_and; [apply sameUi_startRecorder|].
  unfold startRecorder. emits_auto.
Qed.

Lemma early_emit (ev : Event) : beforeStop ev → steps early (emit ev).
Proof.
  intros Hev. apply steps_and; [|by apply emitsR_emit].
  intros w. by repeat split.
Qed.

Lemma early_playSegment fuel pb src position start end_ text wd ht :
  steps early (playSegment fuel pb src position start end_ text wd ht).
Proof.
  apply steps_and; [apply sameUi_playSegment|].
  apply emitsP_playSegment, segmentEvent_beforeStop.
Qed.

Lemma early_mergeEntry fuel env s i mergeId v :
  steps early (mergeEntry fuel env s i mergeId v).
Proof.
  apply steps_and; [apply sameUi_mergeEntry|].
  apply emitsP_mergeEntry, queueEvent_beforeStop.
Qed.

Lemma bind_cases (R : relation World) {A B} (m : Job A) (k : A → Job B)
    w wt rt :
  steps R m → bind m k w = (wt, rt) →
  (∃ w1 a, R w w1 ∧ k a w1 = (wt, rt))
  ∨ (R w wt ∧ ∀ b, rt ≠ Ok b).
Proof.
  intros Hm H. specialize (Hm w).
  apply bind_inv in H as [(w1 & a & Hrun & H)|[(e & Hrun & ->)|[Hrun ->]]];
    rewrite Hrun in Hm; simpl in Hm.
  - left. eauto.
  - right. done.
  - right. done.
Qed.

Lemma early_tryOutcome all q w wt (rt : Res unit) :
  early w wt → (∀ b, rt ≠ Ok b) → tryOutcome all q w wt rt.
Proof.
  intros [(Hp & Hm & Hf & Hs) He] Hr. split; [done|].
  destruct rt as [b|e|]; [by destruct (Hr b)| |].
  - split; [done|]. split; [done|]. split; [by left|]. by right; right.
  - done.
Qed.

Lemma indexed_elem (q : list string) (i : nat) (mergeId : string) :
  (i, mergeId) ∈ indexed q → q !! i = Some mergeId.
Proof.
  intros Hin. apply list_elem_of_lookup in Hin as [j Hj].
  unfold indexed in Hj. rewrite list_lookup_imap in Hj.
  destruct (q !! j) as [x|] eqn:Hx; [|done].
  simpl in Hj. by inversion Hj; subst.
Qed.

(** The loop over the queue marks the entry that fails, and no other. *)
Lemma mergeLoop_outcome fuel env all s entries w :
  processing (mergeLoop fuel env all s entries w).1 = processing w
  ∧ errorMessage (mergeLoop fuel env all s entries w).1 = errorMessage w
  ∧ saved (mergeLoop fuel env all s entries w).1 = saved w
  ∧ emitsR beforeStop w (mergeLoop fuel env all s entries w).1
  ∧ match (mergeLoop fuel env all s entries w).2 with
    | Throw e =>
        ∃ i mergeId v,
          (i, mergeId) ∈ entries ∧ findVideo all mergeId = Some v
          ∧ e = QueueItemFailed i
          ∧ failedQueueIndices (mergeLoop fuel env all s entries w).1
            = failedQueueIndices w ∪ {[ i ]}
    | _ => failedQueueIndices (mergeLoop fuel env all s entries w).1
           = failedQueueIndices w
    end.
Proof.
  revert w. induction entries as [|[i mergeId] entries IH]; intros w.
  { simpl. split; [done|]. split; [done|]. split; [done|].
    split; [reflexivity|done]. }
  cbn [mergeLoop].
  destruct (findVideo all mergeId) as [v|] eqn:Hfind.
  - destruct (early_mergeEntry fuel env s i mergeId v w)
      as [(Hp & Hm & Hf & Hs) He].
    destruct (mergeEntry fuel env s i mergeId v w) as [w1 r1] eqn:Hrun.
    simpl in Hp, Hm, Hf, Hs, He. destruct r1 as [[]|e|].
    + assert (Hstep : mergeStep fuel env all s (i, mergeId) w = (w1, Ok tt)).
      { unfold mergeStep, try_catch. by rewrite Hfind, Hrun. }
      rewrite !(bind_Ok _ _ _ _ _ Hstep).
      destruct (IH w1) as (Hp2 & Hm2 & Hs2 & He2 & Hr2).
      rewrite Hp2, Hm2, Hs2.
      split; [done|]. split; [done|]. split; [done|].
      split; [by etrans|].
      destruct (mergeLoop fuel env all s entries w1).2 as [[]|e|].
      * congruence.
      * destruct Hr2 as (i' & m' & v' & Hin & Hfind' & -> & Hfail).
        exists i', m', v'. split; [by right|]. split; [done|].
        split; [done|]. by rewrite Hfail, Hf.
      * congruence.
    + assert (Hstep : mergeStep fuel env all s (i, mergeId) w
                      = (setTrace (trace w1 ++ [EvMarkFailed i])
                           (setFailedQueueIndices (λ prev, prev ∪ {[ i ]}) w1),
                         Throw (QueueItemFailed i))).
      { unfold mergeStep, try_catch. by rewrite Hfind, Hrun. }
      rewrite !(bind_Throw _ _ _ _ _ Hstep). simpl.
      split; [done|]. split; [done|]. split; [done|]. split.
      * destruct He as (evs & Ht & Hall). exists (evs ++ [EvMarkFailed i]).
        simpl. split; [by rewrite Ht, <- app_assoc|].
        apply Forall_app. split; [done|]. by constructor.
      * exists i, mergeId, v. split; [by left|]. by rewrite Hf.
    + assert (Hstep : mergeStep fuel env all s (i, mergeId) w = (w1, Pending)).
      { unfold mergeStep, try_catch. by rewrite Hfind, Hrun. }
      rewrite !(bind_Pending _ _ _ _ Hstep). simpl. done.
  - assert (Hstep : mergeStep fuel env all s (i, mergeId) w = (w, Ok tt)).
    { unfold mergeStep. by rewrite Hfind. }
    rewrite !(bind_Ok _ _ _ _ _ Hstep).
    destruct (IH w) as (Hp2 & Hm2 & Hs2 & He2 & Hr2).
    split; [done|]. split; [done|]. split; [done|]. split; [done|].
    destruct (mergeLoop fuel env all s entries w).2 as [[]|e|]; [done| |done].
    destruct Hr2 as (i' & m' & v' & Hin & Hfind' & -> & Hfail).
    exists i', m', v'. split; [by right|]. done.
Qed.

Lemma finish_outcome env mimeType w :
  processing (finish env mimeType w).1 = processing w
  ∧ errorMessage (finish env mimeType w).1 = errorMessage w
  ∧ failedQueueIndices (finish env mimeType w).1 = failedQueueIndices w
  ∧ match (finish env mimeType w).2 with
    | Ok _ => ∃ u, saved (finish env mimeType w).1 = saved w ++ [u]
    | Throw e =>
        (e = NoDataRecorded ∨ e = OutputTooSmall)
        ∧ saved (finish env mimeType w).1 = saved w
    | Pending => False
    end.
Proof.
  rewrite finish_unfold, onstop_cases.
  match goal with |- context [chunks ?w1] => set (w' := w1) end.
  assert (Hw : processing w' = processing w ∧ errorMessage w' = errorMessage w
               ∧ failedQueueIndices w' = failedQueueIndices w
               ∧ saved w' = saved w) by done.
  destruct Hw as (Hp & Hm & Hf & Hs). clearbody w'.
  destruct (chunks w') as [|c cs];
    [simpl; rewrite Hp, Hm, Hf, Hs; repeat split; auto|].
  cbv zeta.
  match goal with
  | |- context [(?a <? 1000)%N] => destruct (a <? 1000)%N
  end; simpl; rewrite Hp, Hm, Hf, Hs; repeat split; eauto.
Qed.

Lemma success_tail_run (src : nat) (w : World) :
  ∃ w', (modify (setProcessing false) >>
         modify (setConnected false) >> emit EvDisconnect >>
         cleanupAudio >> revokeTempMergeBlobs >> emit (EvRestore src)) w
        = (w', Ok tt)
        ∧ processing w' = false
        ∧ errorMessage w' = errorMessage w
        ∧ failedQueueIndices w' = failedQueueIndices w
        ∧ saved w' = saved w.
Proof.
  do 3 erewrite bind_Ok by reflexivity.
  match goal with |- context [_ ?w3 = _] =>
    pose proof (cleanup_Ok src w3) as Hok;
    pose proof (sameUi_cleanup src w3) as (Hp & Hm & Hf & Hs);
    destruct ((cleanupAudio >> revokeTempMergeBlobs >> emit (EvRestore src)) w3)
      as [w' r]
  end.
  simpl in *. subst r. exists w'. done.
Qed.

Lemma tryBlock_outcome fuel env ed src w wt rt :
  tryBlock fuel env ed src w = (wt, rt) →
  tryOutcome (allVideos ed) (mergeQueue ed) w wt rt.
Proof.
  intros H. unfold tryBlock in H.
  destruct (bind_cases early _ _ _ _ _ (early_prepareCanvas env src) H)
    as [(w1 & size & R1 & H1)|[R1 Hr]]; [|by apply early_tryOutcome].
  clear H. unfold recordSequence in H1.
  destruct (bind_cases early _ _ _ _ _ (early_startRecorder env _ _) H1)
    as [(w2 & s & R2 & H2)|[R2 Hr]];
    [|apply early_tryOutcome; [by etrans|done]].
  clear H1. assert (R12 := transitivity R1 R2). clear R1 R2.
  destruct (bind_cases early _ _ _ _ _
              (early_emit (EvSeek (trimStart ed)) I) H2)
    as [(w3 & [] & R3 & H3)|[R3 Hr]];
    [|apply early_tryOutcome; [by etrans|done]].
  clear H2. assert (R13 := transitivity R12 R3). clear R12 R3.
  destruct (bind_cases early _ _ _ _ _ (early_playSegment _ _ _ _ _ _ _ _ _) H3)
    as [(w4 & [] & R4 & H4)|[R4 Hr]];
    [|apply early_tryOutcome; [by etrans|done]].
  clear H3. assert (R14 := transitivity R13 R4). clear R13 R4.
  destruct R14 as [(Hp & Hm & Hf & Hs) He].
  (* the loop over the queue *)
  destruct (mergeLoop_outcome fuel env (allVideos ed) s
              (indexed (mergeQueue ed)) w4) as (Hp5 & Hm5 & Hs5 & He5 & Hr5).
  apply bind_inv in H4 as [(w5 & [] & Hloop & H5)|[(e & Hloop & ->)|[Hloop ->]]];
    rewrite Hloop in Hp5, Hm5, Hs5, He5, Hr5; simpl in Hp5, Hm5, Hs5, He5, Hr5.
  2: { (* an entry failed *)
    destruct Hr5 as (i & mergeId & v & Hin & Hfind & -> & Hfail).
    split; [congruence|]. split; [congruence|]. split; [congruence|]. split.
    - right. exists i, mergeId, v. split; [by apply indexed_elem|].
      split; [done|]. split; [done|]. by rewrite Hfail, Hf.
    - right. right. by etrans. }
  2: { split; [congruence|]. split; [congruence|]. split; [congruence|].
       split; [congruence|]. by etrans. }
  erewrite bind_Ok in H5 by reflexivity.
  match type of H5 with bind _ _ ?w6 = _ =>
    destruct (finish_outcome env (mimeType s) w6) as (Hp7 & Hm7 & Hf7 & Hr7)
  end.
  simpl in Hp7, Hm7, Hf7.
  apply bind_inv in H5 as [(w7 & [] & Hfin & H7)|[(e & Hfin & ->)|[Hfin ->]]];
    rewrite Hfin in Hp7, Hm7, Hf7, Hr7; simpl in Hp7, Hm7, Hf7, Hr7.
  - destruct (success_tail_run src w7) as (w' & Hrun & Hp8 & Hm8 & Hf8 & Hs8).
    rewrite Hrun in H7. inversion H7; subst wt rt.
    split; [congruence|]. split; [done|]. split; [congruence|].
    destruct Hr7 as [u Hu]. exists u. rewrite Hs8, Hu. simpl. congruence.
  - destruct Hr7 as [Hsink Hs7]. simpl in Hs7.
    split; [congruence|]. split; [congruence|]. split; [congruence|]. split.
    + left. congruence.
    + destruct Hsink; auto.
  - done.
Qed.

Lemma cleanup_last (src : nat) (w : World) :
  last (trace ((cleanupAudio >> revokeTempMergeBlobs >> emit (EvRestore src))
                 w).1)
  = Some (EvRestore src).
Proof.
  assert (Hc : ∃ wc, cleanupAudio w = (wc, Ok tt)).
  { unfold cleanupAudio, bind, gets. destruct (audio w); simpl; eauto. }
  destruct Hc as [wc Hrun]. rewrite (bind_Ok _ _ _ _ _ Hrun).
  pose proof (forEach_revoke_Ok (tempMergeBlobs wc) wc) as Hok.
  destruct (forEach revokeObjectURL (tempMergeBlobs wc) wc) as [w2 r] eqn:Hfe.
  simpl in Hok. subst r.
  assert (Hrv : (revokeTempMergeBlobs >> emit (EvRestore src)) wc
                = (setTrace (trace w2 ++ [EvRestore src]) w2, Ok tt)).
  { unfold revokeTempMergeBlobs, bind, gets. by rewrite Hfe. }
  rewrite Hrv. simpl. apply last_snoc.
Qed.

(** X15. An export is all or nothing.  Once the source is loaded and the
    elements exist, a run of [processVideo] that ends has switched
    [processing] off and pointed the element back to the main clip as its
    last action, and either shows no error, marks no queue entry and has
    called [onSave] exactly once, or shows an error and has not called
    [onSave].  It never throws.  A run that does not end (a segment that
    stalls) leaves [processing] on, shows no error and saves nothing. *)
Theorem export_saves_once_or_reports_an_error
    (fuel : nat) (env : Env) (ed : Editor) (src : nat) (w : World) :
  localVideoSrc ed = Some src → env_refs env = true →
  match (processVideo fuel env ed w).2 with
  | Ok _ =>
      processing (processVideo fuel env ed w).1 = false
      ∧ last (trace (processVideo fuel env ed w).1) = Some (EvRestore src)
      ∧ ((errorMessage (processVideo fuel env ed w).1 = None
          ∧ failedQueueIndices (processVideo fuel env ed w).1 = ∅
          ∧ ∃ u, saved (processVideo fuel env ed w).1 = saved w ++ [u])
         ∨ (∃ e, errorMessage (processVideo fuel env ed w).1
                 = Some (MessageOf e)
                 ∧ saved (processVideo fuel env ed w).1 = saved w))
  | Throw _ => False
  | Pending =>
      processing (processVideo fuel env ed w).1 = true
      ∧ errorMessage (processVideo fuel env ed w).1 = None
      ∧ failedQueueIndices (processVideo fuel env ed w).1 = ∅
      ∧ saved (processVideo fuel env ed w).1 = saved w
  end.
Proof.
  intros Hsrc Hrefs. rewrite (processVideo_started _ _ _ src) by done.
  assert (Hw1 : processing (started env w) = true
                ∧ errorMessage (started env w) = None
                ∧ failedQueueIndices (started env w) = ∅
                ∧ saved (started env w) = saved w) by done.
  destruct Hw1 as (Hp1 & Hm1 & Hf1 & Hs1).
  set (w1 := started env w) in *. clearbody w1. unfold try_catch.
  destruct (tryBlock fuel env ed src w1) as [wt rt] eqn:Htry.
  pose proof (tryBlock_outcome _ _ _ _ _ _ _ Htry) as [Hm Hout].
  destruct rt as [[]|e|].
  - destruct Hout as (Hp & Hf & u & Hu). simpl.
    split; [done|]. split.
    + apply tryBlock_Ok_inv in Htry as (w0 & _ & ->). apply cleanup_last.
    + left. split; [congruence|]. split; [congruence|].
      exists u. congruence.
  - destruct Hout as (Hp & Hs & _ & _).
    destruct (catchBlock_run src e wt) as (w' & Hrun & Hp' & Hm' & Hf' & Hs' & _).
    pose proof (cleanup_last src
                  (setErrorMessage (Some (MessageOf e))
                     (setProcessing false wt))) as Hlast.
    rewrite <- catchBlock_unfold in Hlast. rewrite Hrun in *. simpl in *.
    split; [done|]. split; [done|]. right. exists e. split; [done|].
    congruence.
  - destruct Hout as (Hp & Hs & Hf & _). simpl.
    split; [congruence|]. split; [congruence|]. split; congruence.
Qed.

Lemma export_saves_once_or_reports_an_error_witness :
  match (processVideo 10 goodEnv queueEditor idleWorld).2 with
  | Ok _ =>
      processing (processVideo 10 goodEnv queueEditor idleWorld).1 = false
      ∧ last (trace (processVideo 10 goodEnv queueEditor idleWorld).1)
        = Some (EvRestore 0)
      ∧ ((errorMessage (processVideo 10 goodEnv queueEditor idleWorld).1 = None
          ∧ failedQueueIndices (processVideo 10 goodEnv queueEditor idleWorld).1
            = ∅
          ∧ ∃ u, saved (processVideo 10 goodEnv queueEditor idleWorld).1
                 = saved idleWorld ++ [u])
         ∨ (∃ e, errorMessage (processVideo 10 goodEnv queueEditor idleWorld).1
                 = Some (MessageOf e)
                 ∧ saved (processVideo 10 goodEnv queueEditor idleWorld).1
                   = saved idleWorld))
  | Throw _ => False
  | Pending =>
      processing (processVideo 10 goodEnv queueEditor idleWorld).1 = true
      ∧ errorMessage (processVideo 10 goodEnv queueEditor idleWorld).1 = None
      ∧ failedQueueIndices (processVideo 10 goodEnv queueEditor idleWorld).1 = ∅
      ∧ saved (processVideo 10 goodEnv queueEditor idleWorld).1
        = saved idleWorld
  end.
Proof.
  apply (export_saves_once_or_reports_an_error 10 goodEnv queueEditor 0
           idleWorld); reflexivity.
Defined.

(** X16. An export marks at most one queue entry as failed.  After a run
    of [processVideo] past its two checks, [failedQueueIndices] is empty,
    or it holds exactly one index [i]; then [i] is the position of a queue
    entry whose id is in the history, the run has ended in the error state
    with the message of entry [i], and nothing was saved. *)
Theorem export_marks_at_most_one_entry
    (fuel : nat) (env : Env) (ed : Editor) (src : nat) (w : World) :
  localVideoSrc ed = Some src → env_refs env = true →
  failedQueueIndices (processVideo fuel env ed w).1 = ∅
  ∨ ∃ i mergeId v,
      mergeQueue ed !! i = Some mergeId
      ∧ findVideo (allVideos ed) mergeId = Some v
      ∧ failedQueueIndices (processVideo fuel env ed w).1 = {[ i ]}
      ∧ (processVideo fuel env ed w).2 = Ok tt
      ∧ errorMessage (processVideo fuel env ed w).1
        = Some (MessageOf (QueueItemFailed i))
      ∧ saved (processVideo fuel env ed w).1 = saved w.
Proof.
  intros Hsrc Hrefs. rewrite (processVideo_started _ _ _ src) by done.
  assert (Hw1 : failedQueueIndices (started env w) = ∅
                ∧ saved (started env w) = saved w) by done.
  destruct Hw1 as (Hf1 & Hs1).
  set (w1 := started env w) in *. clearbody w1. unfold try_catch.
  destruct (tryBlock fuel env ed src w1) as [wt rt] eqn:Htry.
  pose proof (tryBlock_outcome _ _ _ _ _ _ _ Htry) as [Hm Hout].
  destruct rt as [[]|e|].
  - destruct Hout as (_ & Hf & _). left. simpl. congruence.
  - destruct Hout as (_ & Hs & Hfail & _).
    destruct (catchBlock_run src e wt) as (w' & Hrun & Hp' & Hm' & Hf' & Hs' & _).
    rewrite Hrun. simpl.
    destruct Hfail as [Hf|(i & mergeId & v & Hq & Hfind & -> & Hf)].
    + left. congruence.
    + right. exists i, mergeId, v. split; [done|]. split; [done|].
      split; [by rewrite Hf', Hf, Hf1, (left_id_L ∅ (∪))|].
      split; [done|]. split; [done|]. congruence.
  - destruct Hout as (_ & _ & Hf & _). left. simpl. congruence.
Qed.

Lemma export_marks_at_most_one_entry_witness :
  failedQueueIndices (processVideo 10 sampleEnv queueEditor idleWorld).1 = ∅
  ∨ ∃ i mergeId v,
      mergeQueue queueEditor !! i = Some mergeId
      ∧ findVideo (allVideos queueEditor) mergeId = Some v
      ∧ failedQueueIndices (processVideo 10 sampleEnv queueEditor idleWorld).1
        = {[ i ]}
      ∧ (processVideo 10 sampleEnv queueEditor idleWorld).2 = Ok tt
      ∧ errorMessage (processVideo 10 sampleEnv queueEditor idleWorld).1
        = Some (MessageOf (QueueItemFailed i))
      ∧ saved (processVideo 10 sampleEnv queueEditor idleWorld).1
        = saved idleWorld.
Proof.
  apply (export_marks_at_most_one_entry 10 sampleEnv queueEditor 0 idleWorld);
    reflexivity.
Defined.

(** X17. A failed export leaves the recorder running.  When a run ends
    with an error other than the two errors of the stop handler (nothing
    recorded, output too small), the run has never called
    [recorder.stop()], [sourceNode.disconnect()] or [onSave]: the [catch]
    block closes the audio context and revokes the temporary URLs, but the
    recorder that was started is not stopped. *)
Theorem failed_export_never_stops_the_recorder
    (fuel : nat) (env : Env) (ed : Editor) (src : nat) (w : World)
    (e : Error) :
  localVideoSrc ed = Some src → env_refs env = true →
  errorMessage (processVideo fuel env ed w).1 = Some (MessageOf e) →
  e ≠ NoDataRecorded → e ≠ OutputTooSmall →
  ∃ evs, trace (processVideo fuel env ed w).1 = trace w ++ evs
         ∧ Forall beforeStop evs.
Proof.
  intros Hsrc Hrefs. rewrite (processVideo_started _ _ _ src) by done.
  assert (Hw1 : errorMessage (started env w) = None
                ∧ emitsR beforeStop w (started env w)).
  { split; [done|]. exists [EvPause]. split; [done|]. by constructor. }
  destruct Hw1 as (Hm1 & He1).
  set (w1 := started env w) in *. clearbody w1. unfold try_catch.
  destruct (tryBlock fuel env ed src w1) as [wt rt] eqn:Htry.
  pose proof (tryBlock_outcome _ _ _ _ _ _ _ Htry) as [Hm Hout].
  destruct rt as [[]|e'|]; simpl.
  - intros Herr. congruence.
  - destruct Hout as (_ & _ & _ & Hstop).
    destruct (catchBlock_run src e' wt) as (w' & Hrun & _ & Hm' & _ & _ & Hrel).
    rewrite Hrun. simpl. intros Herr Hne1 Hne2.
    assert (e' = e) as -> by congruence.
    destruct Hstop as [->|[->|Hstop]]; [done|done|].
    change (emitsR beforeStop w w'). etrans; [exact He1|].
    etrans; [exact Hstop|].
    eapply emitsR_weaken; [apply releases_beforeStop|exact Hrel].
  - intros Herr. congruence.
Qed.

Lemma failed_export_never_stops_the_recorder_witness :
  ∃ evs, trace (processVideo 10 sampleEnv queueEditor idleWorld).1
         = trace idleWorld ++ evs
         ∧ Forall beforeStop evs.
Proof.
  apply (failed_export_never_stops_the_recorder 10 sampleEnv queueEditor 0
           idleWorld (QueueItemFailed 2)); [reflexivity|reflexivity| |done|done].
  vm_compute. reflexivity.
Defined.

(** ** A rejected [play()] on the main clip *)

(** X18. When the setup goes through but [play()] is rejected for the
    main clip, the export ends in the error state with that rejection as
    its message; no queue entry is marked, no clip of the queue is
    fetched, and nothing is saved. *)
Theorem rejected_play_fails_the_export_before_the_queue
    (fuel : nat) (env : Env) (ed : Editor) (src : nat) (w : World) :
  localVideoSrc ed = Some src → env_refs env = true →
  setupOk env = true → pb_play (env_playback env 0) = false →
  (processVideo fuel env ed w).2 = Ok tt
  ∧ processing (processVideo fuel env ed w).1 = false
  ∧ errorMessage (processVideo fuel env ed w).1 = Some (MessageOf PlayRejected)
  ∧ failedQueueIndices (processVideo fuel env ed w).1 = ∅
  ∧ saved (processVideo fuel env ed w).1 = saved w
  ∧ ∃ evs, trace (processVideo fuel env ed w).1 = trace w ++ evs
           ∧ fetched evs = [].
Proof.
  intros Hsrc Hrefs Hsetup Hplay.
  rewrite (processVideo_started _ _ _ src) by done.
  set (P := λ ev : Event, ∀ u, ev ≠ EvFetch u).
  assert (Hw1 : failedQueueIndices (started env w) = ∅
                ∧ saved (started env w) = saved w
                ∧ emitsR P w (started env w)).
  { split; [done|]. split; [done|]. exists [EvPause]. split; [done|].
    by constructor. }
  destruct Hw1 as (Hf1 & Hs1 & He1).
  set (w1 := started env w) in *. clearbody w1.
  destruct (prepareCanvas_Ok env src w1 Hsetup) as [w2 Hprep].
  assert (H12 : sameUi w1 w2 ∧ emitsR P w1 w2).
  { pose proof (sameUi_prepareCanvas env src w1) as Hui.
    assert (Hem : steps (emitsR P) (prepareCanvas env src))
      by (unfold prepareCanvas; emits_auto).
    specialize (Hem w1). rewrite Hprep in Hui, Hem. done. }
  destruct (startRecorder_Ok env (forceEven (env_videoWidth env))
              (forceEven (env_videoHeight env)) w2 Hsetup)
    as (w3 & s & Hstart & _).
  assert (H23 : sameUi w2 w3 ∧ emitsR P w2 w3).
  { pose proof (sameUi_startRecorder env (forceEven (env_videoWidth env))
                  (forceEven (env_videoHeight env)) w2) as Hui.
    assert (Hem : steps (emitsR P)
                    (startRecorder env (forceEven (env_videoWidth env))
                       (forceEven (env_videoHeight env))))
      by (unfold startRecorder; emits_auto).
    specialize (Hem w2). rewrite Hstart in Hui, Hem. done. }
  assert (Hseg : ∀ w4, ∃ w5,
            playSegment fuel (env_playback env 0) src (trimStart ed)
              (trimStart ed) (trimEnd ed) (textOverlay ed) (width s) (height s)
              w4 = (w5, Throw PlayRejected)
            ∧ sameUi w4 w5 ∧ emitsR P w4 w5).
  { intros w4.
    pose proof (sameUi_playSegment fuel (env_playback env 0) src (trimStart ed)
                  (trimStart ed) (trimEnd ed) (textOverlay ed) (width s)
                  (height s) w4) as Hui.
    pose proof (emitsP_playSegment P fuel (env_playback env 0) src
                  (trimStart ed) (trimStart ed) (trimEnd ed) (textOverlay ed)
                  (width s) (height s) (segmentEvent_not_fetch _) w4) as Hem.
    unfold playSegment, startPlayback in *.
    pose proof (Qabs_self_near (trimStart ed)) as Hnear.
    apply Qle_bool_iff in Hnear. rewrite Hnear, Hplay in *. simpl in *.
    eexists. split; [reflexivity|]. done. }
  unfold try_catch, tryBlock. rewrite (bind_Ok _ _ _ _ _ Hprep).
  unfold recordSequence. simpl fst. simpl snd.
  rewrite (bind_Ok _ _ _ _ _ Hstart).
  erewrite bind_Ok by reflexivity.
  match goal with |- context [bind (playSegment _ _ _ _ _ _ _ _ _) _ ?w4] =>
    destruct (Hseg w4) as (w5 & Hrun & H45 & He45);
    assert (H34 : sameUi w3 w4 ∧ emitsR P w3 w4)
  end.
  { split; [done|]. eexists [_]. split; [reflexivity|]. by constructor. }
  rewrite (bind_Throw _ _ _ _ _ Hrun).
  destruct (catchBlock_run src PlayRejected w5)
    as (w' & Hcatch & Hp' & Hm' & Hf' & Hs' & Hrel).
  rewrite Hcatch. simpl.
  destruct H12 as [(_ & _ & Hf12 & Hs12) He12].
  destruct H23 as [(_ & _ & Hf23 & Hs23) He23].
  destruct H34 as [(_ & _ & Hf34 & Hs34) He34].
  destruct H45 as (_ & _ & Hf45 & Hs45).
  split; [done|]. split; [done|]. split; [done|].
  split; [congruence|]. split; [congruence|].
  assert (Hall : emitsR P w w').
  { etrans; [exact He1|]. etrans; [exact He12|]. etrans; [exact He23|].
    etrans; [exact He34|]. etrans; [exact He45|].
    eapply emitsR_weaken; [|exact Hrel]. by intros []. }
  destruct Hall as (evs & Ht & Hq). exists evs. split; [done|].
  by apply fetched_none.
Qed.

Lemma rejected_play_fails_the_export_before_the_queue_witness :
  (processVideo 10 rejectingEnv queueEditor idleWorld).2 = Ok tt
  ∧ processing (processVideo 10 rejectingEnv queueEditor idleWorld).1 = false
  ∧ errorMessage (processVideo 10 rejectingEnv queueEditor idleWorld).1
    = Some (MessageOf PlayRejected)
  ∧ failedQueueIndices (processVideo 10 rejectingEnv queueEditor idleWorld).1
    = ∅
  ∧ saved (processVideo 10 rejectingEnv queueEditor idleWorld).1
    = saved idleWorld
  ∧ ∃ evs, trace (processVideo 10 rejectingEnv queueEditor idleWorld).1
           = trace idleWorld ++ evs
           ∧ fetched evs = [].
Proof.
  apply (rejected_play_fails_the_export_before_the_queue 10 rejectingEnv
           queueEditor 0 idleWorld); reflexivity.
Defined.

(** ** The size of the processing canvas *)

Lemma forceEven_spec (n : Z) :
  Z.even (forceEven n) = true
  ∧ (n - 1 ≤ forceEven n)%Z ∧ (forceEven n ≤ n)%Z.
Proof.
  unfold forceEven.
  pose proof (Z.quot_rem' n 2) as Hqr.
  pose proof (Z.rem_bound_abs n 2 ltac:(done)) as Hb.
  destruct (Z.rem n 2 =? 0)%Z eqn:Hrem.
  - apply Z.eqb_eq in Hrem. split; [|lia].
    apply Z.even_spec. exists (n ÷ 2)%Z. lia.
  - apply Z.eqb_neq in Hrem. split; [|lia].
    apply Z.even_spec.
    destruct (Z.rem n 2) as [|r|r] eqn:Hr; [done| |].
    + exists (n ÷ 2)%Z. lia.
    + exists (n ÷ 2 - 1)%Z. lia.
Qed.

(** X19. The processing canvas gets an even, positive size, at most one
    pixel below the video's in each direction.  Whenever the set-up of the
    canvas returns a size, both lengths are even and positive, differ from
    the video's by at most one, and the initial frame was drawn at that
    size.  It fails with the dimension error exactly when the video's
    width or height is at most 1 (0, or 1 which is forced down to 0), and
    then the canvas is as it was; otherwise it fails only for want of a 2D
    context. *)
Theorem canvas_size_is_even_and_positive
    (env : Env) (src : nat) (w : World) :
  match (prepareCanvas env src w).2 with
  | Ok size =>
      Z.even size.1 = true ∧ Z.even size.2 = true
      ∧ (0 < size.1)%Z ∧ (0 < size.2)%Z
      ∧ (env_videoWidth env - 1 ≤ size.1 ≤ env_videoWidth env)%Z
      ∧ (env_videoHeight env - 1 ≤ size.2 ≤ env_videoHeight env)%Z
      ∧ last (trace (prepareCanvas env src w).1)
        = Some (EvDrawInitial size.1 size.2)
  | Throw e =>
      (e = InvalidDimensions
       ∧ ((env_videoWidth env ≤ 1)%Z ∨ (env_videoHeight env ≤ 1)%Z)
       ∧ canvas (prepareCanvas env src w).1 = canvas w)
      ∨ (e = NoCanvasContext
         ∧ (1 < env_videoWidth env)%Z ∧ (1 < env_videoHeight env)%Z
         ∧ env_context2d env = false)
  | Pending => False
  end.
Proof.
  destruct (forceEven_spec (env_videoWidth env)) as (Hwe & Hwl & Hwu).
  destruct (forceEven_spec (env_videoHeight env)) as (Hhe & Hhl & Hhu).
  unfold prepareCanvas.
  assert (Hwhen : ∃ w1, when (env_audioSuspended env)
                          (modify (setAudio Running) >> emit EvAudioResume) w
                        = (w1, Ok tt) ∧ canvas w1 = canvas w).
  { destruct (env_audioSuspended env); simpl; eauto. }
  destruct Hwhen as (w1 & Hwhen & Hc).
  rewrite !(bind_Ok _ _ _ _ _ Hwhen). cbv zeta.
  destruct (forceEven (env_videoWidth env) <=? 0)%Z eqn:Hw0;
    [|destruct (forceEven (env_videoHeight env) <=? 0)%Z eqn:Hh0].
  - simpl. apply Z.leb_le in Hw0. left. split; [done|]. split; [|done].
    left. lia.
  - simpl. apply Z.leb_le in Hh0. left. split; [done|]. split; [|done].
    right. lia.
  - apply Z.leb_gt in Hw0, Hh0. cbn [orb].
    assert (H2w : (forceEven (env_videoWidth env) ≠ 1)%Z).
    { intros H1. rewrite H1 in Hwe. done. }
    assert (H2h : (forceEven (env_videoHeight env) ≠ 1)%Z).
    { intros H1. rewrite H1 in Hhe. done. }
    destruct (env_context2d env) eqn:Hctx; simpl.
    + repeat split; try done; try lia. apply last_snoc.
    + right. repeat split; try done; lia.
Qed.

(** ** The run ends when its segments do *)

(** X20. When [play()] is rejected or the position reaches the end within
    the observed frame callbacks, for the main clip and for every clip of
    the queue that loads, the export returns: it is neither left pending
    nor does it throw. *)
Theorem export_returns_when_every_segment_ends
    (fuel : nat) (env : Env) (ed : Editor) (w : World) :
  playbackEnds fuel env ed → (processVideo fuel env ed w).2 = Ok tt.
Proof. apply processVideo_returns. Qed.

Lemma export_returns_when_every_segment_ends_witness :
  (processVideo 10 sampleEnv queueEditor idleWorld).2 = Ok tt.
Proof.
  apply (export_returns_when_every_segment_ends 10 sampleEnv queueEditor
           idleWorld).
  split.
  - right. reflexivity.
  - intros i d Hload. right. injection Hload as <-. reflexivity.
Defined.

(** ** The output blob *)

Lemma accumulated_size (data : list (option Blob)) :
  foldr N.add 0%N (map blob_size (accumulated data)) = delivered data.
Proof.
  unfold delivered. induction data as [|[b|] data IH]; simpl; [done| |done].
  destruct (0 <? blob_size b)%N eqn:Hb; simpl.
  - by rewrite IH.
  - apply N.ltb_ge in Hb. rewrite IH. lia.
Qed.

Lemma accumulated_nil_delivered (data : list (option Blob)) :
  accumulated data = [] → delivered data = 0%N.
Proof. intros Hnil. by rewrite <- accumulated_size, Hnil. Qed.

(** X21. With an empty buffer at the start, as [recorder.start] leaves
    it, stopping the recorder succeeds exactly when the [dataavailable]
    events of the run carried at least 1000 bytes in total; empty and
    missing data contribute nothing.  The URL handed to [onSave] then
    refers to a blob of exactly that many bytes, whose type is the chosen
    MIME type, or [video/webm] when none was supported. *)
Theorem output_blob_holds_all_delivered_bytes
    (env : Env) (mimeType : string) (w : World) :
  chunks w = [] →
  ((finish env mimeType w).2 = Ok tt ↔ (1000 ≤ delivered (env_data env))%N)
  ∧ ((finish env mimeType w).2 = Ok tt →
     saved (finish env mimeType w).1 = saved w ++ [nextUrl w]
     ∧ urls (finish env mimeType w).1 !! nextUrl w
       = Some {| blob_size := delivered (env_data env);
                 blob_type := if truthy mimeType then mimeType
                              else "video/webm" |}).
Proof.
  intros Hchunks. rewrite finish_unfold, onstop_cases.
  cbn [chunks setChunks]. rewrite Hchunks. cbn [app].
  pose proof (accumulated_size (env_data env)) as Hsize.
  destruct (accumulated (env_data env)) as [|c cs] eqn:Hacc.
  - simpl in Hsize. rewrite <- Hsize. simpl. split; [|done].
    split; [done|lia].
  - assert (Hb : blob_size (newBlob (c :: cs) (outputType mimeType))
                 = delivered (env_data env)) by exact Hsize.
    cbv zeta. rewrite !Hb.
    destruct (delivered (env_data env) <? 1000)%N eqn:Hlt; simpl.
    + apply N.ltb_lt in Hlt. split; [|done]. split; [done|lia].
    + apply N.ltb_ge in Hlt. split; [done|]. intros _. split; [done|].
      rewrite lookup_insert_eq. unfold newBlob, outputType.
      by rewrite Hsize.
Qed.

Lemma output_blob_holds_all_delivered_bytes_witness :
  ((finish goodEnv "video/webm" idleWorld).2 = Ok tt
   ↔ (1000 ≤ delivered (env_data goodEnv))%N)
  ∧ ((finish goodEnv "video/webm" idleWorld).2 = Ok tt →
     saved (finish goodEnv "video/webm" idleWorld).1
     = saved idleWorld ++ [nextUrl idleWorld]
     ∧ urls (finish goodEnv "video/webm" idleWorld).1 !! nextUrl idleWorld
       = Some {| blob_size := delivered (env_data goodEnv);
                 blob_type := if truthy "video/webm" then "video/webm"
                              else "video/webm" |}).
Proof.
  apply (output_blob_holds_all_delivered_bytes goodEnv "video/webm" idleWorld).
  reflexivity.
Defined.

(** ** The object URL of the main clip *)

(** X22. The cleanup of the mount effect does not release the clip the
    effect loaded.  The effect runs after the first render, where
    [localVideoSrc] is still null, and its cleanup function reads that
    value: when the fetch has succeeded and the editor is then unmounted,
    the new object URL is stored as [localVideoSrc], it is still live after
    the cleanup, and the cleanup has revoked nothing.  A fetch that
    succeeds only after the cleanup creates a URL that is neither stored
    nor revoked. *)
Theorem mount_effect_cleanup_keeps_the_clip_url
    (v : GeneratedVideo) (all : list GeneratedVideo) (body : Blob)
    (w : World) :
  let ed := mountEditor v all in
  let eff := startEffect ed in
  (∃ w1 ed1 w2 eff2,
     loadSourceTry (FetchOk body) eff ed w = (w1, Ok ed1)
     ∧ localVideoSrc ed1 = Some (nextUrl w)
     ∧ effectCleanup eff w1 = (w2, Ok eff2)
     ∧ mounted eff2 = false
     ∧ urls w2 !! nextUrl w = Some body
     ∧ trace w2 = trace w ++ [EvFetch (url v)])
  ∧ (∃ w1 eff2 w2,
       effectCleanup eff w = (w1, Ok eff2)
       ∧ loadSourceTry (FetchOk body) eff2 ed w1 = (w2, Ok ed)
       ∧ urls w2 !! nextUrl w = Some body
       ∧ trace w2 = trace w ++ [EvFetch (url v)]).
Proof.
  intros ed eff. split.
  - do 4 eexists. split; [reflexivity|]. split; [reflexivity|].
    split; [reflexivity|]. split; [reflexivity|]. simpl.
    split; [apply lookup_insert_eq|done].
  - do 3 eexists. split; [reflexivity|]. split; [reflexivity|]. simpl.
    split; [apply lookup_insert_eq|done].
Qed.
